(** * The moleculer service registry (src/registry/registry.js)

    A shallow embedding of the [Registry] class and of the catalogues it
    orchestrates, with the properties of its registration, reconciliation,
    lookup and removal operations.

    The methods of [registry.js] are embedded from their source, one
    definition per method, the callbacks of the [forEach] / [forIn] walks as
    definitions of their own.  The catalogues ([ServiceCatalog],
    [ActionCatalog], [EventCatalog], [EndpointList], [ServiceItem],
    [NodeCatalog]) live in sibling files; they are modelled from the written
    specification, and each such definition says so in its comment.  The
    options, the strategy of an EndpointList and [getLocalNodeInfo] play no
    part in the properties and are not embedded.

    JavaScript objects are shared and mutated in place, so the embedding keeps
    an explicit store: service objects live in [reg_heap] and are named by
    their reference everywhere else (the catalogue's array, the endpoints'
    back-references, the local node's owned list).  A node is a reference
    together with its id, so that object identity ([service.node != node]) and
    id equality ([node.id]) are kept apart.  A call that may throw returns a
    [Completion].  The maps of a descriptor are plain objects: indexing one
    finds its own keys and the members every object inherits from
    [Object.prototype]. *)

From stdpp Require Import gmap strings list fin_maps.

(** ** JavaScript completions *)

Inductive JsError := TypeError.

Inductive Completion (A : Type) :=
| Normal (a : A)
| Throw (e : JsError).
Arguments Normal {A} a.
Arguments Throw {A} e.

#[global] Instance Completion_ret : MRet Completion := λ A a, Normal a.

#[global] Instance Completion_bind : MBind Completion := λ A B k c,
  match c with
  | Normal a => k a
  | Throw e => Throw e
  end.

(** [_.forIn(obj, cb)] and [array.forEach(cb)] with a callback that may throw:
    the entries are visited in turn, the first exception ends the walk. *)
Fixpoint forEachM {A S} (cb : S → A → Completion S) (l : list A) (s : S)
  : Completion S :=
  match l with
  | [] => Normal s
  | a :: l' => s' ← cb s a; forEachM cb l' s'
  end.

(** The same walk with a callback that cannot throw. *)
Definition forEach {A S} (cb : S → A → S) (l : list A) (s : S) : S :=
  fold_left cb l s.

(** ** Data model *)

(** A node object: its identity in the store and its [id] field. *)
Record Node := mkNode {
  node_ref : nat;
  node_id : string
}.

(** [a == b] on two node objects compares references. *)
Definition same_object (a b : Node) : Prop := node_ref a = node_ref b.

#[global] Instance same_object_dec a b : Decision (same_object a b).
Proof. unfold same_object. apply _. Defined.

Record Action := mkAction {
  action_name : string;
  action_schema : nat
}.

Record Event := mkEvent {
  event_name : string;
  event_group : option string;
  event_handler : nat
}.

(** A descriptor of an incoming service list, [svc] in the source.  A field
    that may be [undefined] is an [option]. *)
Record Svc := mkSvc {
  svc_name : option string;
  svc_version : option nat;
  svc_settings : gmap string nat;
  svc_actions : option (gmap string Action);
  svc_events : option (gmap string Event)
}.

(** Modelled from the spec: the [ServiceItem] class (service-catalog), a
    service object with its owning node, its identity key and its own maps
    name -> Action and name -> Event (spec, data model, row Service). *)
Record ServiceItem := mkServiceItem {
  service_node : Node;
  service_name : option string;
  service_version : option nat;
  service_settings : gmap string nat;
  service_actions : gmap string Action;
  service_events : gmap string Event
}.

(** Modelled from the spec: the [Endpoint] class, the binding of one name to
    the node and service that serve it (spec, data model, row Endpoint): the
    node by id, the service by reference, the action or event served, and the
    availability flag that only external signals toggle. *)
Record Endpoint (T : Type) := mkEndpoint {
  ep_nodeID : string;
  ep_service : nat;
  ep_item : T;
  ep_available : bool
}.
Arguments mkEndpoint {T} _ _ _ _.
Arguments ep_nodeID {T} _.
Arguments ep_service {T} _.
Arguments ep_item {T} _.
Arguments ep_available {T} _.

Inductive LogEntry :=
| ServiceRegistered (name : option string).

(** The registry with everything reachable from it. *)
Record Registry := mkRegistry {
  reg_nodeID : string;                         (* this.broker.nodeID *)
  reg_localNode : Node;                        (* this.nodes.localNode *)
  reg_localServices : list nat;                (* this.nodes.localNode.services *)
  reg_heap : list ServiceItem;                 (* the ServiceItem objects *)
  reg_services : list nat;                     (* this.services.services *)
  reg_actions : gmap string (list (Endpoint Action));   (* this.actions *)
  reg_events : gmap string (list (Endpoint Event));     (* this.events *)
  reg_log : list LogEntry                      (* this.logger.info *)
}.

Definition set_heap (h : list ServiceItem) (st : Registry) : Registry :=
  mkRegistry (reg_nodeID st) (reg_localNode st) (reg_localServices st) h
    (reg_services st) (reg_actions st) (reg_events st) (reg_log st).

Definition set_services (l : list nat) (st : Registry) : Registry :=
  mkRegistry (reg_nodeID st) (reg_localNode st) (reg_localServices st)
    (reg_heap st) l (reg_actions st) (reg_events st) (reg_log st).

Definition set_actions (c : gmap string (list (Endpoint Action)))
  (st : Registry) : Registry :=
  mkRegistry (reg_nodeID st) (reg_localNode st) (reg_localServices st)
    (reg_heap st) (reg_services st) c (reg_events st) (reg_log st).

Definition set_events (c : gmap string (list (Endpoint Event)))
  (st : Registry) : Registry :=
  mkRegistry (reg_nodeID st) (reg_localNode st) (reg_localServices st)
    (reg_heap st) (reg_services st) (reg_actions st) c (reg_log st).

Definition set_localServices (l : list nat) (st : Registry) : Registry :=
  mkRegistry (reg_nodeID st) (reg_localNode st) l
    (reg_heap st) (reg_services st) (reg_actions st) (reg_events st) (reg_log st).

Definition set_log (l : list LogEntry) (st : Registry) : Registry :=
  mkRegistry (reg_nodeID st) (reg_localNode st) (reg_localServices st)
    (reg_heap st) (reg_services st) (reg_actions st) (reg_events st) l.

(** Modelled from the spec: the registry as the constructor leaves it.  The
    four catalogues are created empty; NodeCatalog, which is not in
    registry.js, holds the one local node, whose id is the broker's. *)
Definition new_Registry (nodeID : string) : Registry :=
  mkRegistry nodeID (mkNode 0 nodeID) [] [] [] ∅ ∅ [].

(** ** EndpointList and the action and event catalogues *)

Module EndpointList.
Section ops.
Context {T : Type}.

(** Modelled from the spec: [EndpointList.add], "get-or-create/replace the
    Endpoint for (node, service) within it - upsert semantics"; the list
    holds one endpoint per node id, a fresh endpoint is available, a
    replaced one keeps the flag the registry does not own. *)
Fixpoint add (nodeID : string) (service : nat) (item : T)
  (l : list (Endpoint T)) : list (Endpoint T) :=
  match l with
  | [] => [mkEndpoint nodeID service item true]
  | e :: l' =>
      if decide (ep_nodeID e = nodeID)
      then mkEndpoint nodeID service item (ep_available e) :: l'
      else e :: add nodeID service item l'
  end.

(** Modelled from the spec: [getEndpointByNodeID], "exact lookup, ignoring
    availability and strategy". *)
Definition getEndpointByNodeID (l : list (Endpoint T)) (nodeID : string)
  : option (Endpoint T) :=
  head (filter (λ e, ep_nodeID e = nodeID) l).

(** Modelled from the spec: removal of the endpoint of one node. *)
Definition removeByNodeID (l : list (Endpoint T)) (nodeID : string)
  : list (Endpoint T) :=
  filter (λ e, ep_nodeID e ≠ nodeID) l.

(** Modelled from the spec: removal of the endpoints one service
    registered. *)
Definition removeByService (l : list (Endpoint T)) (service : nat)
  : list (Endpoint T) :=
  filter (λ e, ep_service e ≠ service) l.
End ops.
End EndpointList.

Module Catalog.
Section ops.
Context {T : Type} (nameOf : T → string).

(** Modelled from the spec: [ActionCatalog.add] / [EventCatalog.add],
    "get-or-create the EndpointList for the name, then get-or-create/replace
    the Endpoint for (node, service) within it". *)
Definition add (cat : gmap string (list (Endpoint T))) (node : Node)
  (service : nat) (item : T) : gmap string (list (Endpoint T)) :=
  <[nameOf item :=
      EndpointList.add (node_id node) service item
        (default [] (cat !! nameOf item))]> cat.

(** Modelled from the spec: [get(name)], "EndpointList or absent". *)
Definition get (cat : gmap string (list (Endpoint T))) (name : string)
  : option (list (Endpoint T)) :=
  cat !! name.

(** Modelled from the spec: [remove(name, nodeId)], "removes the one
    Endpoint for nodeId; if the EndpointList becomes empty, the name entry
    is deleted entirely". *)
Definition remove (cat : gmap string (list (Endpoint T))) (name : string)
  (nodeID : string) : gmap string (list (Endpoint T)) :=
  match cat !! name with
  | None => cat
  | Some l =>
      match EndpointList.removeByNodeID l nodeID with
      | [] => delete name cat
      | l' => <[name := l']> cat
      end
  end.

(** Modelled from the spec: the cascade of a service removal, "every
    endpoint those services registered" goes, and a list left empty is
    deleted with its name. *)
Definition removeByService (cat : gmap string (list (Endpoint T)))
  (service : nat) : gmap string (list (Endpoint T)) :=
  omap (λ l, match EndpointList.removeByService l service with
             | [] => None
             | l' => Some l'
             end) cat.
End ops.
End Catalog.

(** ** ServiceItem and ServiceCatalog *)

Module ServiceItem.
(** Modelled from the spec: [equals(name, version, nodeID)], the identity
    key (name, version, nodeId) of a service; the node is compared by id and
    only when the caller passes one ([registerServices] calls it with name
    and version alone). *)
Definition equals (s : ServiceItem) (name : option string)
  (version : option nat) (nodeID : option string) : Prop :=
  service_name s = name ∧ service_version s = version ∧
  match nodeID with
  | None => True
  | Some n => node_id (service_node s) = n
  end.

#[global] Instance equals_dec s name version nodeID :
  Decision (equals s name version nodeID).
Proof. unfold equals. destruct nodeID; apply _. Defined.

(** Modelled from the spec: [update(descriptor)] "merges settings only". *)
Definition update (svc : Svc) (s : ServiceItem) : ServiceItem :=
  mkServiceItem (service_node s) (service_name s) (service_version s)
    (svc_settings svc ∪ service_settings s)
    (service_actions s) (service_events s).

(** Modelled from the spec: [addAction], the action is recorded "on the
    Service's own map" under its name. *)
Definition addAction (action : Action) (s : ServiceItem) : ServiceItem :=
  mkServiceItem (service_node s) (service_name s) (service_version s)
    (service_settings s)
    (<[action_name action := action]> (service_actions s))
    (service_events s).

(** Modelled from the spec: [addEvent], as [addAction]. *)
Definition addEvent (event : Event) (s : ServiceItem) : ServiceItem :=
  mkServiceItem (service_node s) (service_name s) (service_version s)
    (service_settings s) (service_actions s)
    (<[event_name event := event]> (service_events s)).
End ServiceItem.

Module ServiceCatalog.
(** The service object behind reference [r] has the key (name, version,
    nodeID). *)
Definition matches (st : Registry) (name : option string)
  (version : option nat) (nodeID : string) (r : nat) : Prop :=
  match reg_heap st !! r with
  | Some s => ServiceItem.equals s name version (Some nodeID)
  | None => False
  end.

#[global] Instance matches_dec st name version nodeID r :
  Decision (matches st name version nodeID r).
Proof. unfold matches. destruct (reg_heap st !! r); apply _. Defined.

(** Modelled from the spec: [get(name, version, nodeId)], the service
    recorded under that key, or absent. *)
Definition get (st : Registry) (name : option string) (version : option nat)
  (nodeID : string) : option nat :=
  head (filter (matches st name version nodeID) (reg_services st)).

(** Modelled from the spec: [add(node, name, version, settings)] "creates
    and attaches to the node": a new service object, owned by [node], with
    empty action and event maps, appended to the catalogue.  The new
    reference is returned with the registry. *)
Definition add (st : Registry) (node : Node) (name : option string)
  (version : option nat) (settings : gmap string nat) : Registry * nat :=
  let r := length (reg_heap st) in
  (set_services (reg_services st ++ [r])
     (set_heap (reg_heap st ++ [mkServiceItem node name version settings ∅ ∅])
        st),
   r).

(** Modelled from the spec: the removal of one service object "in full
    (service, actions, events, endpoints)": the endpoints it registered
    leave both catalogues, then the entry leaves the service catalogue.
    The spec does not say how the entry leaves the array; here the catalogue
    gets a new array, so that a walk over the old one visits every service
    recorded when it started, as the spec has the second walk of
    [registerServices] do ("scan every service currently owned by node"). *)
Definition removeService (st : Registry) (r : nat) : Registry :=
  set_services (filter (λ r', r' ≠ r) (reg_services st))
    (set_events (Catalog.removeByService (reg_events st) r)
       (set_actions (Catalog.removeByService (reg_actions st) r) st)).

(** Modelled from the spec: [remove(name, version, nodeId)], the inverse of
    [get]: the service found under the key is removed, nothing happens when
    there is none. *)
Definition remove (st : Registry) (name : option string)
  (version : option nat) (nodeID : string) : Registry :=
  match get st name version nodeID with
  | Some r => removeService st r
  | None => st
  end.

(** The service behind [r] is owned by a node with id [nodeID]. *)
Definition ownedByID (st : Registry) (nodeID : string) (r : nat) : Prop :=
  match reg_heap st !! r with
  | Some s => node_id (service_node s) = nodeID
  | None => False
  end.

#[global] Instance ownedByID_dec st nodeID r : Decision (ownedByID st nodeID r).
Proof. unfold ownedByID. destruct (reg_heap st !! r); apply _. Defined.

(** Modelled from the spec: [removeAllByNodeID(nodeId)], every service of
    that node is removed in full. *)
Definition removeAllByNodeID (st : Registry) (nodeID : string) : Registry :=
  forEach (λ st r, if decide (ownedByID st nodeID r)
                   then removeService st r else st)
    (reg_services st) st.
End ServiceCatalog.

(** ** Registry (src/registry/registry.js) *)

(** [o.m(...)] on a value that may be [undefined]. *)
Definition call_method {A B} (o : option A) (m : A → B) : Completion B :=
  match o with
  | Some a => Normal (m a)
  | None => Throw TypeError
  end.

(** The members a plain object inherits from [Object.prototype]: indexing
    finds them on every descriptor map, whatever its own keys are. *)
Definition Object_prototype : list string :=
  [ "constructor"; "hasOwnProperty"; "isPrototypeOf";
    "propertyIsEnumerable"; "toLocaleString"; "toString"; "valueOf";
    "__defineGetter__"; "__defineSetter__"; "__lookupGetter__";
    "__lookupSetter__"; "__proto__" ].

(** What [o[k]] finds on a plain object: a value of the object's own, or a
    member of [Object.prototype]. *)
Inductive Member (V : Type) :=
  | Own (v : V)
  | Inherited.

Arguments Own {V} v.
Arguments Inherited {V}.

(** Indexing a map finds [name], as a key of its own or up the prototype
    chain; every value it finds is an object or a function, hence truthy. *)
Definition indexed {V} (m : gmap string V) (name : string) : Prop :=
  is_Some (m !! name) ∨ name ∈ Object_prototype.

#[global] Instance indexed_dec {V} (m : gmap string V) name :
  Decision (indexed m name).
Proof. unfold indexed. apply _. Defined.

(** [o[k]] on a plain object that may be [undefined]: the own key first, the
    prototype chain after it. *)
Definition js_index {V} (o : option (gmap string V)) (k : string)
  : Completion (option (Member V)) :=
  call_method o (λ m,
    match m !! k with
    | Some v => Some (Own v)
    | None => if decide (k ∈ Object_prototype) then Some Inherited else None
    end).

(** [a || b] on a string that may be [undefined]: the empty string is falsy
    too. *)
Definition js_or (a : option string) (b : string) : string :=
  match a with
  | Some s => if decide (s = EmptyString) then b else s
  | None => b
  end.

(** The callback of [_.forIn] in [registerActions], lines 147-148: the
    action goes into the action catalogue and onto the service's own map. *)
Definition registerAction (node : Node) (service : nat) (st : Registry)
  (entry : string * Action) : Registry :=
  let action := entry.2 in
  let st := set_actions
              (Catalog.add action_name (reg_actions st) node service action)
              st in
  set_heap (alter (ServiceItem.addAction action) service (reg_heap st)) st.

(** [registerActions(node, service, actions)], lines 145-150. *)
Definition registerActions (st : Registry) (node : Node) (service : nat)
  (actions : gmap string Action) : Registry :=
  forEach (registerAction node service) (map_to_list actions) st.

(** The callback of [_.forIn] in [registerEvents], lines 220-221. *)
Definition registerEvent (node : Node) (service : nat) (st : Registry)
  (entry : string * Event) : Registry :=
  let event := entry.2 in
  let st := set_events
              (Catalog.add event_name (reg_events st) node service event)
              st in
  set_heap (alter (ServiceItem.addEvent event) service (reg_heap st)) st.

(** [registerEvents(node, service, events)], lines 218-223. *)
Definition registerEvents (st : Registry) (node : Node) (service : nat)
  (events : gmap string Event) : Registry :=
  forEach (registerEvent node service) (map_to_list events) st.

(** [unregisterAction(node, actionName)], lines 206-208. *)
Definition unregisterAction (st : Registry) (node : Node) (actionName : string)
  : Registry :=
  set_actions (Catalog.remove (reg_actions st) actionName (node_id node)) st.

(** [unregisterEvent(node, eventName)], lines 232-234. *)
Definition unregisterEvent (st : Registry) (node : Node) (eventName : string)
  : Registry :=
  set_events (Catalog.remove (reg_events st) eventName (node_id node)) st.

(** [unregisterService(name, version, nodeID)], lines 185-187. *)
Definition unregisterService (st : Registry) (name : option string)
  (version : option nat) (nodeID : option string) : Registry :=
  ServiceCatalog.remove st name version (js_or nodeID (reg_nodeID st)).

(** [unregisterServicesByNode(nodeID)], lines 195-197. *)
Definition unregisterServicesByNode (st : Registry) (nodeID : string)
  : Registry :=
  ServiceCatalog.removeAllByNodeID st nodeID.

(** [getActionEndpoints(actionName)], lines 159-161. *)
Definition getActionEndpoints (st : Registry) (actionName : string)
  : Completion (option (list (Endpoint Action))) :=
  Normal (Catalog.get (reg_actions st) actionName).

(** [getActionEndpointByNodeId(actionName, nodeID)], lines 171-175; falling
    off the end returns [undefined]. *)
Definition getActionEndpointByNodeId (st : Registry) (actionName : string)
  (nodeID : string) : Completion (option (Endpoint Action)) :=
  let list := Catalog.get (reg_actions st) actionName in
  match list with
  | Some _ => call_method list (λ l, EndpointList.getEndpointByNodeID l nodeID)
  | None => Normal None
  end.

(** [registerLocalService(svc)], lines 61-74. *)
Definition registerLocalService (st : Registry) (svc : Svc) : Registry :=
  let '(st, service) :=
    ServiceCatalog.add st (reg_localNode st) (svc_name svc) (svc_version svc)
      (svc_settings svc) in
  let st := match svc_actions svc with
            | Some actions => registerActions st (reg_localNode st) service actions
            | None => st
            end in
  let st := match svc_events svc with
            | Some events => registerEvents st (reg_localNode st) service events
            | None => st
            end in
  let st := set_localServices (reg_localServices st ++ [service]) st in
  set_log (reg_log st ++ [ServiceRegistered (svc_name svc)]) st.

(** The callback of [_.forIn(prevActions, ...)], lines 102-103: a name the
    service held is unregistered when [svc.actions[name]] finds nothing,
    neither an action of the descriptor nor an inherited member. *)
Definition dropOldAction (node : Node) (svc : Svc) (st : Registry)
  (entry : string * Action) : Completion Registry :=
  let name := entry.1 in
  found ← js_index (svc_actions svc) name;
  match found with
  | Some _ => Normal st
  | None => Normal (unregisterAction st node name)
  end.

(** The callback of [_.forIn(prevEvents, ...)], lines 114-115, with the same
    test on [svc.events[name]]. *)
Definition dropOldEvent (node : Node) (svc : Svc) (st : Registry)
  (entry : string * Event) : Completion Registry :=
  let name := entry.1 in
  found ← js_index (svc_events svc) name;
  match found with
  | Some _ => Normal st
  | None => Normal (unregisterEvent st node name)
  end.

(** Lines 85-93 of the first callback: the service of the descriptor is
    looked up under (name, version, node.id); a missing one is created, a
    found one has its own maps copied ([prevActions], [prevEvents]) and its
    settings updated. *)
Definition findOrCreate (node : Node) (st : Registry) (svc : Svc)
  : Registry * nat * option (gmap string Action) * option (gmap string Event) :=
  match ServiceCatalog.get st (svc_name svc) (svc_version svc) (node_id node) with
  | None =>
      let '(st, service) :=
        ServiceCatalog.add st node (svc_name svc) (svc_version svc)
          (svc_settings svc) in
      (st, service, None, None)
  | Some service =>
      let prevActions := service_actions <$> reg_heap st !! service in
      let prevEvents := service_events <$> reg_heap st !! service in
      (set_heap (alter (ServiceItem.update svc) service (reg_heap st)) st,
       service, prevActions, prevEvents)
  end.

(** The callback of the first [forEach] of [registerServices], lines 84-118:
    one descriptor is reconciled. *)
Definition reconcile (node : Node) (st : Registry) (svc : Svc)
  : Completion Registry :=
  let '(st, service, prevActions, prevEvents) := findOrCreate node st svc in
  (* Register actions *)
  let st := match svc_actions svc with
            | Some actions => registerActions st node service actions
            | None => st
            end in
  (* remove old actions which is not exist *)
  st ← match prevActions with
       | Some prevActions =>
           forEachM (dropOldAction node svc) (map_to_list prevActions) st
       | None => Normal st
       end;
  (* Register events *)
  let st := match svc_events svc with
            | Some events => registerEvents st node service events
            | None => st
            end in
  (* remove old events which is not exist *)
  match prevEvents with
  | Some prevEvents =>
      forEachM (dropOldEvent node svc) (map_to_list prevEvents) st
  | None => Normal st
  end.

(** The callback of the second [forEach] of [registerServices], lines
    121-134: a recorded service of [node] that no descriptor names is
    unregistered. *)
Definition removeOld (node : Node) (serviceList : list Svc) (st : Registry)
  (service : nat) : Registry :=
  match reg_heap st !! service with
  | None => st
  | Some s =>
      if decide (same_object (service_node s) node) then
        let exist :=
          forEach (λ exist svc,
              if decide (ServiceItem.equals s (svc_name svc) (svc_version svc) None)
              then true else exist)
            serviceList false in
        if exist then st
        else unregisterService st (service_name s) (service_version s)
               (Some (node_id node))
      else st
  end.

(** The second [forEach] of [registerServices], lines 121-134.  The walk
    visits the services recorded when it starts. *)
Definition removeOldServices (st : Registry) (node : Node)
  (serviceList : list Svc) : Registry :=
  forEach (removeOld node serviceList) (reg_services st) st.

(** [registerServices(node, serviceList)], lines 83-135. *)
Definition registerServices (st : Registry) (node : Node)
  (serviceList : list Svc) : Completion Registry :=
  st ← forEachM (reconcile node) serviceList st;
  Normal (removeOldServices st node serviceList).

(** ** Observations *)

(** The identity of a service object: owning node, name and version.  No
    operation of the registry changes it once the object exists. *)
Definition service_key (s : ServiceItem) : Node * option string * option nat :=
  (service_node s, service_name s, service_version s).

(** The name and version of a descriptor. *)
Definition svc_key (svc : Svc) : option string * option nat :=
  (svc_name svc, svc_version svc).

(** The maps of a descriptor, a missing one read as empty. *)
Definition actions_of (svc : Svc) : gmap string Action :=
  default ∅ (svc_actions svc).

Definition events_of (svc : Svc) : gmap string Event :=
  default ∅ (svc_events svc).

(** The registry after a call that completes; a call that throws leaves the
    registry it was given. *)
Definition after (c : Completion Registry) (st : Registry) : Registry :=
  match c with
  | Normal st' => st'
  | Throw _ => st
  end.

(** The endpoint recorded for [name] on the node with id [nodeID]. *)
Definition endpointOf {T} (cat : gmap string (list (Endpoint T)))
  (name nodeID : string) : option (Endpoint T) :=
  l ← cat !! name; EndpointList.getEndpointByNodeID l nodeID.

(** The endpoints an EndpointList holds for one node. *)
Definition endpointsFor {T} (l : list (Endpoint T)) (nodeID : string)
  : list (Endpoint T) :=
  filter (λ e, ep_nodeID e = nodeID) l.

(** The catalogue routes [name] to the endpoint [e]. *)
Definition routed {T} (cat : gmap string (list (Endpoint T))) (name : string)
  (e : Endpoint T) : Prop :=
  ∃ l, cat !! name = Some l ∧ e ∈ l.

(** A service is recorded under the key (name, version, nodeID). *)
Definition recorded (st : Registry) (name : option string)
  (version : option nat) (nodeID : string) : Prop :=
  is_Some (ServiceCatalog.get st name version nodeID).

(** Some descriptor of the list names the service (by name and version). *)
Definition listed (serviceList : list Svc) (s : ServiceItem) : Prop :=
  Exists (λ svc, ServiceItem.equals s (svc_name svc) (svc_version svc) None)
    serviceList.

#[global] Instance listed_dec serviceList s : Decision (listed serviceList s).
Proof. unfold listed. apply _. Defined.

(** The descriptor carries both its maps. *)
Definition complete (svc : Svc) : Prop :=
  is_Some (svc_actions svc) ∧ is_Some (svc_events svc).


(** A [nodeID] argument that [||] replaces: [undefined] or the empty
    string. *)
Definition falsy (nodeID : option string) : Prop :=
  nodeID = None ∨ nodeID = Some EmptyString.

(** ** How two registries relate *)

(** Everything but the action catalogue and the services' own action maps. *)
Definition actions_frame (st st' : Registry) : Prop :=
  reg_nodeID st' = reg_nodeID st ∧
  reg_localNode st' = reg_localNode st ∧
  reg_localServices st' = reg_localServices st ∧
  service_key <$> reg_heap st' = service_key <$> reg_heap st ∧
  service_events <$> reg_heap st' = service_events <$> reg_heap st ∧
  reg_services st' = reg_services st ∧
  reg_events st' = reg_events st ∧
  reg_log st' = reg_log st.

(** Everything but the event catalogue and the services' own event maps. *)
Definition events_frame (st st' : Registry) : Prop :=
  reg_nodeID st' = reg_nodeID st ∧
  reg_localNode st' = reg_localNode st ∧
  reg_localServices st' = reg_localServices st ∧
  service_key <$> reg_heap st' = service_key <$> reg_heap st ∧
  service_actions <$> reg_heap st' = service_actions <$> reg_heap st ∧
  reg_services st' = reg_services st ∧
  reg_actions st' = reg_actions st ∧
  reg_log st' = reg_log st.

(** What the reconciliation of one descriptor leaves alone: the broker's id,
    the local node and its owned list, the log. *)
Definition broker_frame (st st' : Registry) : Prop :=
  reg_nodeID st' = reg_nodeID st ∧
  reg_localNode st' = reg_localNode st ∧
  reg_localServices st' = reg_localServices st ∧
  reg_log st' = reg_log st.

(** The service objects and the service catalogue are the same. *)
Definition same_services (st st' : Registry) : Prop :=
  service_key <$> reg_heap st' = service_key <$> reg_heap st ∧
  reg_services st' = reg_services st.

(** From [st] to [st'] service objects were only added, all of them owned by
    [node], and the service catalogue only received new references. *)
Definition grows (node : Node) (st st' : Registry) : Prop :=
  ∃ ks rs,
    service_key <$> reg_heap st' = (service_key <$> reg_heap st) ++ ks ∧
    reg_services st' = reg_services st ++ rs ∧
    Forall (λ k, k.1.1 = node) ks ∧
    Forall (λ r, length (reg_heap st) ≤ r) rs.

(** ** The catalogue of one kind of entry through a reconciliation

    Actions and events go through [registerServices] in the same way; the
    definitions below describe that way once, for the catalogue of either
    kind. *)

(** The catalogue after [registerActions] / [registerEvents]: every entry of
    the descriptor's map is upserted for the node and the service. *)
Definition addAll {T} (nameOf : T → string)
  (cat : gmap string (list (Endpoint T))) (node : Node) (service : nat)
  (entries : gmap string T) : gmap string (list (Endpoint T)) :=
  forEach (λ cat entry, Catalog.add nameOf cat node service entry.2)
    (map_to_list entries) cat.

(** The catalogue after the walk over [prevActions] / [prevEvents] when the
    descriptor carries its map: the node's endpoint goes for every name the
    service held that indexing the descriptor's map does not find. *)
Definition dropAbsent {T} (cat : gmap string (list (Endpoint T)))
  (nodeID : string) (entries prev : gmap string T)
  : gmap string (list (Endpoint T)) :=
  forEach (λ cat entry,
      if decide (indexed entries entry.1) then cat
      else Catalog.remove cat entry.1 nodeID)
    (map_to_list prev) cat.

(** ** Invariants *)

(** "No dangling empty lists" (spec, data model, row EndpointList). *)
Definition no_empty_lists {T} (cat : gmap string (list (Endpoint T))) : Prop :=
  map_Forall (λ _ l, l ≠ []) cat.

(** "An EndpointList never holds two endpoints for the same node" (spec,
    invariants). *)
Definition one_per_node {T} (cat : gmap string (list (Endpoint T))) : Prop :=
  map_Forall (λ _ l, NoDup (ep_nodeID <$> l)) cat.

#[global] Instance no_empty_lists_dec {T}
  (cat : gmap string (list (Endpoint T))) : Decision (no_empty_lists cat).
Proof. unfold no_empty_lists. apply _. Defined.

#[global] Instance one_per_node_dec {T}
  (cat : gmap string (list (Endpoint T))) : Decision (one_per_node cat).
Proof. unfold one_per_node. apply _. Defined.

(** The invariants of the two endpoint catalogues (spec, data model): no
    dangling empty list, one endpoint per node in each list. *)
Definition well_formed (st : Registry) : Prop :=
  no_empty_lists (reg_actions st) ∧ no_empty_lists (reg_events st) ∧
  one_per_node (reg_actions st) ∧ one_per_node (reg_events st).

(** Every reference of the service catalogue names a service object. *)
Definition catalogue_live (st : Registry) : Prop :=
  ∀ r, r ∈ reg_services st → is_Some (reg_heap st !! r).

(** "Service identity uniqueness on (name, version, nodeId)" for the services
    of one node: each of them is the service found under its own key. *)
Definition found_by_key (nodeID : string) (st : Registry) : Prop :=
  ∀ r s, r ∈ reg_services st → reg_heap st !! r = Some s →
         node_id (service_node s) = nodeID →
         ServiceCatalog.get st (service_name s) (service_version s) nodeID
           = Some r.

(** Every recorded service whose node has the id of [node] stores the object
    [node] itself. *)
Definition owned_same_object (node : Node) (st : Registry) : Prop :=
  ∀ r s, r ∈ reg_services st → reg_heap st !! r = Some s →
         node_id (service_node s) = node_id node →
         same_object (service_node s) node.

Section kinds.
Context {T : Type}.
Context (cat : Registry → gmap string (list (Endpoint T))).
Context (own : ServiceItem → gmap string T).
Context (decl : Svc → gmap string T).

(** "No orphaned catalog entries": an endpoint of the node was registered by
    a recorded service of the node that holds the name on its own map. *)
Definition endpoints_backed (nodeID : string) (st : Registry) : Prop :=
  ∀ name e, routed (cat st) name e → ep_nodeID e = nodeID →
    ∃ s, ep_service e ∈ reg_services st ∧
         reg_heap st !! ep_service e = Some s ∧
         node_id (service_node s) = nodeID ∧
         is_Some (own s !! name).

(** A name a recorded service of the node holds is declared, in the service
    list, by the descriptor of that service only. *)
Definition names_owned (nodeID : string) (serviceList : list Svc)
  (st : Registry) : Prop :=
  ∀ r s name svc,
    r ∈ reg_services st → reg_heap st !! r = Some s →
    node_id (service_node s) = nodeID → is_Some (own s !! name) →
    svc ∈ serviceList → is_Some (decl svc !! name) →
    svc_name svc = service_name s ∧ svc_version svc = service_version s.

(** No recorded service of the node holds, on its own map, the name of a
    member of [Object.prototype]. *)
Definition holds_plain (nodeID : string) (st : Registry) : Prop :=
  ∀ r s name,
    r ∈ reg_services st → reg_heap st !! r = Some s →
    node_id (service_node s) = nodeID → is_Some (own s !! name) →
    name ∉ Object_prototype.

(** The state of the first walk of [registerServices] on registry [st0] once
    the descriptors [done_] are reconciled. *)
Definition reconciled (node : Node) (st0 : Registry) (done_ : list Svc)
  (st : Registry) : Prop :=
  grows node st0 st ∧
  catalogue_live st ∧
  found_by_key (node_id node) st ∧
  one_per_node (cat st) ∧
  (* a service added by the walk is that of a reconciled descriptor *)
  (∀ r, r ∈ reg_services st → r ∉ reg_services st0 →
     ∃ svc, svc ∈ done_ ∧
       ServiceCatalog.matches st (svc_name svc) (svc_version svc) (node_id node) r) ∧
  (* the services of the node not reconciled yet are as they were *)
  (∀ r s, r ∈ reg_services st0 → reg_heap st0 !! r = Some s →
     node_id (service_node s) = node_id node →
     (service_name s, service_version s) ∉ svc_key <$> done_ →
     reg_heap st !! r = Some s) ∧
  (* an endpoint of the node is new, or old and of a service not reconciled *)
  (∀ name e, routed (cat st) name e → ep_nodeID e = node_id node →
     (∃ svc s, svc ∈ done_ ∧ is_Some (decl svc !! name) ∧
        ep_service e ∈ reg_services st ∧
        ServiceCatalog.matches st (svc_name svc) (svc_version svc)
          (node_id node) (ep_service e) ∧
        reg_heap st !! ep_service e = Some s ∧ is_Some (own s !! name)) ∨
     (∃ s, ep_service e ∈ reg_services st0 ∧
        reg_heap st0 !! ep_service e = Some s ∧
        node_id (service_node s) = node_id node ∧
        is_Some (own s !! name) ∧
        (service_name s, service_version s) ∉ svc_key <$> done_)) ∧
  (* every name a reconciled descriptor declares is served by the node *)
  (∀ svc name, svc ∈ done_ → is_Some (decl svc !! name) →
     ∃ e svc', routed (cat st) name e ∧ ep_nodeID e = node_id node ∧
       svc' ∈ done_ ∧ ep_service e ∈ reg_services st ∧
       ServiceCatalog.matches st (svc_name svc') (svc_version svc')
         (node_id node) (ep_service e)).
End kinds.

(** The entries of a descriptor's maps are filed under their own names. *)
Definition named_by_key (svc : Svc) : Prop :=
  map_Forall (λ k a, action_name a = k) (actions_of svc) ∧
  map_Forall (λ k e, event_name e = k) (events_of svc).

(** A service list as a peer sends it: complete descriptors, no service
    described twice, entries filed under their names. *)
Definition snapshot (serviceList : list Svc) : Prop :=
  Forall complete serviceList ∧
  NoDup (svc_key <$> serviceList) ∧
  Forall named_by_key serviceList.

(** The data-model invariants of the specification, for the part of the
    registry that belongs to [node]. *)
Definition consistent (node : Node) (st : Registry) : Prop :=
  catalogue_live st ∧
  found_by_key (node_id node) st ∧
  owned_same_object node st ∧
  one_per_node (reg_actions st) ∧
  one_per_node (reg_events st) ∧
  endpoints_backed reg_actions service_actions (node_id node) st ∧
  endpoints_backed reg_events service_events (node_id node) st.

(** Action and event names are not shared between the services of the
    node. *)
Definition names_apart (node : Node) (serviceList : list Svc)
  (st : Registry) : Prop :=
  names_owned service_actions actions_of (node_id node) serviceList st ∧
  names_owned service_events events_of (node_id node) serviceList st.

(** The action and event names the recorded services of the node hold are
    names of their own: indexing a descriptor's map finds them only where the
    descriptor declares them. *)
Definition plain_names (node : Node) (st : Registry) : Prop :=
  holds_plain service_actions (node_id node) st ∧
  holds_plain service_events (node_id node) st.

(** What the registry records for a node id: the services, the action names
    and the event names it routes to the node. *)
Definition same_view (nodeID : string) (st st' : Registry) : Prop :=
  (∀ name version, recorded st name version nodeID ↔
                   recorded st' name version nodeID) ∧
  (∀ name, is_Some (endpointOf (reg_actions st) name nodeID) ↔
           is_Some (endpointOf (reg_actions st') name nodeID)) ∧
  (∀ name, is_Some (endpointOf (reg_events st) name nodeID) ↔
           is_Some (endpointOf (reg_events st') name nodeID)).

(** ** Further relations and invariants *)

(** Every endpoint of the catalogue refers back to a service object of the
    store. *)
Definition endpoints_live {T} (cat : gmap string (list (Endpoint T)))
  (st : Registry) : Prop :=
  ∀ name e, routed cat name e → is_Some (reg_heap st !! ep_service e).

(** Every reference the catalogues hold names a service object. *)
Definition references_live (st : Registry) : Prop :=
  catalogue_live st ∧
  endpoints_live (reg_actions st) st ∧
  endpoints_live (reg_events st) st.

(** Lines 102 and 114 index a map the descriptor does not carry: the service
    of [svc] is recorded for [node] and holds a name of the kind whose map is
    missing. *)
Definition indexes_missing_map (node : Node) (st : Registry) (svc : Svc)
  : Prop :=
  ∃ r s,
    ServiceCatalog.get st (svc_name svc) (svc_version svc) (node_id node)
      = Some r ∧
    reg_heap st !! r = Some s ∧
    ((svc_actions svc = None ∧ service_actions s ≠ ∅) ∨
     (svc_events svc = None ∧ service_events s ≠ ∅)).

(** The endpoint lists of [st'] are those of [st] once the endpoints of the
    node with id [nodeID] are set aside. *)
Definition others_kept (nodeID : string) (st st' : Registry) : Prop :=
  (∀ name,
     EndpointList.removeByNodeID (default [] (reg_actions st' !! name)) nodeID
     = EndpointList.removeByNodeID (default [] (reg_actions st !! name)) nodeID) ∧
  (∀ name,
     EndpointList.removeByNodeID (default [] (reg_events st' !! name)) nodeID
     = EndpointList.removeByNodeID (default [] (reg_events st !! name)) nodeID).

(** The endpoints of the node with id [nodeID] were registered by service
    objects of a node with that id. *)
Definition served_by_own_services {T} (cat : gmap string (list (Endpoint T)))
  (nodeID : string) (st : Registry) : Prop :=
  ∀ name e, routed cat name e → ep_nodeID e = nodeID →
    ServiceCatalog.ownedByID st nodeID (ep_service e).

(** The calls [registerServices(node, S1)], ..., [registerServices(node, Sn)]
    in turn, each on the registry the call before left. *)
Definition registerSnapshots (st : Registry) (node : Node)
  (snapshots : list (list Svc)) : Completion Registry :=
  forEachM (λ st serviceList, registerServices st node serviceList)
    snapshots st.

(** Every action and event name belongs to one service, as when names carry
    the service's name as a prefix ("math.add"): [ownerA name] and
    [ownerE name] are that service's name and version.  The descriptor
    declares names of its own service only. *)
Definition declares_assigned
  (ownerA ownerE : string → option string * option nat) (svc : Svc) : Prop :=
  map_Forall (λ name _, ownerA name = svc_key svc) (actions_of svc) ∧
  map_Forall (λ name _, ownerE name = svc_key svc) (events_of svc).

(** The recorded services of the node hold names of their own only. *)
Definition holds_assigned
  (ownerA ownerE : string → option string * option nat) (nodeID : string)
  (st : Registry) : Prop :=
  ∀ r s, r ∈ reg_services st → reg_heap st !! r = Some s →
    node_id (service_node s) = nodeID →
    map_Forall (λ name _, ownerA name = (service_name s, service_version s))
      (service_actions s) ∧
    map_Forall (λ name _, ownerE name = (service_name s, service_version s))
      (service_events s).

(** The descriptor declares no action or event under the name of a member
    of [Object.prototype]. *)
Definition declares_plain (svc : Svc) : Prop :=
  map_Forall (λ name _, name ∉ Object_prototype) (actions_of svc) ∧
  map_Forall (λ name _, name ∉ Object_prototype) (events_of svc).

(** ** A batch with and without one of its descriptors *)

(** The service object a descriptor leaves behind: the entries of its maps
    are added to the object's own maps, under their names. *)
Definition absorb (svc : Svc) (s : ServiceItem) : ServiceItem :=
  forEach (λ s entry, ServiceItem.addEvent entry.2 s)
    (map_to_list (events_of svc))
    (forEach (λ s entry, ServiceItem.addAction entry.2 s)
       (map_to_list (actions_of svc)) s).





(** "No orphaned catalog entries", for the endpoints of every node: an
    endpoint was registered by a recorded service of its node that holds the
    name on its own map. *)
Definition all_backed (st : Registry) : Prop :=
  ∀ nodeID,
    endpoints_backed reg_actions service_actions nodeID st ∧
    endpoints_backed reg_events service_events nodeID st.

(** The service object belongs to the node with id [nodeID] and has the key
    [key]: the service that is set aside. *)
Definition aside (nodeID : string) (key : option string * option nat)
  (s : ServiceItem) : Prop :=
  node_id (service_node s) = nodeID ∧
  (service_name s, service_version s) = key.

#[global] Instance aside_dec nodeID key s : Decision (aside nodeID key s).
Proof. unfold aside. apply _. Defined.

(** The reference names the service set aside. *)
Definition aside_ref (nodeID : string) (key : option string * option nat)
  (heap : list ServiceItem) (r : nat) : Prop :=
  match heap !! r with
  | Some s => aside nodeID key s
  | None => False
  end.

#[global] Instance aside_ref_dec nodeID key heap r :
  Decision (aside_ref nodeID key heap r).
Proof. unfold aside_ref. destruct (heap !! r); apply _. Defined.

(** The reference [r] of a store in which [k] more objects were created
    from position [n] on. *)
Definition shift (n k r : nat) : nat := if decide (r < n) then r else r + k.

(** An endpoint with its back-reference shifted. *)
Definition shift_endpoint {T} (n k : nat) (e : Endpoint T) : Endpoint T :=
  mkEndpoint (ep_nodeID e) (shift n k (ep_service e)) (ep_item e)
    (ep_available e).









(** ** The scenarios of the specification *)

Module Scenario.
Definition nodeA : Node := mkNode 1 "A".
Definition nodeB : Node := mkNode 2 "B".

Definition add : Action := mkAction "add" 0.
Definition sub : Action := mkAction "sub" 0.

(** The descriptor of service math@1 with the given actions and no
    events. *)
Definition math (actions : list Action) : Svc :=
  mkSvc (Some "math") (Some 1) ∅
    (Some (list_to_map ((λ a, (action_name a, a)) <$> actions)))
    (Some ∅).

Definition empty : Registry := new_Registry "local".

(** Scenario A: node A registers math@1 with [add], node B registers math@1
    with [add] and [sub]. *)
Definition A : Registry :=
  let st := after (registerServices empty nodeA [math [add]]) empty in
  after (registerServices st nodeB [math [add; sub]]) st.

(** The descriptor of math@1 with neither an actions nor an events map. *)
Definition bare : Svc := mkSvc (Some "math") (Some 1) ∅ None None.


(** A second node object that carries the id of node B. *)
Definition nodeB' : Node := mkNode 7 "B".

(** A remote node object that carries the id of the local node, and the
    registry in which it registered math@1 before the broker registered
    its own math@1. *)
Definition impostor : Node := mkNode 5 "local".
Definition twins : Registry :=
  registerLocalService
    (after (registerServices empty impostor [math [add]]) empty)
    (math [add]).

(** Two services of one node that both expose an action named [x], and the
    first of them without it. *)
Definition x : Action := mkAction "x" 0.
Definition alpha : Svc :=
  mkSvc (Some "alpha") (Some 1) ∅ (Some {["x" := x]}) (Some ∅).
Definition alpha' : Svc := mkSvc (Some "alpha") (Some 1) ∅ (Some ∅) (Some ∅).
Definition beta : Svc :=
  mkSvc (Some "beta") (Some 1) ∅ (Some {["x" := x]}) (Some ∅).
Definition shared : Registry :=
  after (registerServices empty nodeB [alpha; beta]) empty.

(** A node whose id is the empty string, and the registry in which it
    registered math@1. *)
Definition anonymous : Node := mkNode 9 EmptyString.
Definition unnamed : Registry :=
  after (registerServices empty anonymous [math [add]]) empty.

(** A broker whose only local service is math@1 with [add]. *)
Definition local : Registry := registerLocalService empty (math [add]).

(** Scenario B: on the registry of Scenario A, the next snapshot of node B
    holds math@1 with [add] only. *)
Definition B : Registry := after (registerServices A nodeB [math [add]]) A.

(** The descriptor of service calc@1 with the given actions and no
    events. *)
Definition calc (actions : list Action) : Svc :=
  mkSvc (Some "calc") (Some 1) ∅
    (Some (list_to_map ((λ a, (action_name a, a)) <$> actions)))
    (Some ∅).

(** An action under the name of a member of [Object.prototype]. *)
Definition toString : Action := mkAction "toString" 0.
End Scenario.

(** * Properties *)

(** ** Projections of the field updates *)

Lemma Registry_eq (a b : Registry) :
  reg_nodeID a = reg_nodeID b →
  reg_localNode a = reg_localNode b →
  reg_localServices a = reg_localServices b →
  reg_heap a = reg_heap b →
  reg_services a = reg_services b →
  reg_actions a = reg_actions b →
  reg_events a = reg_events b →
  reg_log a = reg_log b →
  a = b.
Proof. destruct a, b; simpl; intros; subst; reflexivity. Qed.

Lemma set_actions_id st : set_actions (reg_actions st) st = st.
Proof. by destruct st. Qed.

Lemma set_events_id st : set_events (reg_events st) st = st.
Proof. by destruct st. Qed.

Lemma set_services_id st : set_services (reg_services st) st = st.
Proof. by destruct st. Qed.

Lemma set_heap_id st : set_heap (reg_heap st) st = st.
Proof. by destruct st. Qed.

(** ** Endpoint lists *)

Section endpoint_lists.
Context {T : Type}.
Implicit Types (l : list (Endpoint T)) (e : Endpoint T).

Lemma filter_all (P : Endpoint T → Prop) `{!∀ e, Decision (P e)} l :
  (∀ e, e ∈ l → P e) → filter P l = l.
Proof.
  induction l as [|e l IH]; intros Hall; [done|].
  rewrite filter_cons_True; [|apply Hall; left].
  f_equal. apply IH. intros e' He'. apply Hall. by right.
Qed.

Lemma getEndpointByNodeID_None l nodeID :
  EndpointList.getEndpointByNodeID l nodeID = None ↔
  ∀ e, e ∈ l → ep_nodeID e ≠ nodeID.
Proof.
  unfold EndpointList.getEndpointByNodeID. rewrite head_None. split.
  - intros Hnil e He Heq.
    eapply (filter_nil_not_elem_of _ _ _ Hnil); [exact Heq | exact He].
  - intros Hall. induction l as [|e l IH]; [done|].
    rewrite filter_cons_False; [|intros Heq; by apply (Hall e); [left|]].
    apply IH. intros e' He'. apply Hall. by right.
Qed.

Lemma removeByNodeID_absent l nodeID :
  EndpointList.getEndpointByNodeID l nodeID = None →
  EndpointList.removeByNodeID l nodeID = l.
Proof.
  intros Habs. apply filter_all. by apply getEndpointByNodeID_None.
Qed.
End endpoint_lists.

Lemma Catalog_remove_absent {T} (cat : gmap string (list (Endpoint T)))
  name nodeID :
  cat !! name ≠ Some [] →
  endpointOf cat name nodeID = None →
  Catalog.remove cat name nodeID = cat.
Proof.
  intros Hne Habs. unfold Catalog.remove, endpointOf in *.
  destruct (cat !! name) as [l|] eqn:Hl; [|done]. simpl in Habs.
  rewrite (removeByNodeID_absent _ _ Habs).
  destruct l as [|e l]; [done|].
  by apply insert_id.
Qed.

(** ** Lookups (C4) *)

(** C4. [getActionEndpoints] and [getActionEndpointByNodeId] never raise: both
    complete normally on every registry, name and node id; for an unknown name
    both return the absent result, and [getActionEndpointByNodeId] also
    returns it when the name is known but the node has no endpoint under
    it. *)
Theorem lookups_never_raise (st : Registry) (actionName nodeID : string) :
  (∃ r, getActionEndpoints st actionName = Normal r ∧
        (Catalog.get (reg_actions st) actionName = None → r = None)) ∧
  (∃ e, getActionEndpointByNodeId st actionName nodeID = Normal e ∧
        (Catalog.get (reg_actions st) actionName = None → e = None) ∧
        (∀ l, Catalog.get (reg_actions st) actionName = Some l →
              (∀ x, x ∈ l → ep_nodeID x ≠ nodeID) → e = None)).
Proof.
  split.
  - eexists. split; [reflexivity|]. intros H. exact H.
  - unfold getActionEndpointByNodeId.
    destruct (Catalog.get (reg_actions st) actionName) as [l|] eqn:Hget.
    + simpl. eexists. split; [reflexivity|]. split; [done|].
      intros l' [= <-] Hno. by apply getEndpointByNodeID_None.
    + eexists. split; [reflexivity|]. split; [done|]. intros l' [=].
Qed.

(** The lookups on a registry that knows no action at all. *)
Lemma lookups_never_raise_witness :
  getActionEndpoints (new_Registry "local") "math.add" = Normal None ∧
  getActionEndpointByNodeId (new_Registry "local") "math.add" "node-2"
    = Normal None.
Proof.
  destruct (lookups_never_raise (new_Registry "local") "math.add" "node-2")
    as [(r & Hr & Hr0) [e [He [He0 _]]]].
  rewrite Hr, He, Hr0, He0; [done | reflexivity | reflexivity].
Defined.

(** ** Walks that keep a property *)

Lemma forEach_preserves {A S} (P : S → Prop) (cb : S → A → S) l s :
  (∀ s a, a ∈ l → P s → P (cb s a)) → P s → P (forEach cb l s).
Proof.
  unfold forEach. revert s. induction l as [|a l IH]; intros s Hcb Hs; [done|].
  simpl. apply IH.
  - intros s' a' Ha'. apply Hcb. by right.
  - apply Hcb; [left | done].
Qed.

Lemma forEach_id {A S} (cb : S → A → S) l s :
  (∀ a, a ∈ l → cb s a = s) → forEach cb l s = s.
Proof.
  intros Hcb. unfold forEach. induction l as [|a l IH]; [done|].
  simpl. rewrite Hcb by left. apply IH. intros a' Ha'. apply Hcb. by right.
Qed.

Lemma forEach_establishes {A S} (Inv Q : S → Prop) (cb : S → A → S) l s x :
  x ∈ l →
  (∀ s a, Inv s → Inv (cb s a)) →
  (∀ s a, Inv s → Q s → Q (cb s a)) →
  (∀ s, Inv s → Q (cb s x)) →
  Inv s → Q (forEach cb l s).
Proof.
  intros Hx Hinv Hkeep Hset. unfold forEach. revert s.
  induction l as [|a l IH]; intros s Hs; [by apply elem_of_nil in Hx|].
  simpl. apply elem_of_cons in Hx as [<-|Hx].
  - assert (Hboth : Inv (fold_left cb l (cb s x)) ∧ Q (fold_left cb l (cb s x)));
      [|by destruct Hboth].
    apply (forEach_preserves (λ s, Inv s ∧ Q s)).
    + intros s' a _ [? ?]. split; [by apply Hinv | by apply Hkeep].
    + split; [by apply Hinv | by apply Hset].
  - apply IH; [done|]. by apply Hinv.
Qed.

(** ** Explicit removals (C10, C5) *)

Lemma js_or_falsy nodeID b : falsy nodeID → js_or nodeID b = b.
Proof. by intros [-> | ->]. Qed.

Lemma get_Some_matches st name version nodeID r :
  ServiceCatalog.get st name version nodeID = Some r →
  r ∈ reg_services st ∧ ServiceCatalog.matches st name version nodeID r.
Proof.
  unfold ServiceCatalog.get. intros H%head_Some_elem_of.
  apply list_elem_of_filter in H. tauto.
Qed.

Lemma get_None_matches st name version nodeID :
  ServiceCatalog.get st name version nodeID = None ↔
  ∀ r, r ∈ reg_services st → ¬ ServiceCatalog.matches st name version nodeID r.
Proof.
  unfold ServiceCatalog.get. rewrite head_None. split.
  - intros Hnil r Hr Hm.
    by eapply (filter_nil_not_elem_of _ _ _ Hnil); [exact Hm|].
  - intros Hall. induction (reg_services st) as [|r l IH]; [done|].
    rewrite filter_cons_False; [|apply Hall; left].
    apply IH. intros r' Hr'. apply Hall. by right.
Qed.

(** C10. With the [nodeID] argument omitted (or falsy), [unregisterService]
    removes under the broker's own node id: the call is the catalogue's
    removal at [this.broker.nodeID], the service recorded under (name,
    version, broker's id) is owned by a node with that id and is gone from the
    catalogue afterwards; the broker's id is the local node's id whenever the
    two agree. *)
Theorem unregisterService_defaults_to_broker_nodeID (st : Registry)
  (name : option string) (version : option nat) (nodeID : option string) :
  falsy nodeID →
  unregisterService st name version nodeID
    = ServiceCatalog.remove st name version (reg_nodeID st) ∧
  (∀ r, ServiceCatalog.get st name version (reg_nodeID st) = Some r →
        ServiceCatalog.ownedByID st (reg_nodeID st) r ∧
        unregisterService st name version nodeID
          = ServiceCatalog.removeService st r ∧
        r ∉ reg_services (unregisterService st name version nodeID)) ∧
  (node_id (reg_localNode st) = reg_nodeID st →
   unregisterService st name version nodeID
     = ServiceCatalog.remove st name version (node_id (reg_localNode st))).
Proof.
  intros Hf. unfold unregisterService. rewrite (js_or_falsy _ _ Hf).
  split; [done|]. split.
  - intros r Hget. unfold ServiceCatalog.remove. rewrite Hget.
    apply get_Some_matches in Hget as [_ Hm]. split; [|split; [done|]].
    + unfold ServiceCatalog.matches, ServiceCatalog.ownedByID in *.
      destruct (reg_heap st !! r); [|done]. by destruct Hm as (_ & _ & ?).
    + simpl. rewrite list_elem_of_filter. tauto.
  - by intros ->.
Qed.

Lemma unregisterService_defaults_to_broker_nodeID_witness :
  0 ∉ reg_services (unregisterService Scenario.local (Some "math") (Some 1) None).
Proof.
  destruct (unregisterService_defaults_to_broker_nodeID Scenario.local
              (Some "math") (Some 1) None) as (_ & H & _); [by left|].
  apply (H 0). reflexivity.
Defined.

(** C5. Each explicit removal whose target does not exist leaves the registry
    as it is (and, being a plain function of the registry, raises nothing):
    [unregisterService] when no service is recorded under the key,
    [unregisterServicesByNode] when the node owns no recorded service,
    [unregisterAction] and [unregisterEvent] when the node has no endpoint
    under the name - the name being unknown, or known with endpoints of other
    nodes only (a list without any endpoint is never held, spec, data model,
    row EndpointList). *)
Theorem unregister_absent_is_noop (st : Registry) :
  (∀ name version nodeID,
     ServiceCatalog.get st name version (js_or nodeID (reg_nodeID st)) = None →
     unregisterService st name version nodeID = st) ∧
  (∀ nodeID,
     (∀ r, r ∈ reg_services st → ¬ ServiceCatalog.ownedByID st nodeID r) →
     unregisterServicesByNode st nodeID = st) ∧
  (∀ node name,
     Catalog.get (reg_actions st) name ≠ Some [] →
     endpointOf (reg_actions st) name (node_id node) = None →
     unregisterAction st node name = st) ∧
  (∀ node name,
     Catalog.get (reg_events st) name ≠ Some [] →
     endpointOf (reg_events st) name (node_id node) = None →
     unregisterEvent st node name = st).
Proof.
  repeat split.
  - intros name version nodeID Hget.
    unfold unregisterService, ServiceCatalog.remove. by rewrite Hget.
  - intros nodeID Hnone.
    unfold unregisterServicesByNode, ServiceCatalog.removeAllByNodeID.
    apply forEach_id. intros r Hr. by rewrite decide_False by by apply Hnone.
  - intros node name Hne Habs. unfold unregisterAction.
    rewrite Catalog_remove_absent by done. apply set_actions_id.
  - intros node name Hne Habs. unfold unregisterEvent.
    rewrite Catalog_remove_absent by done. apply set_events_id.
Qed.

(** In the registry of Scenario A: no math@2 on B, no node C, no endpoint of
    A under [sub], no event at all. *)
Lemma unregister_absent_is_noop_witness :
  unregisterService Scenario.A (Some "math") (Some 2) (Some "B") = Scenario.A ∧
  unregisterServicesByNode Scenario.A "C" = Scenario.A ∧
  unregisterAction Scenario.A Scenario.nodeA "sub" = Scenario.A ∧
  unregisterEvent Scenario.A Scenario.nodeA "sub" = Scenario.A.
Proof.
  destruct (unregister_absent_is_noop Scenario.A) as (Hs & Hn & Ha & He).
  split; [apply Hs; reflexivity|].
  split; [apply Hn; intros r Hr; vm_compute in Hr; unfold ServiceCatalog.ownedByID;
          apply list_elem_of_In in Hr; destruct Hr as [<-|[<-|[]]]; by vm_compute|].
  split; [apply Ha; [by vm_compute | reflexivity]
         | apply He; [by vm_compute | reflexivity]].
Defined.

(** ** What registering actions and events leaves alone *)

Lemma fmap_alter_same {A B} (g : A → B) (f : A → A) (i : nat) (l : list A) :
  (∀ x, g (f x) = g x) → g <$> alter f i l = g <$> l.
Proof.
  intros Hg. revert i. induction l as [|x l IH]; intros [|i]; simpl; [done..| |].
  - by rewrite Hg.
  - f_equal. apply IH.
Qed.

Lemma registerActions_frame st node service actions :
  actions_frame st (registerActions st node service actions).
Proof.
  unfold registerActions.
  apply (forEach_preserves (actions_frame st)); [|by repeat split].
  intros s [k a] _ (? & ? & ? & Hk & He & ? & ? & ?).
  repeat split; simpl; try done; by rewrite fmap_alter_same.
Qed.

Lemma registerEvents_frame st node service events :
  events_frame st (registerEvents st node service events).
Proof.
  unfold registerEvents.
  apply (forEach_preserves (events_frame st)); [|by repeat split].
  intros s [k a] _ (? & ? & ? & Hk & He & ? & ? & ?).
  repeat split; simpl; try done; by rewrite fmap_alter_same.
Qed.

(** ** Local registration (C7) *)

Lemma registerLocalService_effect (st : Registry) (svc : Svc) :
  let st' := registerLocalService st svc in
  reg_localNode st' = reg_localNode st ∧
  reg_services st' = reg_services st ++ [length (reg_heap st)] ∧
  reg_localServices st' = reg_localServices st ++ [length (reg_heap st)] ∧
  service_key <$> reg_heap st'
    = (service_key <$> reg_heap st)
        ++ [(reg_localNode st, svc_name svc, svc_version svc)].
Proof.
  unfold registerLocalService, ServiceCatalog.add. simpl.
  set (st0 := set_services _ _).
  set (st1 := match svc_actions svc with Some _ => _ | None => _ end).
  set (st2 := match svc_events svc with Some _ => _ | None => _ end).
  assert (H1 : actions_frame st0 st1).
  { subst st1. destruct (svc_actions svc).
    - apply registerActions_frame.
    - by repeat split. }
  assert (H2 : events_frame st1 st2).
  { subst st2. destruct (svc_events svc).
    - apply registerEvents_frame.
    - by repeat split. }
  destruct H1 as (_ & Hl1 & Hls1 & Hk1 & _ & Hs1 & _).
  destruct H2 as (_ & Hl2 & Hls2 & Hk2 & _ & Hs2 & _).
  simpl. rewrite Hl2, Hl1, Hs2, Hs1, Hls2, Hls1, Hk2, Hk1. subst st0. simpl.
  by rewrite fmap_app.
Qed.

(** C7. [registerLocalService] is not idempotent: on every registry and for
    every descriptor, two calls with the same descriptor append two distinct
    service objects to the service catalogue and to the local node's owned
    list, both carrying the descriptor's name and version and owned by the
    local node; the registry after the second call differs from the registry
    after the first. *)
Theorem registerLocalService_not_idempotent (st : Registry) (svc : Svc) :
  let st1 := registerLocalService st svc in
  let st2 := registerLocalService st1 svc in
  ∃ r1 r2 : nat,
    r1 ≠ r2 ∧
    reg_services st1 = reg_services st ++ [r1] ∧
    reg_services st2 = reg_services st ++ [r1; r2] ∧
    reg_localServices st2 = reg_localServices st ++ [r1; r2] ∧
    service_key <$> reg_heap st2 !! r1
      = Some (reg_localNode st, svc_name svc, svc_version svc) ∧
    service_key <$> reg_heap st2 !! r2
      = Some (reg_localNode st, svc_name svc, svc_version svc) ∧
    st2 ≠ st1.
Proof.
  intros st1 st2.
  destruct (registerLocalService_effect st svc) as (Hn1 & Hs1 & Hl1 & Hk1).
  destruct (registerLocalService_effect st1 svc) as (Hn2 & Hs2 & Hl2 & Hk2).
  fold st1 in Hn1, Hs1, Hl1, Hk1. fold st1 st2 in Hn2, Hs2, Hl2, Hk2.
  clearbody st1 st2.
  assert (Hlen : length (reg_heap st1) = S (length (reg_heap st))).
  { rewrite <- (length_fmap service_key (reg_heap st1)), Hk1.
    rewrite length_app, length_fmap. simpl. lia. }
  exists (length (reg_heap st)), (length (reg_heap st1)).
  split; [lia|]. split; [done|].
  split; [by rewrite Hs2, Hs1, <- app_assoc|].
  split; [by rewrite Hl2, Hl1, <- app_assoc|].
  rewrite <- !list_lookup_fmap, Hk2, Hk1, Hn1.
  split; [|split].
  - rewrite lookup_app_l by (rewrite length_app, length_fmap; simpl; lia).
    by rewrite lookup_app_r, length_fmap, Nat.sub_diag by (rewrite length_fmap; lia).
  - rewrite lookup_app_r by (rewrite length_app, !length_fmap; simpl; lia).
    rewrite length_app, length_fmap. simpl.
    by replace (_ - _) with 0 by lia.
  - intros Heq. apply (f_equal (λ s, length (reg_services s))) in Heq.
    rewrite Hs2, length_app in Heq. simpl in Heq. lia.
Qed.

(** ** Descriptors without an actions or events map (C2) *)

Lemma forEachM_nil {A S} (cb : S → A → Completion S) s :
  forEachM cb [] s = Normal s.
Proof. done. Qed.

(** Line 102: with a recorded service that holds at least one action, a
    descriptor without an actions map makes [svc.actions[name]] throw. *)
Lemma reconcile_missing_actions_throws st node svc service s :
  ServiceCatalog.get st (svc_name svc) (svc_version svc) (node_id node)
    = Some service →
  reg_heap st !! service = Some s →
  service_actions s ≠ ∅ →
  svc_actions svc = None →
  reconcile node st svc = Throw TypeError.
Proof.
  intros Hget Hs Hne Hnone. unfold reconcile, findOrCreate.
  rewrite Hget, Hs, Hnone. simpl.
  destruct (map_to_list (service_actions s)) as [|[name a] l] eqn:Hl.
  - by apply map_to_list_empty_iff in Hl.
  - simpl. unfold dropOldAction. by rewrite Hnone.
Qed.

(** Lines 87-88: for a service not recorded yet the missing maps are skipped,
    the descriptor is reconciled as with empty maps. *)
Lemma reconcile_new_missing_maps st node svc :
  ServiceCatalog.get st (svc_name svc) (svc_version svc) (node_id node) = None →
  svc_actions svc = None →
  svc_events svc = None →
  reconcile node st svc
    = reconcile node st
        (mkSvc (svc_name svc) (svc_version svc) (svc_settings svc)
           (Some ∅) (Some ∅)).
Proof.
  intros Hget Ha He. unfold reconcile, findOrCreate. simpl.
  rewrite Hget, Ha, He. simpl.
  unfold registerActions, registerEvents. by rewrite !map_to_list_empty.
Qed.

(** C2. In the registry of Scenario A, node B's service math@1 holds [add]
    and [sub]; a snapshot from B whose math@1 descriptor has no actions map is
    not processed as an empty map: the call throws a [TypeError]. *)
Theorem missing_actions_map_throws :
  registerServices Scenario.A Scenario.nodeB [Scenario.bare] = Throw TypeError.
Proof. reflexivity. Qed.

(** The same descriptor with empty maps is reconciled: B loses both
    endpoints. *)
Lemma empty_actions_map_reconciles :
  ∃ st, registerServices Scenario.A Scenario.nodeB
          [mkSvc (Some "math") (Some 1) ∅ (Some ∅) (Some ∅)] = Normal st ∧
        endpointOf (reg_actions st) "add" "B" = None ∧
        endpointOf (reg_actions st) "sub" "B" = None.
Proof. eexists. split; [reflexivity|]. split; reflexivity. Qed.

(** ** Upserts (C6) *)

(** A walk whose steps overwrite one another on equal keys and commute on
    different keys can be repeated without effect. *)
Section absorbing_walk.
Context {A S K : Type} `{!EqDecision K} (cb : S → A → S) (key : A → K).
Hypothesis absorb : ∀ s a b, key a = key b → cb (cb s a) b = cb s b.
Hypothesis commute : ∀ s a b, key a ≠ key b → cb (cb s a) b = cb (cb s b) a.

Lemma forEach_step_again l a s :
  cb (forEach cb l (cb s a)) a = cb (forEach cb l s) a.
Proof.
  unfold forEach. revert s. induction l as [|b l IH]; intros s; simpl.
  - by apply absorb.
  - destruct (decide (key a = key b)) as [Heq|Hne].
    + by rewrite absorb.
    + by rewrite commute, IH.
Qed.

Lemma forEach_twice l s : forEach cb l (forEach cb l s) = forEach cb l s.
Proof.
  revert s. induction l as [|a l IH] using rev_ind; intros s; [done|].
  pose proof (forEach_step_again l a (forEach cb l s)) as Hagain.
  unfold forEach in *. rewrite !fold_left_app. simpl.
  by rewrite Hagain, IH.
Qed.
End absorbing_walk.

Section upsert.
Context {T : Type} (nameOf : T → string).
Implicit Types (l : list (Endpoint T)) (cat : gmap string (list (Endpoint T))).

Lemma EndpointList_add_add nodeID r1 x1 r2 x2 l :
  EndpointList.add nodeID r2 x2 (EndpointList.add nodeID r1 x1 l)
    = EndpointList.add nodeID r2 x2 l.
Proof.
  induction l as [|e l IH]; simpl.
  - by rewrite decide_True.
  - destruct (decide (ep_nodeID e = nodeID)) as [Heq|Hne]; simpl.
    + by rewrite decide_True.
    + by rewrite decide_False, IH.
Qed.

Lemma EndpointList_add_nodeIDs nodeID r x l :
  ep_nodeID <$> EndpointList.add nodeID r x l
    = if decide (nodeID ∈ ep_nodeID <$> l) then ep_nodeID <$> l
      else (ep_nodeID <$> l) ++ [nodeID].
Proof.
  induction l as [|e l IH].
  - case_decide as Hin; [by apply elem_of_nil in Hin | done].
  - cbn [EndpointList.add].
    destruct (decide (ep_nodeID e = nodeID)) as [Heq|Hne]; rewrite !fmap_cons.
    + cbn [ep_nodeID]. rewrite decide_True; [by rewrite Heq | rewrite Heq; left].
    + rewrite IH. destruct (decide (nodeID ∈ ep_nodeID <$> l)) as [Hin|Hnin].
      * rewrite decide_True; [done | by right].
      * rewrite decide_False; [done|].
        intros [?|?]%elem_of_cons; congruence.
Qed.

Lemma EndpointList_add_NoDup nodeID r x l :
  NoDup (ep_nodeID <$> l) →
  NoDup (ep_nodeID <$> EndpointList.add nodeID r x l).
Proof.
  intros Hnd. rewrite EndpointList_add_nodeIDs. case_decide; [done|].
  apply NoDup_app. split; [done|]. split; [|apply NoDup_singleton].
  intros y Hy ->%list_elem_of_singleton. done.
Qed.

Lemma EndpointList_add_not_nil nodeID r x l :
  EndpointList.add nodeID r x l ≠ [].
Proof. destruct l; simpl; [done|]. by case_decide. Qed.

Lemma endpointsFor_nil nodeID l :
  nodeID ∉ ep_nodeID <$> l → endpointsFor l nodeID = [].
Proof.
  unfold endpointsFor. induction l as [|e l IH]; intros Hnin; [done|].
  rewrite fmap_cons in Hnin. apply not_elem_of_cons in Hnin as [Hne Hnin].
  rewrite filter_cons_False by done. by apply IH.
Qed.

(** After an upsert the list holds exactly one endpoint for the node: the
    new one. *)
Lemma endpointsFor_add nodeID r x l :
  NoDup (ep_nodeID <$> l) →
  ∃ available,
    endpointsFor (EndpointList.add nodeID r x l) nodeID
      = [mkEndpoint nodeID r x available].
Proof.
  unfold endpointsFor. induction l as [|e l IH]; simpl; intros Hnd.
  - exists true. by rewrite filter_cons_True, filter_nil.
  - apply NoDup_cons in Hnd as [Hnin Hnd].
    destruct (decide (ep_nodeID e = nodeID)) as [Heq|Hne].
    + exists (ep_available e). rewrite filter_cons_True by done. f_equal.
      apply endpointsFor_nil. by rewrite <- Heq.
    + rewrite filter_cons_False by done. by apply IH.
Qed.

Lemma endpointsFor_add_ne nodeID nodeID' r x l :
  nodeID ≠ nodeID' →
  endpointsFor (EndpointList.add nodeID r x l) nodeID' = endpointsFor l nodeID'.
Proof.
  intros Hne. unfold endpointsFor. induction l as [|e l IH]; simpl.
  - by rewrite filter_cons_False.
  - destruct (decide (ep_nodeID e = nodeID)) as [Heq|Hne'].
    + rewrite !filter_cons_False; [done| |]; simpl; congruence.
    + by rewrite !filter_cons, IH.
Qed.

Lemma Catalog_add_lookup cat node r x name :
  Catalog.add nameOf cat node r x !! name
    = if decide (nameOf x = name)
      then Some (EndpointList.add (node_id node) r x
                   (default [] (cat !! nameOf x)))
      else cat !! name.
Proof.
  unfold Catalog.add. case_decide as Hn.
  - subst name. apply lookup_insert_eq.
  - by apply lookup_insert_ne.
Qed.

Lemma Catalog_add_add cat node r1 x1 r2 x2 :
  nameOf x1 = nameOf x2 →
  Catalog.add nameOf (Catalog.add nameOf cat node r1 x1) node r2 x2
    = Catalog.add nameOf cat node r2 x2.
Proof.
  intros Heq. unfold Catalog.add. rewrite Heq.
  rewrite lookup_insert_eq, insert_insert_eq. simpl.
  by rewrite EndpointList_add_add.
Qed.

Lemma Catalog_add_commute cat node r1 x1 r2 x2 :
  nameOf x1 ≠ nameOf x2 →
  Catalog.add nameOf (Catalog.add nameOf cat node r1 x1) node r2 x2
    = Catalog.add nameOf (Catalog.add nameOf cat node r2 x2) node r1 x1.
Proof.
  intros Hne. unfold Catalog.add.
  rewrite !lookup_insert_ne by done. by apply insert_insert_ne.
Qed.

Lemma Catalog_add_one_per_node cat node r x :
  one_per_node cat → one_per_node (Catalog.add nameOf cat node r x).
Proof.
  intros Hone name l. rewrite Catalog_add_lookup. case_decide.
  - intros [= <-]. apply EndpointList_add_NoDup.
    destruct (cat !! nameOf x) as [l'|] eqn:Hl'; simpl.
    + by apply (Hone (nameOf x)).
    + apply NoDup_nil_2.
  - apply Hone.
Qed.

Lemma Catalog_add_no_empty_lists cat node r x :
  no_empty_lists cat → no_empty_lists (Catalog.add nameOf cat node r x).
Proof.
  intros Hne name l. rewrite Catalog_add_lookup. case_decide.
  - intros [= <-]. apply EndpointList_add_not_nil.
  - apply Hne.
Qed.
End upsert.

Lemma addAction_addAction a b s :
  action_name a = action_name b →
  ServiceItem.addAction b (ServiceItem.addAction a s) = ServiceItem.addAction b s.
Proof.
  intros Heq. unfold ServiceItem.addAction. simpl.
  by rewrite Heq, insert_insert_eq.
Qed.

Lemma addAction_commute a b s :
  action_name a ≠ action_name b →
  ServiceItem.addAction b (ServiceItem.addAction a s)
    = ServiceItem.addAction a (ServiceItem.addAction b s).
Proof.
  intros Hne. unfold ServiceItem.addAction. simpl.
  by rewrite insert_insert_ne.
Qed.

Lemma registerAction_absorb node service st a b :
  action_name a.2 = action_name b.2 →
  registerAction node service (registerAction node service st a) b
    = registerAction node service st b.
Proof.
  intros Heq. unfold registerAction. apply Registry_eq; simpl; try done.
  - rewrite list_alter_alter_eq. apply list_alter_ext; [|done].
    intros s _. by apply addAction_addAction.
  - by apply Catalog_add_add.
Qed.

Lemma registerAction_commute node service st a b :
  action_name a.2 ≠ action_name b.2 →
  registerAction node service (registerAction node service st a) b
    = registerAction node service (registerAction node service st b) a.
Proof.
  intros Hne. unfold registerAction. apply Registry_eq; simpl; try done.
  - rewrite !list_alter_alter_eq. apply list_alter_ext; [|done].
    intros s _. by apply addAction_commute.
  - by apply Catalog_add_commute.
Qed.

(** After the walk every action of the list has exactly one endpoint for the
    node, one that serves an action of that name for [service]. *)
Lemma registerActions_walk_serves node service
  (l : list (string * Action)) (st : Registry) :
  one_per_node (reg_actions st) →
  let st' := forEach (registerAction node service) l st in
  one_per_node (reg_actions st') ∧
  ∀ entry, entry ∈ l →
    ∃ lst e, Catalog.get (reg_actions st') (action_name entry.2) = Some lst ∧
             endpointsFor lst (node_id node) = [e] ∧
             ep_service e = service ∧
             action_name (ep_item e) = action_name entry.2.
Proof.
  intros Hone. induction l as [|b l IH] using rev_ind; simpl.
  - split; [done|]. by intros entry ?%elem_of_nil.
  - unfold forEach in *. rewrite fold_left_app. simpl in *.
    destruct IH as [Hone' IH].
    set (st1 := fold_left (registerAction node service) l st) in *.
    split.
    + unfold registerAction. simpl. by apply Catalog_add_one_per_node.
    + intros entry Hin. unfold registerAction, Catalog.get. simpl.
      rewrite Catalog_add_lookup.
      destruct (decide (action_name b.2 = action_name entry.2)) as [Heq|Hne].
      * destruct (endpointsFor_add (node_id node) service b.2
                    (default [] (reg_actions st1 !! action_name b.2)))
          as [av Hav].
        { destruct (reg_actions st1 !! action_name b.2) eqn:Hl; simpl.
          - by apply (Hone' _ _ Hl).
          - apply NoDup_nil_2. }
        eexists _, _. split; [done|]. by rewrite Hav.
      * apply elem_of_app in Hin as [Hin|Hin%list_elem_of_singleton].
        -- by apply IH.
        -- by subst entry.
Qed.

(** C6. Calling [registerActions] twice with the same node, service and
    actions map leaves the registry the first call produced; and when the
    registry held at most one endpoint per node in each EndpointList, the
    EndpointList of every registered action holds exactly one endpoint for the
    node afterwards, bound to that service. *)
Theorem registerActions_twice (st : Registry) (node : Node) (service : nat)
  (actions : gmap string Action) :
  let once := registerActions st node service actions in
  let twice := registerActions once node service actions in
  twice = once ∧
  (one_per_node (reg_actions st) →
   ∀ key action, actions !! key = Some action →
     ∃ lst e, Catalog.get (reg_actions twice) (action_name action) = Some lst ∧
              endpointsFor lst (node_id node) = [e] ∧
              ep_service e = service ∧
              action_name (ep_item e) = action_name action).
Proof.
  intros once twice.
  assert (Heq : twice = once).
  { subst once twice. unfold registerActions.
    apply (forEach_twice _ (λ entry : string * Action, action_name entry.2)).
    - intros. by apply registerAction_absorb.
    - intros. by apply registerAction_commute. }
  split; [done|]. rewrite Heq. intros Hone key action Hkey.
  destruct (registerActions_walk_serves node service (map_to_list actions) st Hone)
    as [_ Hserves].
  apply (Hserves (key, action)). by apply elem_of_map_to_list.
Qed.

Lemma registerActions_twice_witness :
  ∃ lst e,
    Catalog.get
      (reg_actions
         (registerActions
            (registerActions Scenario.A Scenario.nodeB 1 {["add" := Scenario.add]})
            Scenario.nodeB 1 {["add" := Scenario.add]})) "add" = Some lst ∧
    endpointsFor lst "B" = [e] ∧ ep_service e = 1 ∧
    action_name (ep_item e) = "add".
Proof.
  destruct (registerActions_twice Scenario.A Scenario.nodeB 1
              {["add" := Scenario.add]}) as [_ Hone].
  assert (Hinv : one_per_node (reg_actions Scenario.A))
    by (apply (bool_decide_unpack _); by vm_compute).
  exact (Hone Hinv "add" Scenario.add ltac:(reflexivity)).
Defined.

(** ** Walks with a callback that may throw *)

Lemma forEachM_preserves {A S} (P : S → Prop) (cb : S → A → Completion S) l s s' :
  (∀ s a s', a ∈ l → cb s a = Normal s' → P s → P s') →
  forEachM cb l s = Normal s' → P s → P s'.
Proof.
  revert s. induction l as [|a l IH]; intros s Hcb; simpl.
  - by intros [= <-].
  - destruct (cb s a) as [s1|e] eqn:Hs1; simpl; [|done].
    intros Hrest Hs. apply (IH s1); [|done|].
    + intros s2 a' s3 Ha'. apply Hcb. by right.
    + apply (Hcb s a s1); [left|done..].
Qed.

Lemma forEachM_total {A S} (cb : S → A → Completion S) l s :
  (∀ s a, a ∈ l → ∃ s', cb s a = Normal s') →
  ∃ s', forEachM cb l s = Normal s'.
Proof.
  revert s. induction l as [|a l IH]; intros s Hcb; simpl; [by eexists|].
  destruct (Hcb s a) as [s1 ->]; [left|]. simpl.
  apply IH. intros s2 a' Ha'. apply Hcb. by right.
Qed.


(** ** The service catalogue through a reconciliation *)

Lemma matches_key st name version nodeID r :
  ServiceCatalog.matches st name version nodeID r ↔
  ∃ nd, (service_key <$> reg_heap st) !! r = Some (nd, name, version) ∧
        node_id nd = nodeID.
Proof.
  unfold ServiceCatalog.matches, ServiceItem.equals.
  rewrite list_lookup_fmap. destruct (reg_heap st !! r) as [s|]; simpl.
  - unfold service_key. split.
    + intros (<- & <- & <-). by eexists.
    + intros (nd & [= <- <- <-] & <-). done.
  - split; [done | by intros (? & ? & ?)].
Qed.

Lemma recorded_iff st name version nodeID :
  recorded st name version nodeID ↔
  ∃ r, r ∈ reg_services st ∧ ServiceCatalog.matches st name version nodeID r.
Proof.
  unfold recorded. split.
  - intros [r Hr]. exists r. by apply get_Some_matches.
  - intros (r & Hr & Hm).
    destruct (ServiceCatalog.get st name version nodeID) eqn:Hget; [done|].
    rewrite get_None_matches in Hget. by destruct (Hget r).
Qed.

Lemma same_services_refl st : same_services st st.
Proof. done. Qed.

Lemma same_services_trans st1 st2 st3 :
  same_services st1 st2 → same_services st2 st3 → same_services st1 st3.
Proof. intros [? ?] [? ?]. split; congruence. Qed.

Lemma broker_frame_refl st : broker_frame st st.
Proof. done. Qed.

Lemma broker_frame_trans st1 st2 st3 :
  broker_frame st1 st2 → broker_frame st2 st3 → broker_frame st1 st3.
Proof. intros (? & ? & ? & ?) (? & ? & ? & ?). repeat split; congruence. Qed.

Lemma registerActions_same_services st node service actions :
  same_services st (registerActions st node service actions) ∧
  broker_frame st (registerActions st node service actions).
Proof.
  destruct (registerActions_frame st node service actions)
    as (? & ? & ? & ? & ? & ? & ? & ?).
  by repeat split.
Qed.

Lemma registerEvents_same_services st node service events :
  same_services st (registerEvents st node service events) ∧
  broker_frame st (registerEvents st node service events).
Proof.
  destruct (registerEvents_frame st node service events)
    as (? & ? & ? & ? & ? & ? & ? & ?).
  by repeat split.
Qed.

(** The test of lines 102 and 114 in one piece: a missing map throws, a
    name that indexing finds is left alone, any other is unregistered. *)
Lemma dropOldAction_eq node svc st entry :
  dropOldAction node svc st entry =
    match svc_actions svc with
    | Some m =>
        Normal (if decide (indexed m entry.1) then st
                else unregisterAction st node entry.1)
    | None => Throw TypeError
    end.
Proof.
  unfold dropOldAction, js_index, call_method.
  destruct (svc_actions svc) as [m|]; simpl; [|done].
  destruct (decide (indexed m entry.1)) as [[[x Hx]|Hin]|Hno].
  - by rewrite Hx.
  - destruct (m !! entry.1); [done|]. by rewrite decide_True.
  - destruct (m !! entry.1) as [x|] eqn:Hx.
    + destruct Hno. left. by exists x.
    + rewrite decide_False; [done|]. intros Hin. destruct Hno. by right.
Qed.

Lemma dropOldEvent_eq node svc st entry :
  dropOldEvent node svc st entry =
    match svc_events svc with
    | Some m =>
        Normal (if decide (indexed m entry.1) then st
                else unregisterEvent st node entry.1)
    | None => Throw TypeError
    end.
Proof.
  unfold dropOldEvent, js_index, call_method.
  destruct (svc_events svc) as [m|]; simpl; [|done].
  destruct (decide (indexed m entry.1)) as [[[x Hx]|Hin]|Hno].
  - by rewrite Hx.
  - destruct (m !! entry.1); [done|]. by rewrite decide_True.
  - destruct (m !! entry.1) as [x|] eqn:Hx.
    + destruct Hno. left. by exists x.
    + rewrite decide_False; [done|]. intros Hin. destruct Hno. by right.
Qed.

Lemma dropOldAction_same_services node svc st entry st' :
  dropOldAction node svc st entry = Normal st' →
  same_services st st' ∧ broker_frame st st' ∧
  reg_heap st' = reg_heap st ∧ reg_events st' = reg_events st.
Proof.
  rewrite dropOldAction_eq.
  destruct (svc_actions svc) as [m|]; [|done].
  destruct (decide (indexed m entry.1)); intros [= <-]; by repeat split.
Qed.

Lemma dropOldEvent_same_services node svc st entry st' :
  dropOldEvent node svc st entry = Normal st' →
  same_services st st' ∧ broker_frame st st' ∧
  reg_heap st' = reg_heap st ∧ reg_actions st' = reg_actions st.
Proof.
  rewrite dropOldEvent_eq.
  destruct (svc_events svc) as [m|]; [|done].
  destruct (decide (indexed m entry.1)); intros [= <-]; by repeat split.
Qed.

(** The service-level effect of lines 85-93. *)
Lemma findOrCreate_services node st svc :
  let '(st', service, _, _) := findOrCreate node st svc in
  broker_frame st st' ∧
  reg_actions st' = reg_actions st ∧ reg_events st' = reg_events st ∧
  match ServiceCatalog.get st (svc_name svc) (svc_version svc) (node_id node) with
  | Some r => service = r ∧ same_services st st'
  | None =>
      service = length (reg_heap st) ∧
      service_key <$> reg_heap st'
        = (service_key <$> reg_heap st) ++ [(node, svc_name svc, svc_version svc)] ∧
      reg_services st' = reg_services st ++ [length (reg_heap st)]
  end.
Proof.
  unfold findOrCreate.
  destruct (ServiceCatalog.get st _ _ _) as [r|]; simpl.
  - repeat split; try done. by apply fmap_alter_same.
  - repeat split; try done. by rewrite fmap_app.
Qed.

(** The service-level effect of a reconciliation that completes. *)
Lemma reconcile_services node st svc st' :
  reconcile node st svc = Normal st' →
  broker_frame st st' ∧
  match ServiceCatalog.get st (svc_name svc) (svc_version svc) (node_id node) with
  | Some r => same_services st st'
  | None =>
      service_key <$> reg_heap st'
        = (service_key <$> reg_heap st) ++ [(node, svc_name svc, svc_version svc)] ∧
      reg_services st' = reg_services st ++ [length (reg_heap st)]
  end.
Proof.
  unfold reconcile. pose proof (findOrCreate_services node st svc) as Hfind.
  destruct (findOrCreate node st svc) as [[[st1 service] prevActions] prevEvents].
  destruct Hfind as (Hb1 & _ & _ & Hfind).
  set (st2 := match svc_actions svc with Some _ => _ | None => _ end).
  assert (H2 : same_services st1 st2 ∧ broker_frame st1 st2).
  { subst st2. destruct (svc_actions svc); [|done].
    apply registerActions_same_services. }
  destruct (match prevActions with Some _ => _ | None => _ end)
    as [st3|] eqn:H3; simpl; [|done].
  assert (H3' : same_services st2 st3 ∧ broker_frame st2 st3).
  { destruct prevActions as [prev|]; [|by injection H3 as <-].
    eapply (forEachM_preserves (λ s, same_services st2 s ∧ broker_frame st2 s));
      [|exact H3|done].
    intros s a s' _ (Hs & Hb & _)%dropOldAction_same_services [Hs0 Hb0].
    split; [by eapply same_services_trans | by eapply broker_frame_trans]. }
  set (st4 := match svc_events svc with Some _ => _ | None => _ end).
  assert (H4 : same_services st3 st4 ∧ broker_frame st3 st4).
  { subst st4. destruct (svc_events svc); [|done].
    apply registerEvents_same_services. }
  intros H5.
  assert (H5' : same_services st4 st' ∧ broker_frame st4 st').
  { destruct prevEvents as [prev|]; [|by injection H5 as <-].
    eapply (forEachM_preserves (λ s, same_services st4 s ∧ broker_frame st4 s));
      [|exact H5|done].
    intros s a s' _ (Hs & Hb & _)%dropOldEvent_same_services [Hs0 Hb0].
    split; [by eapply same_services_trans | by eapply broker_frame_trans]. }
  assert (Hs : same_services st1 st').
  { repeat (eapply same_services_trans; [|apply H5' || apply H4 || apply H3' || apply H2]).
    apply same_services_refl. }
  assert (Hb : broker_frame st st').
  { repeat (eapply broker_frame_trans; [|apply H5' || apply H4 || apply H3' || apply H2]).
    exact Hb1. }
  split; [done|].
  destruct (ServiceCatalog.get st _ _ _) as [r|].
  - destruct Hfind as [_ Hfind]. by eapply same_services_trans.
  - destruct Hfind as (_ & Hk & Hl). destruct Hs as [Hk' Hl']. split; congruence.
Qed.

Lemma grows_refl node st : grows node st st.
Proof. exists [], []. by rewrite !app_nil_r. Qed.

Lemma grows_trans node st1 st2 st3 :
  grows node st1 st2 → grows node st2 st3 → grows node st1 st3.
Proof.
  intros (ks & rs & Hk & Hr & Hks & Hrs) (ks' & rs' & Hk' & Hr' & Hks' & Hrs').
  exists (ks ++ ks'), (rs ++ rs'). rewrite Hk', Hk, Hr', Hr, !app_assoc.
  split; [done|]. split; [done|]. split; [by apply Forall_app|].
  apply Forall_app. split; [done|].
  eapply Forall_impl; [exact Hrs'|]. intros r Hle. simpl in Hle.
  apply (f_equal length) in Hk. rewrite length_app, !length_fmap in Hk. lia.
Qed.

Lemma same_services_grows node st st' : same_services st st' → grows node st st'.
Proof. intros [Hk Hr]. exists [], []. by rewrite !app_nil_r. Qed.

Lemma reconcile_grows node st svc st' :
  reconcile node st svc = Normal st' → grows node st st'.
Proof.
  intros [_ H]%reconcile_services.
  destruct (ServiceCatalog.get st _ _ _).
  - by apply same_services_grows.
  - destruct H as [Hk Hr]. eexists _, _. split; [exact Hk|]. split; [exact Hr|].
    split; by repeat constructor.
Qed.

Lemma grows_lookup node st st' r k :
  grows node st st' →
  (service_key <$> reg_heap st) !! r = Some k →
  (service_key <$> reg_heap st') !! r = Some k.
Proof. intros (ks & rs & -> & _) Hk. by apply lookup_app_l_Some. Qed.

Lemma grows_recorded node st st' name version nodeID :
  grows node st st' →
  recorded st name version nodeID → recorded st' name version nodeID.
Proof.
  intros Hg. rewrite !recorded_iff. intros (r & Hr & Hm). exists r. split.
  - destruct Hg as (ks & rs & _ & -> & _). apply elem_of_app. by left.
  - rewrite matches_key in *. destruct Hm as (nd & Hk & Hid).
    exists nd. split; [|done]. by eapply grows_lookup.
Qed.

Lemma grows_owned_same_object node st st' :
  grows node st st' → owned_same_object node st → owned_same_object node st'.
Proof.
  intros (ks & rs & Hk & Hr & Hks & Hrs) Hobj r s Hin Hs Hid.
  assert (Hkr : (service_key <$> reg_heap st') !! r = Some (service_key s))
    by by rewrite list_lookup_fmap, Hs.
  rewrite Hk in Hkr. rewrite Hr in Hin.
  destruct (decide (r < length (reg_heap st))) as [Hlt|Hge].
  - rewrite lookup_app_l in Hkr by by rewrite length_fmap.
    apply elem_of_app in Hin as [Hin|Hin].
    + rewrite list_lookup_fmap in Hkr.
      destruct (reg_heap st !! r) as [s0|] eqn:Hs0; [|done].
      injection Hkr as Hn _ _. unfold service_key in *.
      rewrite <- Hn in *. by apply (Hobj r s0).
    + rewrite Forall_forall in Hrs. apply Hrs in Hin. lia.
  - rewrite lookup_app_r in Hkr by (rewrite length_fmap; lia).
    apply list_elem_of_lookup_2 in Hkr. rewrite Forall_forall in Hks.
    apply Hks in Hkr. simpl in Hkr. by rewrite Hkr.
Qed.

(** After its reconciliation a descriptor is recorded for the node. *)
Lemma reconcile_recorded node st svc st' :
  reconcile node st svc = Normal st' →
  recorded st' (svc_name svc) (svc_version svc) (node_id node).
Proof.
  intros Hrec. pose proof (reconcile_grows _ _ _ _ Hrec) as Hg.
  apply reconcile_services in Hrec as [_ H].
  destruct (ServiceCatalog.get st _ _ _) as [r|] eqn:Hget.
  - eapply grows_recorded; [exact Hg|]. unfold recorded. by rewrite Hget.
  - destruct H as [Hk Hr]. apply recorded_iff. exists (length (reg_heap st)).
    split; [rewrite Hr; apply elem_of_app; right; by left|].
    apply matches_key. exists node. split; [|done].
    rewrite Hk, lookup_app_r by by rewrite length_fmap.
    by rewrite length_fmap, Nat.sub_diag.
Qed.

(** A descriptor with both maps is reconciled without exception. *)
Lemma reconcile_complete node st svc :
  complete svc → ∃ st', reconcile node st svc = Normal st'.
Proof.
  intros [[ma Hma] [me Hme]]. unfold reconcile.
  destruct (findOrCreate node st svc) as [[[st1 service] prevActions] prevEvents].
  rewrite Hma, Hme.
  assert (H3 : ∃ st3,
    match prevActions with
    | Some prev => forEachM (dropOldAction node svc) (map_to_list prev)
                     (registerActions st1 node service ma)
    | None => Normal (registerActions st1 node service ma)
    end = Normal st3).
  { destruct prevActions; [|by eexists]. apply forEachM_total.
    intros s a _. rewrite dropOldAction_eq, Hma. by eexists. }
  destruct H3 as [st3 ->]. simpl.
  destruct prevEvents; [|by eexists]. apply forEachM_total.
  intros s a _. rewrite dropOldEvent_eq, Hme. by eexists.
Qed.

(** The first walk of [registerServices]. *)
Lemma reconcile_all_grows node serviceList st st' :
  forEachM (reconcile node) serviceList st = Normal st' →
  grows node st st' ∧ broker_frame st st'.
Proof.
  intros Hall.
  eapply (forEachM_preserves (λ s, grows node st s ∧ broker_frame st s));
    [|exact Hall|split; [apply grows_refl | apply broker_frame_refl]].
  intros s a s' _ Hrec [Hg Hb]. split.
  - eapply grows_trans; [exact Hg|]. by eapply reconcile_grows.
  - eapply broker_frame_trans; [exact Hb|]. by apply reconcile_services in Hrec as [? _].
Qed.

Lemma reconcile_all_recorded node serviceList st st' :
  forEachM (reconcile node) serviceList st = Normal st' →
  ∀ svc, svc ∈ serviceList →
    recorded st' (svc_name svc) (svc_version svc) (node_id node).
Proof.
  revert st. induction serviceList as [|d l IH]; intros st Hall svc Hin.
  - by apply elem_of_nil in Hin.
  - simpl in Hall. destruct (reconcile node st d) as [st1|] eqn:Hd; [|done].
    simpl in Hall. apply elem_of_cons in Hin as [->|Hin].
    + apply reconcile_all_grows in Hall as [Hg _].
      eapply grows_recorded; [exact Hg|]. by eapply reconcile_recorded.
    + by eapply IH.
Qed.

Lemma reconcile_all_complete node serviceList st :
  Forall complete serviceList →
  ∃ st', forEachM (reconcile node) serviceList st = Normal st'.
Proof.
  intros Hall. apply forEachM_total. intros s a Ha.
  apply reconcile_complete. rewrite Forall_forall in Hall. by apply Hall.
Qed.

(** ** The removal of stale services (second walk) *)

Lemma exist_flag serviceList s b :
  forEach (λ exist svc,
      if decide (ServiceItem.equals s (svc_name svc) (svc_version svc) None)
      then true else exist) serviceList b = true ↔
  b = true ∨ listed serviceList s.
Proof.
  unfold forEach, listed. revert b.
  induction serviceList as [|d l IH]; intros b; simpl.
  - rewrite Exists_nil. tauto.
  - rewrite IH, Exists_cons. case_decide; [tauto|]. tauto.
Qed.

Lemma listed_same_name serviceList s s' :
  service_name s = service_name s' →
  service_version s = service_version s' →
  listed serviceList s → listed serviceList s'.
Proof.
  intros Hn Hv. unfold listed, ServiceItem.equals. rewrite !Exists_exists.
  intros (d & Hd & H). exists d. split; [done|]. by rewrite <- Hn, <- Hv.
Qed.

Lemma listed_elem serviceList s svc :
  svc ∈ serviceList →
  service_name s = svc_name svc → service_version s = svc_version svc →
  listed serviceList s.
Proof.
  intros Hin Hn Hv. apply Exists_exists. exists svc. by repeat split.
Qed.

(** What one visit of the second walk does: nothing, or the removal of the
    service found under the key of a stale service of [node]. *)
Lemma removeOld_cases node serviceList st r :
  removeOld node serviceList st r = st ∨
  ∃ s r',
    reg_heap st !! r = Some s ∧
    same_object (service_node s) node ∧
    ¬ listed serviceList s ∧
    ServiceCatalog.get st (service_name s) (service_version s)
      (js_or (Some (node_id node)) (reg_nodeID st)) = Some r' ∧
    removeOld node serviceList st r = ServiceCatalog.removeService st r'.
Proof.
  unfold removeOld. destruct (reg_heap st !! r) as [s|] eqn:Hs; [|by left].
  case_decide as Hobj; [|by left].
  destruct (forEach _ serviceList false) eqn:Hexist; [by left|].
  unfold unregisterService, ServiceCatalog.remove.
  destruct (ServiceCatalog.get st _ _ _) as [r'|] eqn:Hget; [|by left].
  right. exists s, r'. repeat split; try done.
  intros Hl. assert (Ht : false = true); [|done].
  rewrite <- Hexist. apply exist_flag. by right.
Qed.

Lemma removeOld_heap node serviceList st r :
  reg_heap (removeOld node serviceList st r) = reg_heap st ∧
  broker_frame st (removeOld node serviceList st r).
Proof.
  destruct (removeOld_cases node serviceList st r)
    as [->|(s & r' & _ & _ & _ & _ & ->)]; done.
Qed.

Lemma removeOldServices_heap st node serviceList :
  reg_heap (removeOldServices st node serviceList) = reg_heap st ∧
  broker_frame st (removeOldServices st node serviceList).
Proof.
  unfold removeOldServices.
  apply (forEach_preserves (λ s, reg_heap s = reg_heap st ∧ broker_frame st s));
    [|done].
  intros s r _ [Hh Hb].
  destruct (removeOld_heap node serviceList s r) as [Hh' Hb']. split.
  - congruence.
  - by eapply broker_frame_trans.
Qed.

(** A service some descriptor names stays in the catalogue. *)
Lemma removeOldServices_keeps_listed st node serviceList r s :
  r ∈ reg_services st →
  reg_heap st !! r = Some s →
  listed serviceList s →
  r ∈ reg_services (removeOldServices st node serviceList).
Proof.
  intros Hin Hs Hl. unfold removeOldServices.
  assert (Hinv : reg_heap (forEach (removeOld node serviceList) (reg_services st) st)
                   = reg_heap st ∧
                 r ∈ reg_services
                       (forEach (removeOld node serviceList) (reg_services st) st));
    [|by destruct Hinv].
  apply (forEach_preserves (λ s', reg_heap s' = reg_heap st ∧ r ∈ reg_services s'));
    [|done].
  intros st' r0 _ [Hh Hr].
  destruct (removeOld_cases node serviceList st' r0)
    as [->|(s0 & r' & Hs0 & _ & Hnl & Hget & ->)]; [done|].
  split; [done|]. simpl. apply list_elem_of_filter. split; [|done].
  intros ->. apply get_Some_matches in Hget as [_ Hm].
  unfold ServiceCatalog.matches in Hm. rewrite Hh, Hs in Hm.
  destruct Hm as (Hn & Hv & _). apply Hnl.
  by apply (listed_same_name _ s s0).
Qed.

Lemma removeOldServices_recorded st node serviceList svc nodeID :
  svc ∈ serviceList →
  recorded st (svc_name svc) (svc_version svc) nodeID →
  recorded (removeOldServices st node serviceList)
    (svc_name svc) (svc_version svc) nodeID.
Proof.
  intros Hin. rewrite !recorded_iff. intros (r & Hr & Hm). exists r.
  destruct (removeOldServices_heap st node serviceList) as [Hh _].
  unfold ServiceCatalog.matches in *. rewrite Hh.
  destruct (reg_heap st !! r) as [s|] eqn:Hs; [|done]. split; [|done].
  apply (removeOldServices_keeps_listed _ _ _ _ s); try done.
  destruct Hm as (Hn & Hv & _). by apply (listed_elem _ _ svc).
Qed.

(** ** Malformed descriptors (C3) *)



(** ** Routing through removals *)

Section removals.
Context {T : Type}.
Implicit Types (l : list (Endpoint T)) (cat : gmap string (list (Endpoint T))).

Lemma endpointOf_None cat name nodeID :
  endpointOf cat name nodeID = None ↔
  ∀ e, routed cat name e → ep_nodeID e ≠ nodeID.
Proof.
  unfold endpointOf, routed. destruct (cat !! name) as [l|]; simpl.
  - rewrite getEndpointByNodeID_None. split.
    + intros Hl e (l' & [= <-] & He). by apply Hl.
    + intros Hr e He. apply Hr. by exists l.
  - split; [|done]. by intros _ e (l & ? & _).
Qed.

Lemma endpointOf_Some cat name nodeID e :
  endpointOf cat name nodeID = Some e → routed cat name e ∧ ep_nodeID e = nodeID.
Proof.
  unfold endpointOf, routed, EndpointList.getEndpointByNodeID.
  destruct (cat !! name) as [l|]; simpl; [|done].
  intros He%head_Some_elem_of. apply list_elem_of_filter in He as [? ?].
  split; [by exists l | done].
Qed.

Lemma Catalog_remove_lookup_ne cat name nodeID name' :
  name ≠ name' → Catalog.remove cat name nodeID !! name' = cat !! name'.
Proof.
  intros Hne. unfold Catalog.remove. destruct (cat !! name) as [l|]; [|done].
  destruct (EndpointList.removeByNodeID l nodeID).
  - by apply lookup_delete_ne.
  - by apply lookup_insert_ne.
Qed.

Lemma routed_Catalog_remove cat name nodeID name' e :
  routed (Catalog.remove cat name nodeID) name' e ↔
  routed cat name' e ∧ ¬ (name' = name ∧ ep_nodeID e = nodeID).
Proof.
  unfold routed. destruct (decide (name = name')) as [<-|Hne].
  - unfold Catalog.remove. destruct (cat !! name) as [l|] eqn:Hl.
    + pose proof (list_elem_of_filter (λ e, ep_nodeID e ≠ nodeID) l e) as Hf.
      unfold EndpointList.removeByNodeID.
      destruct (filter _ l) as [|e0 l0] eqn:Hfl.
      * rewrite lookup_delete_eq. split; [by intros (? & ? & _)|].
        intros [(l' & [= <-] & He) Hn]. exfalso.
        apply (elem_of_nil e), Hf. split; [|done]. intros ?. by apply Hn.
      * rewrite lookup_insert_eq. split.
        -- intros (l' & [= <-] & He). apply Hf in He as [Hne He].
           split; [by exists l|]. by intros [_ ?].
        -- intros [(l' & [= <-] & He) Hn]. eexists. split; [done|].
           apply Hf. split; [|done]. intros ?. by apply Hn.
    + rewrite Hl. split; [by intros (? & ? & _) | by intros [(? & ? & _) _]].
  - rewrite Catalog_remove_lookup_ne by done. split; [|tauto].
    intros H. split; [done|]. by intros [-> _].
Qed.

Lemma Catalog_removeByService_lookup cat service name :
  Catalog.removeByService cat service !! name
    = l ← cat !! name;
      match EndpointList.removeByService l service with
      | [] => None
      | l' => Some l'
      end.
Proof. unfold Catalog.removeByService. apply lookup_omap. Qed.

Lemma routed_Catalog_removeByService cat service name e :
  routed (Catalog.removeByService cat service) name e ↔
  routed cat name e ∧ ep_service e ≠ service.
Proof.
  unfold routed. rewrite Catalog_removeByService_lookup.
  destruct (cat !! name) as [l|]; simpl.
  - pose proof (list_elem_of_filter (λ e, ep_service e ≠ service) l e) as Hf.
    unfold EndpointList.removeByService.
    destruct (filter _ l) as [|e0 l0] eqn:Hfl.
    + split; [by intros (? & ? & _)|].
      intros [(l' & [= <-] & He) Hn]. exfalso. by apply (elem_of_nil e), Hf.
    + split.
      * intros (l' & [= <-] & He). apply Hf in He as [? ?]. split; [by exists l|done].
      * intros [(l' & [= <-] & He) Hn]. eexists. split; [done|]. by apply Hf.
  - split; [by intros (? & ? & _) | by intros [(? & ? & _) _]].
Qed.

(** A list none of whose endpoints the service registered is left as it
    is. *)
Lemma Catalog_removeByService_lookup_same cat service name l :
  cat !! name = Some l → l ≠ [] →
  (∀ e, e ∈ l → ep_service e ≠ service) →
  Catalog.removeByService cat service !! name = Some l.
Proof.
  intros Hl Hne Hall. rewrite Catalog_removeByService_lookup, Hl. simpl.
  unfold EndpointList.removeByService. rewrite filter_all by done.
  by destruct l.
Qed.

Lemma removeByNodeID_add nodeID r x l :
  EndpointList.removeByNodeID (EndpointList.add nodeID r x l) nodeID
    = EndpointList.removeByNodeID l nodeID.
Proof.
  unfold EndpointList.removeByNodeID. induction l as [|e l IH]; simpl.
  - by rewrite filter_cons_False by (simpl; tauto).
  - destruct (decide (ep_nodeID e = nodeID)) as [Heq|Hne].
    + rewrite !filter_cons_False; [done| |]; simpl; tauto.
    + by rewrite !filter_cons, IH.
Qed.
End removals.

(** ** Object identity in the second walk (C9) *)

(** C9, as the code has it.  The second walk considers a recorded service
    only when its stored node is the very object passed as [node]: on a
    service that stores another object the visit does nothing.  Such a
    service, with the endpoints it registered, is still in place after the
    whole walk provided no stale service of [node] shares its name and
    version (the removal itself goes by name, version and node id). *)
Theorem stale_scan_skips_other_objects (st : Registry) (node : Node)
  (serviceList : list Svc) (r : nat) (s : ServiceItem) :
  r ∈ reg_services st →
  reg_heap st !! r = Some s →
  ¬ same_object (service_node s) node →
  removeOld node serviceList st r = st ∧
  ((∀ r2 s2, r2 ∈ reg_services st → reg_heap st !! r2 = Some s2 →
             same_object (service_node s2) node → ¬ listed serviceList s2 →
             ¬ (service_name s2 = service_name s ∧
                service_version s2 = service_version s)) →
   r ∈ reg_services (removeOldServices st node serviceList) ∧
   (∀ name e, routed (reg_actions st) name e → ep_service e = r →
      routed (reg_actions (removeOldServices st node serviceList)) name e) ∧
   (∀ name e, routed (reg_events st) name e → ep_service e = r →
      routed (reg_events (removeOldServices st node serviceList)) name e)).
Proof.
  intros Hin Hs Hobj. split.
  { unfold removeOld. rewrite Hs. by rewrite decide_False. }
  intros Hkey. unfold removeOldServices.
  apply (forEach_preserves (λ st',
    reg_heap st' = reg_heap st ∧
    r ∈ reg_services st' ∧
    (∀ name e, routed (reg_actions st) name e → ep_service e = r →
       routed (reg_actions st') name e) ∧
    (∀ name e, routed (reg_events st) name e → ep_service e = r →
       routed (reg_events st') name e))); [|done].
  intros st' r0 Hr0 (Hh & Hr & Ha & He).
  destruct (removeOld_cases node serviceList st' r0)
    as [->|(s0 & r' & Hs0 & Hobj0 & Hnl & Hget & ->)]; [done|].
  assert (Hne : r ≠ r').
  { intros <-. apply get_Some_matches in Hget as [_ Hm].
    unfold ServiceCatalog.matches in Hm. rewrite Hh, Hs in Hm.
    destruct Hm as (Hn & Hv & _). rewrite Hh in Hs0.
    by apply (Hkey r0 s0). }
  split; [done|]. simpl. split; [|split].
  - apply list_elem_of_filter. by split.
  - intros name e Hre Hse. apply routed_Catalog_removeByService.
    split; [by apply Ha | congruence].
  - intros name e Hre Hse. apply routed_Catalog_removeByService.
    split; [by apply He | congruence].
Qed.

(** Node B comes back as a new object with the old id: its service math@1,
    recorded with the old object, survives the walk over an empty list. *)
Lemma stale_scan_skips_other_objects_witness :
  removeOld Scenario.nodeB' [] Scenario.A 1 = Scenario.A ∧
  1 ∈ reg_services (removeOldServices Scenario.A Scenario.nodeB' []).
Proof.
  destruct (stale_scan_skips_other_objects Scenario.A Scenario.nodeB' [] 1
              (mkServiceItem Scenario.nodeB (Some "math") (Some 1) ∅
                 (list_to_map [("add", Scenario.add); ("sub", Scenario.sub)]) ∅))
    as [Hskip Hstay].
  - by vm_compute; right; left.
  - reflexivity.
  - by vm_compute.
  - split; [exact Hskip|]. apply Hstay.
    intros r2 s2 Hr2 Hs2 Hobj. exfalso. revert Hr2 Hs2 Hobj.
    rewrite list_elem_of_In. vm_compute.
    intros [<-|[<-|[]]] [= <-]; vm_compute; discriminate.
Defined.

(** C9, as the claim states it, fails.  In [Scenario.twins] the catalogue
    holds math@1 twice under the id of the local node: service 0 stores
    another node object, service 1 stores the local node.  The walk for the
    local node over an empty list skips service 0, finds service 1 stale,
    and the removal by (name, version, node id) takes service 0: the service
    of the other object does not stay in place. *)
Lemma other_object_removed_by_key :
  reg_services Scenario.twins = [0; 1] ∧
  service_node <$> reg_heap Scenario.twins !! 0 = Some Scenario.impostor ∧
  ¬ same_object Scenario.impostor (reg_localNode Scenario.twins) ∧
  node_id Scenario.impostor = node_id (reg_localNode Scenario.twins) ∧
  removeOld (reg_localNode Scenario.twins) [] Scenario.twins 0 = Scenario.twins ∧
  reg_services
    (removeOldServices Scenario.twins (reg_localNode Scenario.twins) []) = [1].
Proof.
  split; [reflexivity|]. split; [reflexivity|]. split; [by vm_compute|].
  split; [reflexivity|]. split; by vm_compute.
Qed.

(** ** The stages of one reconciliation *)

Lemma reconcile_stages node st svc st' :
  reconcile node st svc = Normal st' →
  ∃ st1 service prevActions prevEvents st3,
    findOrCreate node st svc = (st1, service, prevActions, prevEvents) ∧
    match prevActions with
    | Some prev =>
        forEachM (dropOldAction node svc) (map_to_list prev)
          match svc_actions svc with
          | Some actions => registerActions st1 node service actions
          | None => st1
          end
    | None =>
        Normal match svc_actions svc with
               | Some actions => registerActions st1 node service actions
               | None => st1
               end
    end = Normal st3 ∧
    match prevEvents with
    | Some prev =>
        forEachM (dropOldEvent node svc) (map_to_list prev)
          match svc_events svc with
          | Some events => registerEvents st3 node service events
          | None => st3
          end
    | None =>
        Normal match svc_events svc with
               | Some events => registerEvents st3 node service events
               | None => st3
               end
    end = Normal st'.
Proof.
  unfold reconcile.
  destruct (findOrCreate node st svc) as [[[st1 service] prevActions] prevEvents].
  destruct (match prevActions with Some _ => _ | None => _ end)
    as [st3|] eqn:H3; simpl; [|done].
  intros H5. exists st1, service, prevActions, prevEvents, st3.
  split; [done|]. split; [done|]. by destruct prevEvents.
Qed.

Lemma findOrCreate_found node st svc r s :
  ServiceCatalog.get st (svc_name svc) (svc_version svc) (node_id node) = Some r →
  reg_heap st !! r = Some s →
  findOrCreate node st svc
    = (set_heap (alter (ServiceItem.update svc) r (reg_heap st)) st, r,
       Some (service_actions s), Some (service_events s)).
Proof. intros Hget Hs. unfold findOrCreate. by rewrite Hget, Hs. Qed.

Lemma dropOldAction_cases node svc actions st entry st' :
  svc_actions svc = Some actions →
  dropOldAction node svc st entry = Normal st' →
  (indexed actions entry.1 ∧ st' = st) ∨
  (¬ indexed actions entry.1 ∧ st' = unregisterAction st node entry.1).
Proof.
  intros Ha. rewrite dropOldAction_eq, Ha.
  case_decide; intros [= <-]; [left | right]; done.
Qed.

Lemma forEachM_establishes {A S} (P : S → Prop) (cb : S → A → Completion S)
  l s s' x :
  x ∈ l →
  (∀ s a s', cb s a = Normal s' → P s → P s') →
  (∀ s s', cb s x = Normal s' → P s') →
  forEachM cb l s = Normal s' → P s'.
Proof.
  intros Hx Hkeep Hset. revert s.
  induction l as [|a l IH]; intros s; [by apply elem_of_nil in Hx|].
  simpl. destruct (cb s a) as [s1|] eqn:Hs1; simpl; [|done].
  apply elem_of_cons in Hx as [<-|Hx].
  - intros Hrest.
    eapply (forEachM_preserves P); [|exact Hrest|by eapply Hset].
    intros. by eapply Hkeep.
  - by apply IH.
Qed.

(** ** The action catalogue through the registration of actions *)

Lemma registerActions_others st node service actions name :
  EndpointList.removeByNodeID
    (default [] (reg_actions (registerActions st node service actions) !! name))
    (node_id node)
  = EndpointList.removeByNodeID (default [] (reg_actions st !! name))
      (node_id node).
Proof.
  unfold registerActions.
  apply (forEach_preserves (λ s,
    EndpointList.removeByNodeID (default [] (reg_actions s !! name)) (node_id node)
    = EndpointList.removeByNodeID (default [] (reg_actions st !! name))
        (node_id node))); [|done].
  intros s [k a] _ Hs. unfold registerAction. simpl.
  rewrite Catalog_add_lookup. case_decide as Hn; [|done].
  subst name. simpl. by rewrite removeByNodeID_add.
Qed.

Lemma registerActions_one_per_node st node service actions :
  one_per_node (reg_actions st) →
  one_per_node (reg_actions (registerActions st node service actions)).
Proof.
  intros Hone.
  by destruct (registerActions_walk_serves node service (map_to_list actions) st Hone).
Qed.

Lemma registerActions_nodeIDs st node service actions name ids :
  ep_nodeID <$> default [] (reg_actions st !! name) = ids →
  node_id node ∈ ids →
  ep_nodeID <$> default []
    (reg_actions (registerActions st node service actions) !! name) = ids.
Proof.
  intros Hids Hin. unfold registerActions.
  apply (forEach_preserves (λ s,
    ep_nodeID <$> default [] (reg_actions s !! name) = ids)); [|done].
  intros s [k a] _ Hs. unfold registerAction. simpl.
  rewrite Catalog_add_lookup. case_decide as Hn; [|done].
  subst name. simpl. rewrite EndpointList_add_nodeIDs, Hs.
  by rewrite decide_True.
Qed.

Lemma ownedByID_key st nodeID r :
  ServiceCatalog.ownedByID st nodeID r ↔
  ∃ k, (service_key <$> reg_heap st) !! r = Some k ∧ node_id k.1.1 = nodeID.
Proof.
  unfold ServiceCatalog.ownedByID. rewrite list_lookup_fmap.
  destruct (reg_heap st !! r) as [s|]; simpl.
  - split; [intros <-; by eexists | by intros (k & [= <-] & <-)].
  - split; [done | by intros (? & ? & _)].
Qed.

Lemma matches_ownedByID st name version nodeID r :
  ServiceCatalog.matches st name version nodeID r →
  ServiceCatalog.ownedByID st nodeID r.
Proof.
  unfold ServiceCatalog.matches, ServiceCatalog.ownedByID.
  destruct (reg_heap st !! r); [|done]. by intros (_ & _ & ?).
Qed.

Lemma js_or_nonempty nodeID b : nodeID ≠ EmptyString → js_or (Some nodeID) b = nodeID.
Proof. intros Hne. unfold js_or. by rewrite decide_False. Qed.

Lemma unregisterAction_endpointOf_None st node name name' nodeID :
  endpointOf (reg_actions st) name' nodeID = None →
  endpointOf (reg_actions (unregisterAction st node name)) name' nodeID = None.
Proof.
  rewrite !endpointOf_None. intros H e. simpl.
  rewrite routed_Catalog_remove. intros [He _]. by apply H.
Qed.

Lemma unregisterAction_endpointOf st node name :
  endpointOf (reg_actions (unregisterAction st node name)) name (node_id node)
    = None.
Proof.
  rewrite endpointOf_None. intros e. simpl.
  rewrite routed_Catalog_remove. intros [_ Hn] Hid. by apply Hn.
Qed.

(** The reconciliation of the descriptor of a recorded service that keeps
    action [kept] and omits action [dropped]. *)
Lemma reconcile_keeps_and_drops st node svc kept dropped r s l actions a :
  one_per_node (reg_actions st) →
  ServiceCatalog.get st (svc_name svc) (svc_version svc) (node_id node) = Some r →
  reg_heap st !! r = Some s →
  is_Some (service_actions s !! dropped) →
  reg_actions st !! kept = Some l →
  node_id node ∈ ep_nodeID <$> l →
  svc_actions svc = Some actions →
  actions !! dropped = None →
  dropped ∉ Object_prototype →
  actions !! kept = Some a →
  action_name a = kept →
  is_Some (svc_events svc) →
  ∃ st1, reconcile node st svc = Normal st1 ∧
    same_services st st1 ∧
    endpointOf (reg_actions st1) dropped (node_id node) = None ∧
    ∃ l1 e, reg_actions st1 !! kept = Some l1 ∧
      EndpointList.removeByNodeID l1 (node_id node)
        = EndpointList.removeByNodeID l (node_id node) ∧
      ep_nodeID <$> l1 = ep_nodeID <$> l ∧
      endpointsFor l1 (node_id node) = [e] ∧ ep_service e = r.
Proof.
  intros Hone Hget Hs [ad Hdropped] Hl HinB Hactions Hnone Hplain Hkept Hname
    Hevents.
  destruct (reconcile_complete node st svc) as [st1 Hrec].
  { split; [by eexists | done]. }
  exists st1. split; [done|].
  pose proof (reconcile_services _ _ _ _ Hrec) as [_ Hsame]. rewrite Hget in Hsame.
  split; [done|].
  apply reconcile_stages in Hrec
    as (stA & service & prevActions & prevEvents & st3 & Hfind & H3 & H5).
  rewrite (findOrCreate_found _ _ _ _ _ Hget Hs) in Hfind.
  injection Hfind as <- <- <- <-. rewrite Hactions in H3.
  set (stA := set_heap _ st) in *.
  set (stB := registerActions stA node r actions) in *.
  (* after the registration of the actions *)
  assert (HoneB : one_per_node (reg_actions stB))
    by by apply registerActions_one_per_node.
  destruct (registerActions_walk_serves node r (map_to_list actions) stA Hone)
    as [_ Hserves].
  destruct (Hserves (kept, a)) as (lB & e & HlB & He & Hes & _);
    [by apply elem_of_map_to_list|].
  simpl in HlB. rewrite Hname in HlB. unfold Catalog.get in HlB.
  fold (registerActions stA node r actions) in HlB. fold stB in HlB.
  pose proof (registerActions_others stA node r actions kept) as Hothers.
  fold stB in Hothers. rewrite HlB in Hothers. simpl in Hothers.
  rewrite Hl in Hothers. simpl in Hothers.
  pose proof (registerActions_nodeIDs stA node r actions kept (ep_nodeID <$> l))
    as Hids.
  fold stB in Hids. rewrite HlB in Hids. simpl in Hids. rewrite Hl in Hids.
  specialize (Hids eq_refl HinB).
  (* after the removal of the old actions *)
  assert (H3kept : reg_actions st3 !! kept = Some lB).
  { eapply (forEachM_preserves (λ s', reg_actions s' !! kept = Some lB));
      [|exact H3|exact HlB].
    intros s' entry s'' _ Hcb Hs'.
    destruct (dropOldAction_cases _ _ _ _ _ _ Hactions Hcb) as [[_ ->]|[Hn ->]];
      [done|].
    simpl. rewrite Catalog_remove_lookup_ne; [done|]. intros Heq.
    destruct Hn. left. rewrite Heq, Hkept. by eexists. }
  assert (H3dropped : endpointOf (reg_actions st3) dropped (node_id node) = None).
  { eapply (forEachM_establishes
              (λ s', endpointOf (reg_actions s') dropped (node_id node) = None)
              _ _ _ _ (dropped, ad)); [|..|exact H3].
    - by apply elem_of_map_to_list.
    - intros s' entry s'' Hcb Hs'.
      destruct (dropOldAction_cases _ _ _ _ _ _ Hactions Hcb) as [[_ ->]|[_ ->]];
        [done|]. by apply unregisterAction_endpointOf_None.
    - intros s' s'' Hcb.
      destruct (dropOldAction_cases _ _ _ _ _ _ Hactions Hcb) as [[Hsome _]|[_ ->]].
      + simpl in Hsome. destruct Hsome as [[? Hsome]|Hin]; [|done].
        by rewrite Hnone in Hsome.
      + apply unregisterAction_endpointOf. }
  (* the events leave the action catalogue alone *)
  assert (Hcat : reg_actions st1 = reg_actions st3).
  { destruct Hevents as [events Hevents]. rewrite Hevents in H5.
    pose proof (registerEvents_frame st3 node r events)
      as (_ & _ & _ & _ & _ & _ & Hcat4 & _).
    eapply (forEachM_preserves (λ s', reg_actions s' = reg_actions st3));
      [|exact H5|exact Hcat4].
    intros s' entry s'' _ (_ & _ & _ & Hcat')%dropOldEvent_same_services Hs'.
    congruence. }
  rewrite Hcat. split; [done|]. by exists lB, e.
Qed.

Lemma endpointsFor_removeByNodeID {T} (l : list (Endpoint T)) nodeID nodeID' :
  nodeID ≠ nodeID' →
  endpointsFor (EndpointList.removeByNodeID l nodeID') nodeID
    = endpointsFor l nodeID.
Proof.
  intros Hne. unfold endpointsFor, EndpointList.removeByNodeID.
  rewrite list_filter_filter. apply list_filter_iff.
  intros e. split; [tauto|]. intros He. split; [done|]. congruence.
Qed.

Lemma endpointOf_lookup {T} (cat : gmap string (list (Endpoint T))) name l nodeID :
  cat !! name = Some l → endpointOf cat name nodeID = head (endpointsFor l nodeID).
Proof. intros Hl. unfold endpointOf. by rewrite Hl. Qed.

(** ** A snapshot that omits one action (C8) *)

(** The second walk after the reconciliation of the only descriptor: the
    list of [kept] is not touched and B stays without endpoint under
    [dropped]. *)
Lemma removeOldServices_keeps_list st st1 node svc kept dropped r l l1 eB :
  node_id node ≠ EmptyString →
  same_services st st1 →
  ServiceCatalog.get st (svc_name svc) (svc_version svc) (node_id node) = Some r →
  (∀ e, e ∈ l → ep_nodeID e ≠ node_id node →
        ¬ ServiceCatalog.ownedByID st (node_id node) (ep_service e)) →
  reg_actions st1 !! kept = Some l1 →
  EndpointList.removeByNodeID l1 (node_id node)
    = EndpointList.removeByNodeID l (node_id node) →
  endpointsFor l1 (node_id node) = [eB] →
  ep_service eB = r →
  endpointOf (reg_actions st1) dropped (node_id node) = None →
  reg_actions (removeOldServices st1 node [svc]) !! kept = Some l1 ∧
  endpointOf (reg_actions (removeOldServices st1 node [svc])) dropped
    (node_id node) = None.
Proof.
  intros Hid [Hkeys _] Hget Hothers Hl1 Hrest HeB HeBs Hdrop.
  assert (Hwalk :
    reg_heap (removeOldServices st1 node [svc]) = reg_heap st1 ∧
    reg_actions (removeOldServices st1 node [svc]) !! kept = Some l1 ∧
    endpointOf (reg_actions (removeOldServices st1 node [svc])) dropped
      (node_id node) = None); [|by destruct Hwalk as (_ & ? & ?)].
  unfold removeOldServices.
  apply (forEach_preserves (λ st',
    reg_heap st' = reg_heap st1 ∧
    reg_actions st' !! kept = Some l1 ∧
    endpointOf (reg_actions st') dropped (node_id node) = None)); [|done].
  intros st' r0 _ (Hh & Hk & Hd).
  destruct (removeOld_cases node [svc] st' r0)
    as [->|(s0 & r' & Hs0 & _ & Hnl & Hget' & ->)]; [done|].
  rewrite js_or_nonempty in Hget' by done.
  apply get_Some_matches in Hget' as [_ Hm].
  assert (Hkeys' : service_key <$> reg_heap st' = service_key <$> reg_heap st)
    by by rewrite Hh.
  split; [done|]. simpl. split.
  - apply Catalog_removeByService_lookup_same; [done|..].
    { intros ->. unfold endpointsFor in HeB. by rewrite filter_nil in HeB. }
    intros e He Hsvc.
    destruct (decide (ep_nodeID e = node_id node)) as [Heq|Hne].
    + assert (He' : e ∈ endpointsFor l1 (node_id node))
        by by apply list_elem_of_filter.
      rewrite HeB in He'. apply list_elem_of_singleton in He'. subst e.
      rewrite HeBs in Hsvc. subst r'. apply Hnl.
      apply get_Some_matches in Hget as [_ Hm0].
      rewrite matches_key in Hm, Hm0. rewrite Hkeys' in Hm.
      destruct Hm as (nd & Hk1 & _), Hm0 as (nd0 & Hk0 & _).
      rewrite Hk0 in Hk1. injection Hk1 as _ Hn Hv.
      apply (listed_elem _ _ svc); [left|done..].
    + apply (Hothers e); [|done|].
      * assert (He' : e ∈ EndpointList.removeByNodeID l (node_id node)).
        { rewrite <- Hrest. by apply list_elem_of_filter. }
        by apply list_elem_of_filter in He' as [_ ?].
      * apply matches_ownedByID in Hm. rewrite ownedByID_key in *.
        by rewrite Hsvc, <- Hkeys'.
  - rewrite endpointOf_None in *. intros e.
    rewrite routed_Catalog_removeByService. intros [He _]. by apply Hd.
Qed.

(** C8.  Node B serves actions [kept] and [dropped] through a recorded
    service, and the EndpointList of [kept] also holds endpoints of other
    nodes (node A), registered by services of those nodes; [dropped] is, like
    "sub", not the name of a member of [Object.prototype].  A snapshot from B
    whose only descriptor is that of the service, still declaring [kept] and
    omitting [dropped], completes; afterwards B has no endpoint under
    [dropped], and the EndpointList of [kept] lists the same nodes in the same
    order, holds the endpoints of the other nodes unchanged (that of A in
    particular) and exactly one endpoint for B. *)
Theorem snapshot_omitting_an_action (st : Registry) (nodeA nodeB : Node)
  (svc : Svc) (kept dropped : string) (r : nat) (s : ServiceItem)
  (l : list (Endpoint Action)) (eA : Endpoint Action)
  (actions : gmap string Action) (a : Action) :
  node_id nodeB ≠ EmptyString →
  node_id nodeA ≠ node_id nodeB →
  one_per_node (reg_actions st) →
  ServiceCatalog.get st (svc_name svc) (svc_version svc) (node_id nodeB) = Some r →
  reg_heap st !! r = Some s →
  is_Some (service_actions s !! dropped) →
  Catalog.get (reg_actions st) kept = Some l →
  node_id nodeB ∈ ep_nodeID <$> l →
  endpointOf (reg_actions st) kept (node_id nodeA) = Some eA →
  (∀ e, e ∈ l → ep_nodeID e ≠ node_id nodeB →
        ¬ ServiceCatalog.ownedByID st (node_id nodeB) (ep_service e)) →
  svc_actions svc = Some actions →
  actions !! dropped = None →
  dropped ∉ Object_prototype →
  actions !! kept = Some a →
  action_name a = kept →
  is_Some (svc_events svc) →
  ∃ st', registerServices st nodeB [svc] = Normal st' ∧
    endpointOf (reg_actions st') dropped (node_id nodeB) = None ∧
    ∃ l' eB, getActionEndpoints st' kept = Normal (Some l') ∧
      ep_nodeID <$> l' = ep_nodeID <$> l ∧
      EndpointList.removeByNodeID l' (node_id nodeB)
        = EndpointList.removeByNodeID l (node_id nodeB) ∧
      endpointOf (reg_actions st') kept (node_id nodeA) = Some eA ∧
      endpointsFor l' (node_id nodeB) = [eB] ∧ ep_service eB = r.
Proof.
  intros HB HAB Hone Hget Hs Hdropped Hl HinB HeA Hothers Hactions Hnone Hplain
    Hkept Hname Hevents.
  unfold Catalog.get in Hl.
  destruct (reconcile_keeps_and_drops st nodeB svc kept dropped r s l actions a)
    as (st1 & Hrec & Hsame & Hdrop1 & l1 & eB & Hl1 & Hrest1 & Hids1
        & HeB & HeBs); try done.
  destruct (removeOldServices_keeps_list st st1 nodeB svc kept dropped r l l1 eB)
    as [Hl' Hdrop']; try done.
  unfold registerServices. simpl. rewrite Hrec. simpl.
  eexists. split; [done|]. split; [done|].
  exists l1, eB. unfold getActionEndpoints, Catalog.get. rewrite Hl'.
  repeat split; try done.
  rewrite (endpointOf_lookup _ _ _ _ Hl'), <- HeA, (endpointOf_lookup _ _ _ _ Hl).
  f_equal.
  rewrite <- (endpointsFor_removeByNodeID l1 _ (node_id nodeB)) by done.
  rewrite Hrest1. by apply endpointsFor_removeByNodeID.
Qed.

(** Scenario B of the specification: B's next snapshot omits [sub]. *)
Lemma snapshot_omitting_an_action_witness :
  ∃ st', registerServices Scenario.A Scenario.nodeB
           [Scenario.math [Scenario.add]] = Normal st' ∧
    endpointOf (reg_actions st') "sub" "B" = None ∧
    ∃ l' eB, getActionEndpoints st' "add" = Normal (Some l') ∧
      ep_nodeID <$> l' = ["A"; "B"] ∧
      EndpointList.removeByNodeID l' "B"
        = [mkEndpoint "A" 0 Scenario.add true] ∧
      endpointOf (reg_actions st') "add" "A"
        = Some (mkEndpoint "A" 0 Scenario.add true) ∧
      endpointsFor l' "B" = [eB] ∧ ep_service eB = 1.
Proof.
  apply (snapshot_omitting_an_action Scenario.A Scenario.nodeA Scenario.nodeB
           (Scenario.math [Scenario.add]) "add" "sub" 1
           (mkServiceItem Scenario.nodeB (Some "math") (Some 1) ∅
              (list_to_map [("add", Scenario.add); ("sub", Scenario.sub)]) ∅)
           [mkEndpoint "A" 0 Scenario.add true; mkEndpoint "B" 1 Scenario.add true]
           (mkEndpoint "A" 0 Scenario.add true)
           {["add" := Scenario.add]} Scenario.add).
  - done.
  - done.
  - apply (bool_decide_unpack _). by vm_compute.
  - reflexivity.
  - reflexivity.
  - by eexists.
  - reflexivity.
  - by vm_compute; right; left.
  - reflexivity.
  - intros e He Hid Hown. revert He Hid Hown. rewrite list_elem_of_In.
    intros [<-|[<-|[]]]; vm_compute; [discriminate | congruence].
  - reflexivity.
  - reflexivity.
  - apply (bool_decide_unpack _). by vm_compute.
  - reflexivity.
  - reflexivity.
  - by eexists.
Defined.

(** ** The catalogue invariants hold on every registry the operations produce *)

Lemma NoDup_fmap_filter {A B} (f : A → B) (P : A → Prop)
  `{!∀ x, Decision (P x)} (l : list A) :
  NoDup (f <$> l) → NoDup (f <$> filter P l).
Proof.
  induction l as [|x l IH]; [done|]. rewrite fmap_cons, NoDup_cons.
  intros [Hx Hnd]. rewrite filter_cons. case_decide; [|by apply IH].
  rewrite fmap_cons, NoDup_cons. split; [|by apply IH].
  intros (y & Hy & [_ Hin]%list_elem_of_filter)%list_elem_of_fmap.
  apply Hx. apply list_elem_of_fmap. by exists y.
Qed.

Section catalogue_invariants.
Context {T : Type}.
Implicit Types (cat : gmap string (list (Endpoint T))).

Lemma Catalog_remove_no_empty_lists cat name nodeID :
  no_empty_lists cat → no_empty_lists (Catalog.remove cat name nodeID).
Proof.
  intros Hne name' l'. destruct (decide (name = name')) as [<-|Hneq].
  - unfold Catalog.remove. destruct (cat !! name) as [l|] eqn:Hl.
    + destruct (EndpointList.removeByNodeID l nodeID) as [|e0 l0].
      * by rewrite lookup_delete_eq.
      * rewrite lookup_insert_eq. by intros [= <-].
    + rewrite Hl. intros [=].
  - rewrite Catalog_remove_lookup_ne by done. apply Hne.
Qed.

Lemma Catalog_remove_one_per_node cat name nodeID :
  one_per_node cat → one_per_node (Catalog.remove cat name nodeID).
Proof.
  intros Hone name' l'. destruct (decide (name = name')) as [<-|Hne].
  - unfold Catalog.remove. destruct (cat !! name) as [l|] eqn:Hl.
    + pose proof (NoDup_fmap_filter ep_nodeID (λ e, ep_nodeID e ≠ nodeID) l
                    (Hone _ _ Hl)) as Hnd.
      unfold EndpointList.removeByNodeID.
      destruct (filter _ l) as [|e0 l0].
      * by rewrite lookup_delete_eq.
      * rewrite lookup_insert_eq. by intros [= <-].
    + rewrite Hl. intros [=].
  - rewrite Catalog_remove_lookup_ne by done. apply Hone.
Qed.

Lemma Catalog_removeByService_no_empty_lists cat service :
  no_empty_lists (Catalog.removeByService cat service).
Proof.
  intros name l. rewrite Catalog_removeByService_lookup.
  destruct (cat !! name) as [l0|]; simpl; [|done].
  destruct (EndpointList.removeByService l0 service); [done|]. by intros [= <-].
Qed.

Lemma Catalog_removeByService_one_per_node cat service :
  one_per_node cat → one_per_node (Catalog.removeByService cat service).
Proof.
  intros Hone name l. rewrite Catalog_removeByService_lookup.
  destruct (cat !! name) as [l0|] eqn:Hl0; simpl; [|done].
  pose proof (NoDup_fmap_filter ep_nodeID (λ e, ep_service e ≠ service) l0
                (Hone _ _ Hl0)) as Hnd.
  unfold EndpointList.removeByService.
  destruct (filter _ l0); [done|]. by intros [= <-].
Qed.
End catalogue_invariants.

Lemma well_formed_new nodeID : well_formed (new_Registry nodeID).
Proof. repeat split; apply map_Forall_empty. Qed.

Lemma well_formed_registerActions st node service actions :
  well_formed st → well_formed (registerActions st node service actions).
Proof.
  intros Hwf. unfold registerActions. apply (forEach_preserves well_formed); [|done].
  intros s entry _ (Ha & He & Hoa & Hoe). repeat split; simpl; try done.
  - by apply Catalog_add_no_empty_lists.
  - by apply Catalog_add_one_per_node.
Qed.

Lemma well_formed_registerEvents st node service events :
  well_formed st → well_formed (registerEvents st node service events).
Proof.
  intros Hwf. unfold registerEvents. apply (forEach_preserves well_formed); [|done].
  intros s entry _ (Ha & He & Hoa & Hoe). repeat split; simpl; try done.
  - by apply Catalog_add_no_empty_lists.
  - by apply Catalog_add_one_per_node.
Qed.

Lemma well_formed_unregisterAction st node name :
  well_formed st → well_formed (unregisterAction st node name).
Proof.
  intros (Ha & He & Hoa & Hoe). repeat split; simpl; try done.
  - by apply Catalog_remove_no_empty_lists.
  - by apply Catalog_remove_one_per_node.
Qed.

Lemma well_formed_unregisterEvent st node name :
  well_formed st → well_formed (unregisterEvent st node name).
Proof.
  intros (Ha & He & Hoa & Hoe). repeat split; simpl; try done.
  - by apply Catalog_remove_no_empty_lists.
  - by apply Catalog_remove_one_per_node.
Qed.

Lemma well_formed_removeService st r :
  well_formed st → well_formed (ServiceCatalog.removeService st r).
Proof.
  intros (Ha & He & Hoa & Hoe). repeat split; simpl.
  - apply Catalog_removeByService_no_empty_lists.
  - apply Catalog_removeByService_no_empty_lists.
  - by apply Catalog_removeByService_one_per_node.
  - by apply Catalog_removeByService_one_per_node.
Qed.

Lemma well_formed_unregisterService st name version nodeID :
  well_formed st → well_formed (unregisterService st name version nodeID).
Proof.
  intros Hwf. unfold unregisterService, ServiceCatalog.remove.
  destruct (ServiceCatalog.get st _ _ _); [|done].
  by apply well_formed_removeService.
Qed.

Lemma well_formed_unregisterServicesByNode st nodeID :
  well_formed st → well_formed (unregisterServicesByNode st nodeID).
Proof.
  intros Hwf. unfold unregisterServicesByNode, ServiceCatalog.removeAllByNodeID.
  apply (forEach_preserves well_formed); [|done].
  intros s r _ Hs. case_decide; [|done]. by apply well_formed_removeService.
Qed.

Lemma well_formed_registerLocalService st svc :
  well_formed st → well_formed (registerLocalService st svc).
Proof.
  intros Hwf. unfold registerLocalService, ServiceCatalog.add. simpl.
  set (st0 := set_services _ _).
  assert (H0 : well_formed st0) by done.
  set (st1 := match svc_actions svc with Some _ => _ | None => _ end).
  assert (H1 : well_formed st1).
  { subst st1. destruct (svc_actions svc); [|done].
    by apply well_formed_registerActions. }
  set (st2 := match svc_events svc with Some _ => _ | None => _ end).
  assert (H2 : well_formed st2).
  { subst st2. destruct (svc_events svc); [|done].
    by apply well_formed_registerEvents. }
  done.
Qed.

Lemma well_formed_reconcile node st svc st' :
  reconcile node st svc = Normal st' → well_formed st → well_formed st'.
Proof.
  intros Hrec Hwf.
  apply reconcile_stages in Hrec
    as (st1 & service & prevActions & prevEvents & st3 & Hfind & H3 & H5).
  assert (H1 : well_formed st1).
  { pose proof (findOrCreate_services node st svc) as Hf. rewrite Hfind in Hf.
    destruct Hf as (_ & Ha & He & _). unfold well_formed. by rewrite Ha, He. }
  assert (H3' : well_formed st3).
  { assert (H2 : well_formed match svc_actions svc with
                             | Some actions => registerActions st1 node service actions
                             | None => st1
                             end).
    { destruct (svc_actions svc); [|done]. by apply well_formed_registerActions. }
    destruct prevActions; [|by injection H3 as <-].
    eapply (forEachM_preserves well_formed); [|exact H3|exact H2].
    intros s a s' _ Hcb Hs. rewrite dropOldAction_eq in Hcb.
    destruct (svc_actions svc) as [m|]; [|done]. injection Hcb as <-.
    case_decide; [done|]. by apply well_formed_unregisterAction. }
  assert (H4 : well_formed match svc_events svc with
                           | Some events => registerEvents st3 node service events
                           | None => st3
                           end).
  { destruct (svc_events svc); [|done]. by apply well_formed_registerEvents. }
  destruct prevEvents; [|by injection H5 as <-].
  eapply (forEachM_preserves well_formed); [|exact H5|exact H4].
  intros s a s' _ Hcb Hs. rewrite dropOldEvent_eq in Hcb.
  destruct (svc_events svc) as [m|]; [|done]. injection Hcb as <-.
  case_decide; [done|]. by apply well_formed_unregisterEvent.
Qed.

Lemma well_formed_registerServices st node serviceList st' :
  registerServices st node serviceList = Normal st' →
  well_formed st → well_formed st'.
Proof.
  unfold registerServices. intros Hreg Hwf.
  destruct (forEachM (reconcile node) serviceList st) as [st1|] eqn:H1; [|done].
  simpl in Hreg. injection Hreg as <-.
  assert (Hwf1 : well_formed st1).
  { eapply (forEachM_preserves well_formed); [|exact H1|exact Hwf].
    intros s a s' _ Hrec Hs. by eapply well_formed_reconcile. }
  unfold removeOldServices. apply (forEach_preserves well_formed); [|done].
  intros s r _ Hs.
  destruct (removeOld_cases node serviceList s r)
    as [->|(s0 & r' & _ & _ & _ & _ & ->)]; [done|].
  by apply well_formed_removeService.
Qed.

(** ** Snapshot convergence (C1) *)

Section catalogue_walks.
Context {T : Type} (nameOf : T → string).
Implicit Types (cat : gmap string (list (Endpoint T))) (m prev : gmap string T).

Lemma addAll_entries_lookup cat node service (l : list (string * T)) name :
  NoDup l.*1 →
  (∀ k x, (k, x) ∈ l → nameOf x = k) →
  forEach (λ cat entry, Catalog.add nameOf cat node service entry.2) l cat !! name
    = match (list_to_map l : gmap string T) !! name with
      | Some x => Some (EndpointList.add (node_id node) service x
                          (default [] (cat !! name)))
      | None => cat !! name
      end.
Proof.
  unfold forEach. revert cat.
  induction l as [|[k x] l IH]; intros cat Hnd Hkeyed; simpl; [done|].
  apply NoDup_cons in Hnd as [Hk Hnd].
  rewrite IH; [|done|intros; apply Hkeyed; by right].
  assert (Hx : nameOf x = k) by (apply Hkeyed; left).
  rewrite Catalog_add_lookup, Hx.
  destruct (decide (k = name)) as [->|Hne].
  - rewrite lookup_insert_eq.
    by rewrite (not_elem_of_list_to_map_1 _ name).
  - by rewrite lookup_insert_ne.
Qed.

Lemma addAll_lookup cat node service m name :
  map_Forall (λ k x, nameOf x = k) m →
  addAll nameOf cat node service m !! name
    = match m !! name with
      | Some x => Some (EndpointList.add (node_id node) service x
                          (default [] (cat !! name)))
      | None => cat !! name
      end.
Proof.
  intros Hkeyed. unfold addAll. rewrite addAll_entries_lookup.
  - by rewrite list_to_map_to_list.
  - apply NoDup_fst_map_to_list.
  - intros k x Hin%elem_of_map_to_list. by apply (Hkeyed k x).
Qed.

Lemma addAll_one_per_node cat node service m :
  one_per_node cat → one_per_node (addAll nameOf cat node service m).
Proof.
  intros Hone. unfold addAll. apply (forEach_preserves one_per_node); [|done].
  intros c entry _ Hc. by apply Catalog_add_one_per_node.
Qed.

Lemma dropAbsent_one_per_node cat nodeID m prev :
  one_per_node cat → one_per_node (dropAbsent cat nodeID m prev).
Proof.
  intros Hone. unfold dropAbsent. apply (forEach_preserves one_per_node); [|done].
  intros c entry _ Hc. case_decide; [done|].
  by apply Catalog_remove_one_per_node.
Qed.

Lemma routed_dropAbsent cat nodeID m prev name e :
  routed (dropAbsent cat nodeID m prev) name e ↔
  routed cat name e ∧
  ¬ (ep_nodeID e = nodeID ∧ is_Some (prev !! name) ∧ ¬ indexed m name).
Proof.
  unfold dropAbsent.
  assert (Hgen : ∀ (l : list (string * T)) cat,
    routed (forEach (λ cat entry,
              if decide (indexed m entry.1) then cat
              else Catalog.remove cat entry.1 nodeID) l cat) name e ↔
    routed cat name e ∧
    ¬ (ep_nodeID e = nodeID ∧ name ∈ l.*1 ∧ ¬ indexed m name)).
  { unfold forEach. induction l as [|[k x] l IH]; intros c; simpl.
    - split; [|tauto]. intros H. split; [done|].
      by intros (_ & ?%elem_of_nil & _).
    - rewrite IH. rewrite elem_of_cons.
      destruct (decide (indexed m k)) as [Hk|Hk].
      + split; intros [Hr Hn]; (split; [done|]).
        * intros (? & [->|?] & Hm); [done|]. by apply Hn.
        * intros (? & ? & ?). apply Hn. repeat split; try done. by right.
      + rewrite routed_Catalog_remove.
        split.
        * intros [[Hr Hn1] Hn2]. split; [done|].
          intros (? & [->|?] & ?); [by apply Hn1 | by apply Hn2].
        * intros [Hr Hn]. split; [split; [done|]|].
          -- intros [-> ?]. apply Hn. repeat split; try done. by left.
          -- intros (? & ? & ?). apply Hn. repeat split; try done. by right. }
  rewrite Hgen. split; intros [Hr Hn]; (split; [done|]); intros (? & Hin & ?);
    apply Hn; repeat split; try done.
  - destruct Hin as [x Hx]. apply list_elem_of_fmap. exists (name, x).
    split; [done|]. by apply elem_of_map_to_list.
  - apply list_elem_of_fmap in Hin as ([k x] & -> & Hx%elem_of_map_to_list).
    by eexists.
Qed.
End catalogue_walks.

(** *** One reconciliation, catalogue by catalogue *)

Lemma registerActions_catalog st node service actions :
  reg_actions (registerActions st node service actions)
    = addAll action_name (reg_actions st) node service actions.
Proof.
  unfold registerActions, addAll, forEach. revert st.
  induction (map_to_list actions) as [|entry l IH]; intros st; simpl; [done|].
  by rewrite IH.
Qed.

Lemma registerEvents_catalog st node service events :
  reg_events (registerEvents st node service events)
    = addAll event_name (reg_events st) node service events.
Proof.
  unfold registerEvents, addAll, forEach. revert st.
  induction (map_to_list events) as [|entry l IH]; intros st; simpl; [done|].
  by rewrite IH.
Qed.

Lemma dropOldActions_catalog node svc actions (l : list (string * Action)) st st' :
  svc_actions svc = Some actions →
  forEachM (dropOldAction node svc) l st = Normal st' →
  reg_actions st'
    = forEach (λ cat entry,
          if decide (indexed actions entry.1) then cat
          else Catalog.remove cat entry.1 (node_id node)) l (reg_actions st).
Proof.
  intros Ha. unfold forEach. revert st.
  induction l as [|entry l IH]; intros st; simpl; [by intros [= <-]|].
  destruct (dropOldAction node svc st entry) as [s1|] eqn:Hcb; simpl; [|done].
  intros Hrest. rewrite (IH _ Hrest).
  destruct (dropOldAction_cases _ _ _ _ _ _ Ha Hcb) as [[Hx ->]|[Hn ->]].
  - by rewrite decide_True.
  - by rewrite decide_False.
Qed.

Lemma dropOldEvent_cases node svc events st entry st' :
  svc_events svc = Some events →
  dropOldEvent node svc st entry = Normal st' →
  (indexed events entry.1 ∧ st' = st) ∨
  (¬ indexed events entry.1 ∧ st' = unregisterEvent st node entry.1).
Proof.
  intros He. rewrite dropOldEvent_eq, He.
  case_decide; intros [= <-]; [left | right]; done.
Qed.

Lemma dropOldEvents_catalog node svc events (l : list (string * Event)) st st' :
  svc_events svc = Some events →
  forEachM (dropOldEvent node svc) l st = Normal st' →
  reg_events st'
    = forEach (λ cat entry,
          if decide (indexed events entry.1) then cat
          else Catalog.remove cat entry.1 (node_id node)) l (reg_events st).
Proof.
  intros He. unfold forEach. revert st.
  induction l as [|entry l IH]; intros st; simpl; [by intros [= <-]|].
  destruct (dropOldEvent node svc st entry) as [s1|] eqn:Hcb; simpl; [|done].
  intros Hrest. rewrite (IH _ Hrest).
  destruct (dropOldEvent_cases _ _ _ _ _ _ He Hcb) as [[Hx ->]|[Hn ->]].
  - by rewrite decide_True.
  - by rewrite decide_False.
Qed.

(** The walks over the previous names leave the other catalogue and the
    store alone. *)
Lemma dropOldActions_frame node svc (l : list (string * Action)) st st' :
  forEachM (dropOldAction node svc) l st = Normal st' →
  reg_heap st' = reg_heap st ∧ reg_events st' = reg_events st.
Proof.
  intros H.
  eapply (forEachM_preserves
            (λ s, reg_heap s = reg_heap st ∧ reg_events s = reg_events st));
    [|exact H|done].
  intros s a s' _ (_ & _ & Hh & He)%dropOldAction_same_services [? ?].
  split; congruence.
Qed.

Lemma dropOldEvents_frame node svc (l : list (string * Event)) st st' :
  forEachM (dropOldEvent node svc) l st = Normal st' →
  reg_heap st' = reg_heap st ∧ reg_actions st' = reg_actions st.
Proof.
  intros H.
  eapply (forEachM_preserves
            (λ s, reg_heap s = reg_heap st ∧ reg_actions s = reg_actions st));
    [|exact H|done].
  intros s a s' _ (_ & _ & Hh & He)%dropOldEvent_same_services [? ?].
  split; congruence.
Qed.

Lemma reconcile_actions_found node st svc st' r s :
  complete svc →
  reconcile node st svc = Normal st' →
  ServiceCatalog.get st (svc_name svc) (svc_version svc) (node_id node) = Some r →
  reg_heap st !! r = Some s →
  reg_actions st'
    = dropAbsent (addAll action_name (reg_actions st) node r (actions_of svc))
        (node_id node) (actions_of svc) (service_actions s).
Proof.
  intros [[ma Hma] [me Hme]] Hrec Hget Hs.
  apply reconcile_stages in Hrec
    as (st1 & service & prevActions & prevEvents & st3 & Hfind & H3 & H5).
  rewrite (findOrCreate_found _ _ _ _ _ Hget Hs) in Hfind.
  injection Hfind as <- <- <- <-. rewrite Hma in H3. rewrite Hme in H5.
  apply dropOldEvents_frame in H5 as [_ ->].
  pose proof (registerEvents_frame st3 node r me) as (_&_&_&_&_&_& -> &_).
  rewrite (dropOldActions_catalog _ _ _ _ _ _ Hma H3), registerActions_catalog.
  unfold dropAbsent, actions_of. by rewrite Hma.
Qed.

Lemma reconcile_actions_new node st svc st' :
  complete svc →
  reconcile node st svc = Normal st' →
  ServiceCatalog.get st (svc_name svc) (svc_version svc) (node_id node) = None →
  reg_actions st'
    = addAll action_name (reg_actions st) node (length (reg_heap st))
        (actions_of svc).
Proof.
  intros [[ma Hma] [me Hme]] Hrec Hget.
  apply reconcile_stages in Hrec
    as (st1 & service & prevActions & prevEvents & st3 & Hfind & H3 & H5).
  unfold findOrCreate in Hfind. rewrite Hget in Hfind. simpl in Hfind.
  injection Hfind as <- <- <- <-. rewrite Hma in H3. rewrite Hme in H5.
  injection H3 as <-. injection H5 as <-.
  pose proof (registerEvents_frame
                (registerActions
                   (set_services (reg_services st ++ [length (reg_heap st)])
                      (set_heap (reg_heap st ++
                         [mkServiceItem node (svc_name svc) (svc_version svc)
                            (svc_settings svc) ∅ ∅]) st))
                   node (length (reg_heap st)) ma)
                node (length (reg_heap st)) me) as (_&_&_&_&_&_& -> &_).
  rewrite registerActions_catalog. unfold actions_of. by rewrite Hma.
Qed.

Lemma reconcile_events_found node st svc st' r s :
  complete svc →
  reconcile node st svc = Normal st' →
  ServiceCatalog.get st (svc_name svc) (svc_version svc) (node_id node) = Some r →
  reg_heap st !! r = Some s →
  reg_events st'
    = dropAbsent (addAll event_name (reg_events st) node r (events_of svc))
        (node_id node) (events_of svc) (service_events s).
Proof.
  intros [[ma Hma] [me Hme]] Hrec Hget Hs.
  apply reconcile_stages in Hrec
    as (st1 & service & prevActions & prevEvents & st3 & Hfind & H3 & H5).
  rewrite (findOrCreate_found _ _ _ _ _ Hget Hs) in Hfind.
  injection Hfind as <- <- <- <-. rewrite Hma in H3. rewrite Hme in H5.
  rewrite (dropOldEvents_catalog _ _ _ _ _ _ Hme H5), registerEvents_catalog.
  apply dropOldActions_frame in H3 as [_ ->].
  pose proof (registerActions_frame
                (set_heap (alter (ServiceItem.update svc) r (reg_heap st)) st)
                node r ma) as (_&_&_&_&_&_& -> &_).
  unfold dropAbsent, events_of. by rewrite Hme.
Qed.

Lemma reconcile_events_new node st svc st' :
  complete svc →
  reconcile node st svc = Normal st' →
  ServiceCatalog.get st (svc_name svc) (svc_version svc) (node_id node) = None →
  reg_events st'
    = addAll event_name (reg_events st) node (length (reg_heap st))
        (events_of svc).
Proof.
  intros [[ma Hma] [me Hme]] Hrec Hget.
  apply reconcile_stages in Hrec
    as (st1 & service & prevActions & prevEvents & st3 & Hfind & H3 & H5).
  unfold findOrCreate in Hfind. rewrite Hget in Hfind. simpl in Hfind.
  injection Hfind as <- <- <- <-. rewrite Hma in H3. rewrite Hme in H5.
  injection H3 as <-. injection H5 as <-.
  rewrite registerEvents_catalog.
  pose proof (registerActions_frame
                (set_services (reg_services st ++ [length (reg_heap st)])
                   (set_heap (reg_heap st ++
                      [mkServiceItem node (svc_name svc) (svc_version svc)
                         (svc_settings svc) ∅ ∅]) st))
                node (length (reg_heap st)) ma) as (_&_&_&_&_&_& -> &_).
  unfold events_of. by rewrite Hme.
Qed.

(** *** The store through one reconciliation *)

Lemma key_lookup st r s :
  reg_heap st !! r = Some s →
  (service_key <$> reg_heap st) !! r = Some (service_key s).
Proof. intros Hs. by rewrite list_lookup_fmap, Hs. Qed.

Lemma grows_heap_length node st st' :
  grows node st st' → length (reg_heap st) ≤ length (reg_heap st').
Proof.
  intros (ks & rs & Hk & _). apply (f_equal length) in Hk.
  rewrite length_app, !length_fmap in Hk. lia.
Qed.

Lemma grows_lookup_inv node st st' r k :
  grows node st st' → is_Some (reg_heap st !! r) →
  (service_key <$> reg_heap st') !! r = Some k →
  (service_key <$> reg_heap st) !! r = Some k.
Proof.
  intros (ks & rs & -> & _) Hr%lookup_lt_is_Some.
  by rewrite lookup_app_l by by rewrite length_fmap.
Qed.

Lemma matches_grows node st st' name version nodeID r :
  grows node st st' →
  ServiceCatalog.matches st name version nodeID r →
  ServiceCatalog.matches st' name version nodeID r.
Proof.
  intros Hg. rewrite !matches_key. intros (nd & Hk & Hid).
  exists nd. split; [|done]. by eapply grows_lookup.
Qed.

Lemma matches_grows_inv node st st' name version nodeID r :
  grows node st st' → is_Some (reg_heap st !! r) →
  ServiceCatalog.matches st' name version nodeID r →
  ServiceCatalog.matches st name version nodeID r.
Proof.
  intros Hg Hr. rewrite !matches_key. intros (nd & Hk & Hid).
  exists nd. split; [|done]. by eapply grows_lookup_inv.
Qed.

Lemma grows_services node st st' r :
  grows node st st' → r ∈ reg_services st → r ∈ reg_services st'.
Proof. intros (ks & rs & _ & -> & _) Hr. apply elem_of_app. by left. Qed.

Lemma matches_item st name version nodeID r s :
  reg_heap st !! r = Some s →
  ServiceCatalog.matches st name version nodeID r ↔
  service_name s = name ∧ service_version s = version ∧
  node_id (service_node s) = nodeID.
Proof. intros Hs. unfold ServiceCatalog.matches. by rewrite Hs. Qed.

Lemma registerActions_heap_other st node service actions r :
  r ≠ service →
  reg_heap (registerActions st node service actions) !! r = reg_heap st !! r.
Proof.
  intros Hne. unfold registerActions.
  apply (forEach_preserves (λ s, reg_heap s !! r = reg_heap st !! r)); [|done].
  intros s entry _ Hs. unfold registerAction. simpl.
  by rewrite list_lookup_alter_ne.
Qed.

Lemma registerEvents_heap_other st node service events r :
  r ≠ service →
  reg_heap (registerEvents st node service events) !! r = reg_heap st !! r.
Proof.
  intros Hne. unfold registerEvents.
  apply (forEach_preserves (λ s, reg_heap s !! r = reg_heap st !! r)); [|done].
  intros s entry _ Hs. unfold registerEvent. simpl.
  by rewrite list_lookup_alter_ne.
Qed.

(** A reconciliation changes no service object but that of its
    descriptor. *)
Lemma reconcile_heap_other node st svc st' r :
  reconcile node st svc = Normal st' →
  is_Some (reg_heap st !! r) →
  ServiceCatalog.get st (svc_name svc) (svc_version svc) (node_id node) ≠ Some r →
  reg_heap st' !! r = reg_heap st !! r.
Proof.
  intros Hrec Hr Hget.
  apply reconcile_stages in Hrec
    as (st1 & service & prevActions & prevEvents & st3 & Hfind & H3 & H5).
  assert (H1 : reg_heap st1 !! r = reg_heap st !! r ∧ r ≠ service).
  { unfold findOrCreate in Hfind.
    destruct (ServiceCatalog.get st _ _ _) as [r'|].
    - injection Hfind as <- <- _ _. simpl.
      assert (r ≠ r') by congruence. by rewrite list_lookup_alter_ne.
    - injection Hfind as <- <- _ _. simpl.
      apply lookup_lt_is_Some in Hr. rewrite lookup_app_l by done.
      split; [done | lia]. }
  destruct H1 as [H1 Hne].
  assert (H3' : reg_heap st3 !! r = reg_heap st !! r).
  { rewrite <- H1.
    destruct prevActions.
    - apply dropOldActions_frame in H3 as [-> _].
      destruct (svc_actions svc); [by apply registerActions_heap_other | done].
    - injection H3 as <-.
      destruct (svc_actions svc); [by apply registerActions_heap_other | done]. }
  rewrite <- H3'.
  destruct prevEvents.
  - apply dropOldEvents_frame in H5 as [-> _].
    destruct (svc_events svc); [by apply registerEvents_heap_other | done].
  - injection H5 as <-.
    destruct (svc_events svc); [by apply registerEvents_heap_other | done].
Qed.

(** The service a reconciliation works on carries the key of the
    descriptor. *)
Lemma reconcile_service node st svc st' :
  reconcile node st svc = Normal st' →
  ∃ r, r ∈ reg_services st' ∧
       ServiceCatalog.matches st' (svc_name svc) (svc_version svc) (node_id node) r ∧
       match ServiceCatalog.get st (svc_name svc) (svc_version svc) (node_id node) with
       | Some r' => r = r' ∧ reg_services st' = reg_services st
       | None => r = length (reg_heap st) ∧
                 reg_services st' = reg_services st ++ [r]
       end.
Proof.
  intros Hrec. pose proof (reconcile_grows _ _ _ _ Hrec) as Hg.
  apply reconcile_services in Hrec as [_ H].
  destruct (ServiceCatalog.get st _ _ _) as [r|] eqn:Hget.
  - exists r. apply get_Some_matches in Hget as [Hin Hm].
    split; [by eapply grows_services|]. split; [by eapply matches_grows|].
    by destruct H.
  - destruct H as [Hk Hr]. exists (length (reg_heap st)).
    split; [rewrite Hr; apply elem_of_app; right; left|].
    split; [|done]. apply matches_key. exists node. split; [|done].
    rewrite Hk, lookup_app_r by by rewrite length_fmap.
    by rewrite length_fmap, Nat.sub_diag.
Qed.

Lemma reconcile_catalogue_live node st svc st' :
  reconcile node st svc = Normal st' →
  catalogue_live st → catalogue_live st'.
Proof.
  intros Hrec Hlive r Hr.
  pose proof (reconcile_grows _ _ _ _ Hrec) as Hg.
  destruct (reconcile_service _ _ _ _ Hrec) as (r' & _ & Hm & Hcase).
  apply reconcile_services in Hrec as [_ Hsame].
  assert (Hold : r ∈ reg_services st → is_Some (reg_heap st' !! r)).
  { intros Hin. apply Hlive, lookup_lt_is_Some in Hin.
    apply lookup_lt_is_Some. apply grows_heap_length in Hg. lia. }
  destruct (ServiceCatalog.get st _ _ _) as [r0|].
  - apply Hold. destruct Hsame as [_ Hs]. by rewrite <- Hs.
  - destruct Hcase as [-> Hs]. rewrite Hs in Hr.
    apply elem_of_app in Hr as [Hr|Hr%list_elem_of_singleton]; [by apply Hold|].
    subst r. unfold ServiceCatalog.matches in Hm.
    by destruct (reg_heap st' !! length (reg_heap st)).
Qed.

Lemma filter_ext_in {A} (P Q : A → Prop)
  `{!∀ x, Decision (P x)} `{!∀ x, Decision (Q x)} (l : list A) :
  (∀ x, x ∈ l → P x ↔ Q x) → filter P l = filter Q l.
Proof.
  induction l as [|x l IH]; intros Hext; [done|].
  rewrite !filter_cons.
  destruct (decide (P x)) as [HP|HP], (decide (Q x)) as [HQ|HQ].
  - f_equal. apply IH. intros y Hy. apply Hext. by right.
  - destruct HQ. apply Hext; [left | done].
  - destruct HP. apply Hext; [left | done].
  - apply IH. intros y Hy. apply Hext. by right.
Qed.

Lemma get_head st name version nodeID r rest :
  filter (ServiceCatalog.matches st name version nodeID) (reg_services st)
    = r :: rest →
  ServiceCatalog.get st name version nodeID = Some r.
Proof. intros H. unfold ServiceCatalog.get. by rewrite H. Qed.

Lemma get_Some_filter st name version nodeID r :
  ServiceCatalog.get st name version nodeID = Some r →
  ∃ rest,
    filter (ServiceCatalog.matches st name version nodeID) (reg_services st)
      = r :: rest.
Proof.
  unfold ServiceCatalog.get. destruct (filter _ _) as [|r0 rest]; [done|].
  intros [= ->]. by eexists.
Qed.

Lemma reconcile_found_by_key node st svc st' :
  reconcile node st svc = Normal st' →
  catalogue_live st →
  found_by_key (node_id node) st → found_by_key (node_id node) st'.
Proof.
  intros Hrec Hlive Hfound r s' Hr Hs' Hid.
  pose proof (reconcile_grows _ _ _ _ Hrec) as Hg.
  destruct (reconcile_service _ _ _ _ Hrec) as (rd & _ & Hmd & Hcase).
  apply reconcile_services in Hrec as [_ Hsame].
  (* the services recorded before are found as before *)
  assert (Hfilter : ∀ name version,
    filter (ServiceCatalog.matches st' name version (node_id node)) (reg_services st)
    = filter (ServiceCatalog.matches st name version (node_id node)) (reg_services st)).
  { intros name version. apply filter_ext_in. intros r0 Hr0. split.
    - apply (matches_grows_inv node); [done | by apply Hlive].
    - by apply (matches_grows node). }
  assert (Hold : r ∈ reg_services st →
    ∃ rest, filter (ServiceCatalog.matches st (service_name s') (service_version s')
                      (node_id node)) (reg_services st) = r :: rest).
  { intros Hin. destruct (Hlive r Hin) as [s Hs].
    assert (Hk : service_key s = service_key s').
    { pose proof (grows_lookup node st st' r _ Hg (key_lookup _ _ _ Hs)) as Hk.
      rewrite (key_lookup _ _ _ Hs') in Hk. congruence. }
    injection Hk as Hnd Hn Hv. rewrite <- Hn, <- Hv.
    apply get_Some_filter. apply Hfound; [done..|]. by rewrite Hnd. }
  destruct (ServiceCatalog.get st (svc_name svc) (svc_version svc) (node_id node))
    as [r0|] eqn:Hget.
  - destruct Hsame as [_ Hs]. destruct Hcase as [_ _]. rewrite Hs in Hr.
    destruct (Hold Hr) as [rest Hrest].
    eapply get_head. by rewrite Hs, Hfilter, Hrest.
  - destruct Hcase as [-> Hs]. rewrite Hs in Hr.
    apply elem_of_app in Hr as [Hr|Hr%list_elem_of_singleton].
    + destruct (Hold Hr) as [rest Hrest].
      eapply get_head. by rewrite Hs, filter_app, Hfilter, Hrest.
    + subst r. unfold ServiceCatalog.matches in Hmd. rewrite Hs' in Hmd.
      destruct Hmd as (Hn & Hv & _). rewrite Hn, Hv.
      eapply get_head. rewrite Hs, filter_app, Hfilter.
      unfold ServiceCatalog.get in Hget. apply head_None in Hget. rewrite Hget.
      rewrite filter_cons_True; [done|].
      unfold ServiceCatalog.matches. by rewrite Hs'.
Qed.

(** *** Routing through the registration of a descriptor's map *)

Section routing.
Context {T : Type} (nameOf : T → string).
Implicit Types (cat : gmap string (list (Endpoint T))) (m : gmap string T).

Lemma endpointOf_is_Some cat name nodeID :
  is_Some (endpointOf cat name nodeID) ↔
  ∃ e, routed cat name e ∧ ep_nodeID e = nodeID.
Proof.
  split.
  - intros [e He]. exists e. by apply endpointOf_Some.
  - intros (e & Hr & Hid).
    destruct (endpointOf cat name nodeID) eqn:Hnone; [done|].
    rewrite endpointOf_None in Hnone. by destruct (Hnone e).
Qed.

Lemma EndpointList_add_elem_own nodeID r x (l : list (Endpoint T)) e :
  NoDup (ep_nodeID <$> l) →
  e ∈ EndpointList.add nodeID r x l → ep_nodeID e = nodeID →
  ep_service e = r.
Proof.
  intros Hnd He Hid.
  destruct (endpointsFor_add nodeID r x l Hnd) as [av Hav].
  assert (He' : e ∈ endpointsFor (EndpointList.add nodeID r x l) nodeID)
    by by apply list_elem_of_filter.
  rewrite Hav in He'. apply list_elem_of_singleton in He'. by subst e.
Qed.

Lemma EndpointList_add_has nodeID r x (l : list (Endpoint T)) :
  NoDup (ep_nodeID <$> l) →
  ∃ e, e ∈ EndpointList.add nodeID r x l ∧ ep_nodeID e = nodeID ∧
       ep_service e = r.
Proof.
  intros Hnd. destruct (endpointsFor_add nodeID r x l Hnd) as [av Hav].
  exists (mkEndpoint nodeID r x av). split; [|done].
  assert (He : mkEndpoint nodeID r x av
               ∈ endpointsFor (EndpointList.add nodeID r x l) nodeID)
    by (rewrite Hav; left).
  by apply list_elem_of_filter in He as [_ ?].
Qed.

Lemma default_NoDup cat name :
  one_per_node cat → NoDup (ep_nodeID <$> default [] (cat !! name)).
Proof.
  intros Hone. destruct (cat !! name) as [l|] eqn:Hl; simpl.
  - by apply (Hone name).
  - apply NoDup_nil_2.
Qed.

(** Under a declared name the node's endpoint is the one just registered. *)
Lemma routed_addAll_declared cat node r m name x e :
  map_Forall (λ k x, nameOf x = k) m →
  one_per_node cat →
  m !! name = Some x →
  routed (addAll nameOf cat node r m) name e →
  ep_nodeID e = node_id node → ep_service e = r.
Proof.
  intros Hkeyed Hone Hx (l & Hl & He) Hid.
  rewrite addAll_lookup, Hx in Hl by done. injection Hl as <-.
  eapply EndpointList_add_elem_own; [|done..]. by apply default_NoDup.
Qed.

Lemma routed_addAll_has cat node r m name x :
  map_Forall (λ k x, nameOf x = k) m →
  one_per_node cat →
  m !! name = Some x →
  ∃ e, routed (addAll nameOf cat node r m) name e ∧
       ep_nodeID e = node_id node ∧ ep_service e = r.
Proof.
  intros Hkeyed Hone Hx.
  destruct (EndpointList_add_has (node_id node) r x (default [] (cat !! name)))
    as (e & He & Hid & Hs); [by apply default_NoDup|].
  exists e. split; [|done]. eexists. split; [|exact He].
  by rewrite addAll_lookup, Hx.
Qed.

Lemma routed_addAll_undeclared cat node r m name e :
  map_Forall (λ k x, nameOf x = k) m →
  m !! name = None →
  routed (addAll nameOf cat node r m) name e ↔ routed cat name e.
Proof.
  intros Hkeyed Hx. unfold routed. by rewrite addAll_lookup, Hx.
Qed.

Lemma dropAbsent_empty cat nodeID m : dropAbsent cat nodeID m ∅ = cat.
Proof. unfold dropAbsent. by rewrite map_to_list_empty. Qed.
End routing.

(** *** The services' own maps after a reconciliation *)

Lemma registerActions_own st node service actions key action :
  is_Some (reg_heap st !! service) →
  actions !! key = Some action →
  ∃ s, reg_heap (registerActions st node service actions) !! service = Some s ∧
       is_Some (service_actions s !! action_name action).
Proof.
  intros Hlive Hkey. unfold registerActions.
  apply (forEach_establishes
           (λ st', is_Some (reg_heap st' !! service))
           (λ st', ∃ s, reg_heap st' !! service = Some s ∧
                        is_Some (service_actions s !! action_name action))
           _ _ _ (key, action)); try done.
  - by apply elem_of_map_to_list.
  - intros st' entry [s Hs]. unfold registerAction. simpl.
    rewrite list_lookup_alter_eq, Hs. by eexists.
  - intros st' entry _ (s & Hs & Hheld). unfold registerAction. simpl.
    rewrite list_lookup_alter_eq, Hs. simpl. eexists. split; [done|]. simpl.
    rewrite lookup_insert. case_decide; [by eexists | done].
  - intros st' [s Hs]. unfold registerAction. simpl.
    rewrite list_lookup_alter_eq, Hs. simpl. eexists. split; [done|]. simpl.
    rewrite lookup_insert_eq. by eexists.
Qed.

Lemma registerEvents_own st node service events key event :
  is_Some (reg_heap st !! service) →
  events !! key = Some event →
  ∃ s, reg_heap (registerEvents st node service events) !! service = Some s ∧
       is_Some (service_events s !! event_name event).
Proof.
  intros Hlive Hkey. unfold registerEvents.
  apply (forEach_establishes
           (λ st', is_Some (reg_heap st' !! service))
           (λ st', ∃ s, reg_heap st' !! service = Some s ∧
                        is_Some (service_events s !! event_name event))
           _ _ _ (key, event)); try done.
  - by apply elem_of_map_to_list.
  - intros st' entry [s Hs]. unfold registerEvent. simpl.
    rewrite list_lookup_alter_eq, Hs. by eexists.
  - intros st' entry _ (s & Hs & Hheld). unfold registerEvent. simpl.
    rewrite list_lookup_alter_eq, Hs. simpl. eexists. split; [done|]. simpl.
    rewrite lookup_insert. case_decide; [by eexists | done].
  - intros st' [s Hs]. unfold registerEvent. simpl.
    rewrite list_lookup_alter_eq, Hs. simpl. eexists. split; [done|]. simpl.
    rewrite lookup_insert_eq. by eexists.
Qed.

Lemma fmap_lookup_held {V} (f : ServiceItem → gmap string V)
  (h h' : list ServiceItem) r s name :
  f <$> h' = f <$> h →
  h !! r = Some s → is_Some (f s !! name) →
  ∃ s', h' !! r = Some s' ∧ is_Some (f s' !! name).
Proof.
  intros Heq Hs Hheld.
  assert (Hr : (f <$> h') !! r = Some (f s)) by by rewrite Heq, list_lookup_fmap, Hs.
  rewrite list_lookup_fmap in Hr. destruct (h' !! r) as [s'|]; [|done].
  injection Hr as Hr. exists s'. by rewrite Hr.
Qed.

(** The service of a reconciled descriptor holds the names the descriptor
    declares. *)
Lemma reconcile_actions_own node st svc st' r name :
  complete svc →
  map_Forall (λ k a, action_name a = k) (actions_of svc) →
  catalogue_live st →
  reconcile node st svc = Normal st' →
  match ServiceCatalog.get st (svc_name svc) (svc_version svc) (node_id node) with
  | Some r' => r = r'
  | None => r = length (reg_heap st)
  end →
  is_Some (actions_of svc !! name) →
  ∃ s, reg_heap st' !! r = Some s ∧ is_Some (service_actions s !! name).
Proof.
  intros [[ma Hma] [me Hme]] Hkeyed Hlive Hrec Hr [a Ha].
  unfold actions_of in Hkeyed, Ha. rewrite Hma in Hkeyed, Ha. simpl in *.
  apply reconcile_stages in Hrec
    as (st1 & service & prevActions & prevEvents & st3 & Hfind & H3 & H5).
  rewrite Hma in H3. rewrite Hme in H5.
  assert (H1 : service = r ∧ is_Some (reg_heap st1 !! r)).
  { unfold findOrCreate in Hfind.
    destruct (ServiceCatalog.get st _ _ _) as [r'|] eqn:Hget.
    - injection Hfind as <- <- _ _. subst r'. split; [done|]. simpl.
      apply get_Some_matches in Hget as [Hin _].
      destruct (Hlive r Hin) as [s Hs]. rewrite list_lookup_alter_eq, Hs.
      by eexists.
    - injection Hfind as <- <- _ _. subst r. split; [done|]. simpl.
      rewrite lookup_app_r, Nat.sub_diag by done. by eexists. }
  destruct H1 as [-> H1].
  destruct (registerActions_own st1 node r ma name a H1 Ha) as (s2 & Hs2 & Hheld).
  rewrite (Hkeyed name a Ha) in Hheld.
  assert (Hs3 : reg_heap st3 !! r = Some s2).
  { destruct prevActions; [|by injection H3 as <-].
    by apply dropOldActions_frame in H3 as [-> _]. }
  pose proof (registerEvents_frame st3 node r me) as (_&_&_&_& Hown4 &_).
  destruct (fmap_lookup_held service_actions _ _ r s2 name Hown4 Hs3 Hheld)
    as (s4 & Hs4 & Hheld4).
  exists s4. split; [|done].
  destruct prevEvents; [|by injection H5 as <-].
  by apply dropOldEvents_frame in H5 as [-> _].
Qed.

Lemma reconcile_events_own node st svc st' r name :
  complete svc →
  map_Forall (λ k e, event_name e = k) (events_of svc) →
  catalogue_live st →
  reconcile node st svc = Normal st' →
  match ServiceCatalog.get st (svc_name svc) (svc_version svc) (node_id node) with
  | Some r' => r = r'
  | None => r = length (reg_heap st)
  end →
  is_Some (events_of svc !! name) →
  ∃ s, reg_heap st' !! r = Some s ∧ is_Some (service_events s !! name).
Proof.
  intros [[ma Hma] [me Hme]] Hkeyed Hlive Hrec Hr [a Ha].
  unfold events_of in Hkeyed, Ha. rewrite Hme in Hkeyed, Ha. simpl in *.
  apply reconcile_stages in Hrec
    as (st1 & service & prevActions & prevEvents & st3 & Hfind & H3 & H5).
  rewrite Hma in H3. rewrite Hme in H5.
  assert (H1 : service = r ∧ is_Some (reg_heap st1 !! r)).
  { unfold findOrCreate in Hfind.
    destruct (ServiceCatalog.get st _ _ _) as [r'|] eqn:Hget.
    - injection Hfind as <- <- _ _. subst r'. split; [done|]. simpl.
      apply get_Some_matches in Hget as [Hin _].
      destruct (Hlive r Hin) as [s Hs]. rewrite list_lookup_alter_eq, Hs.
      by eexists.
    - injection Hfind as <- <- _ _. subst r. split; [done|]. simpl.
      rewrite lookup_app_r, Nat.sub_diag by done. by eexists. }
  destruct H1 as [-> H1].
  assert (H3' : is_Some (reg_heap st3 !! r)).
  { pose proof (registerActions_frame st1 node r ma) as (_&_&_& Hk &_).
    assert (Hlen : length (reg_heap (registerActions st1 node r ma))
                   = length (reg_heap st1)).
    { by rewrite <- (length_fmap service_key), Hk, length_fmap. }
    apply lookup_lt_is_Some. apply lookup_lt_is_Some in H1.
    destruct prevActions.
    - apply dropOldActions_frame in H3 as [-> _]. lia.
    - injection H3 as <-. lia. }
  destruct (registerEvents_own st3 node r me name a H3' Ha) as (s4 & Hs4 & Hheld).
  rewrite (Hkeyed name a Ha) in Hheld.
  exists s4. split; [|done].
  destruct prevEvents; [|by injection H5 as <-].
  by apply dropOldEvents_frame in H5 as [-> _].
Qed.

(** *** The first walk keeps [reconciled] *)

Section first_walk.
Context {T : Type} (nameOf : T → string).
Context (cat : Registry → gmap string (list (Endpoint T))).
Context (own : ServiceItem → gmap string T).
Context (decl : Svc → gmap string T).

(** What one reconciliation does to the catalogue of this kind. *)
Hypothesis step_found : ∀ node st svc st' r s,
  complete svc →
  reconcile node st svc = Normal st' →
  ServiceCatalog.get st (svc_name svc) (svc_version svc) (node_id node) = Some r →
  reg_heap st !! r = Some s →
  cat st' = dropAbsent (addAll nameOf (cat st) node r (decl svc))
              (node_id node) (decl svc) (own s).
Hypothesis step_new : ∀ node st svc st',
  complete svc →
  reconcile node st svc = Normal st' →
  ServiceCatalog.get st (svc_name svc) (svc_version svc) (node_id node) = None →
  cat st' = addAll nameOf (cat st) node (length (reg_heap st)) (decl svc).
Hypothesis step_own : ∀ node st svc st' r name,
  complete svc →
  map_Forall (λ k x, nameOf x = k) (decl svc) →
  catalogue_live st →
  reconcile node st svc = Normal st' →
  match ServiceCatalog.get st (svc_name svc) (svc_version svc) (node_id node) with
  | Some r' => r = r'
  | None => r = length (reg_heap st)
  end →
  is_Some (decl svc !! name) →
  ∃ s, reg_heap st' !! r = Some s ∧ is_Some (own s !! name).

Context (node : Node) (serviceList : list Svc) (st0 : Registry).
Hypothesis Hcomplete : Forall complete serviceList.
Hypothesis Hkeyed :
  ∀ svc, svc ∈ serviceList → map_Forall (λ k x, nameOf x = k) (decl svc).
Hypothesis Hlive0 : catalogue_live st0.
Hypothesis Hnames : names_owned own decl (node_id node) serviceList st0.
Hypothesis Hplain : holds_plain own (node_id node) st0.

Lemma reconciled_start :
  found_by_key (node_id node) st0 →
  one_per_node (cat st0) →
  endpoints_backed cat own (node_id node) st0 →
  reconciled cat own decl node st0 [] st0.
Proof.
  intros Hfound Hone Hbacked. repeat split; try done.
  - apply grows_refl.
  - intros name e Hr Hid. right.
    destruct (Hbacked name e Hr Hid) as (s & ? & ? & ? & ?).
    exists s. repeat split; try done. apply not_elem_of_nil.
  - by intros svc name ?%elem_of_nil.
Qed.

Lemma reconciled_step done_ svc st st' :
  reconciled cat own decl node st0 done_ st →
  svc ∈ serviceList →
  (∀ d, d ∈ done_ → d ∈ serviceList) →
  svc_key svc ∉ svc_key <$> done_ →
  reconcile node st svc = Normal st' →
  reconciled cat own decl node st0 (done_ ++ [svc]) st'.
Proof.
  intros (Hg & Hlive & Hfound & Hone & Hnew & Hsame & Hend & Hserved)
    Hin Hdone Hfresh Hrec.
  assert (Hc : complete svc) by (rewrite Forall_forall in Hcomplete; auto).
  pose proof (Hkeyed svc Hin) as Hk.
  pose proof (reconcile_grows _ _ _ _ Hrec) as Hg'.
  destruct (reconcile_service _ _ _ _ Hrec) as (rd & Hrd & Hmd & Hcase).
  (* the catalogue after the step, and what the service held before *)
  assert (Hcat : ∃ prev,
    cat st' = dropAbsent (addAll nameOf (cat st) node rd (decl svc))
                (node_id node) (decl svc) prev ∧
    (∀ name, is_Some (prev !! name) →
       ∃ s, rd ∈ reg_services st0 ∧ reg_heap st0 !! rd = Some s ∧
            node_id (service_node s) = node_id node ∧
            (service_name s, service_version s) = svc_key svc ∧
            is_Some (own s !! name)) ∧
    (∀ s, ServiceCatalog.get st (svc_name svc) (svc_version svc) (node_id node)
            = Some rd →
          reg_heap st !! rd = Some s → prev = own s)).
  { destruct (ServiceCatalog.get st (svc_name svc) (svc_version svc) (node_id node))
      as [r|] eqn:Hget.
    - destruct Hcase as [-> _].
      pose proof (get_Some_matches _ _ _ _ _ Hget) as [Hr Hm].
      destruct (Hlive r Hr) as [s Hs].
      exists (own s). split; [by eapply step_found|]. split.
      + intros name Hname.
        assert (Hr0 : r ∈ reg_services st0).
        { destruct (decide (r ∈ reg_services st0)) as [|Hnot]; [done|].
          destruct (Hnew r Hr Hnot) as (d & Hd & Hmd').
          rewrite (matches_item _ _ _ _ _ _ Hs) in Hm.
          rewrite (matches_item _ _ _ _ _ _ Hs) in Hmd'.
          destruct Hm as (Hn & Hv & _), Hmd' as (Hn' & Hv' & _).
          destruct Hfresh. apply list_elem_of_fmap. exists d.
          split; [|done]. unfold svc_key. congruence. }
        destruct (Hlive0 r Hr0) as [s0 Hs0].
        pose proof (grows_lookup node st0 st r _ Hg (key_lookup _ _ _ Hs0)) as Hk0.
        rewrite (key_lookup _ _ _ Hs) in Hk0. injection Hk0 as Hnd Hn Hv.
        rewrite (matches_item _ _ _ _ _ _ Hs) in Hm.
        destruct Hm as (Hn' & Hv' & Hid).
        assert (Hs' : reg_heap st !! r = Some s0).
        { apply Hsame; [done..|congruence|].
          rewrite <- Hn, <- Hv, Hn', Hv'. exact Hfresh. }
        assert (s = s0) by congruence. subst s0.
        exists s. repeat split; try done. unfold svc_key. congruence.
      + intros s1 _ Hs1. congruence.
    - destruct Hcase as [-> _]. exists ∅. split; [|split].
      + rewrite dropAbsent_empty. by eapply step_new.
      + intros name [x Hx]. by rewrite lookup_empty in Hx.
      + intros s [=]. }
  destruct Hcat as (prev & Hcat & Hprev & Hprev').
  assert (Hadd : one_per_node (addAll nameOf (cat st) node rd (decl svc)))
    by by apply addAll_one_per_node.
  split; [by eapply grows_trans|].
  split; [by eapply reconcile_catalogue_live|].
  split; [by eapply reconcile_found_by_key|].
  split; [rewrite Hcat; by apply dropAbsent_one_per_node|].
  split; [|split; [|split]].
  - (* services added by the walk *)
    intros r Hr Hnot.
    destruct (decide (r ∈ reg_services st)) as [Hold|Hnold].
    + destruct (Hnew r Hold Hnot) as (d & Hd & Hm). exists d.
      split; [apply elem_of_app; by left|]. by eapply matches_grows.
    + exists svc. split; [apply elem_of_app; right; left|].
      destruct (ServiceCatalog.get st _ _ _).
      * destruct Hcase as [_ Hs]. by rewrite Hs in Hr.
      * destruct Hcase as [_ Hs]. rewrite Hs in Hr.
        apply elem_of_app in Hr as [?|Hr%list_elem_of_singleton];
          [done | by subst r].
  - (* services not reconciled yet *)
    intros r s Hr Hs Hid Hnotin.
    rewrite fmap_app, elem_of_app in Hnotin.
    assert (Hs' : reg_heap st !! r = Some s)
      by (apply Hsame; try done; tauto).
    rewrite <- Hs'. eapply reconcile_heap_other; [done|by eexists|].
    intros Hget. apply get_Some_matches in Hget as [_ Hm].
    rewrite (matches_item _ _ _ _ _ _ Hs') in Hm. destruct Hm as (Hn & Hv & _).
    apply Hnotin. right. simpl. rewrite Hn, Hv. left.
  - (* the endpoints of the node *)
    intros name e Hre Hid. rewrite Hcat in Hre.
    apply routed_dropAbsent in Hre as [Hre Hkept].
    destruct (decl svc !! name) as [x|] eqn:Hx.
    + left.
      rewrite (routed_addAll_declared nameOf _ _ _ _ _ _ _ Hk Hone Hx Hre Hid).
      destruct (step_own node st svc st' rd name) as (s & Hs & Hheld);
        try done.
      { destruct (ServiceCatalog.get st _ _ _); by destruct Hcase. }
      exists svc, s. split; [apply elem_of_app; right; left|].
      split; [by eexists|]. done.
    + apply (routed_addAll_undeclared nameOf) in Hre; [|done..].
      destruct (Hend name e Hre Hid)
        as [(d & s & Hd & Hdecl & Hes & Hm & Hs & Hheld)
           |(s & Hes & Hs & Hids & Hown & Hnotin)].
      * left. exists d, s. split; [apply elem_of_app; by left|].
        split; [done|]. split; [by eapply grows_services|].
        split; [by eapply matches_grows|]. split; [|done].
        rewrite <- Hs. eapply reconcile_heap_other; [done|by eexists|].
        intros Hget. apply get_Some_matches in Hget as [_ Hm'].
        rewrite (matches_item _ _ _ _ _ _ Hs) in Hm.
        rewrite (matches_item _ _ _ _ _ _ Hs) in Hm'.
        destruct Hm as (Hn & Hv & _), Hm' as (Hn' & Hv' & _).
        apply Hfresh. apply list_elem_of_fmap. exists d. split; [|done].
        unfold svc_key. congruence.
      * right. exists s. repeat split; try done.
        rewrite fmap_app, elem_of_app. intros [?|Heq]; [done|].
        apply list_elem_of_singleton in Heq.
        (* the service is the one being reconciled: the name was dropped *)
        assert (Hs' : reg_heap st !! ep_service e = Some s) by by apply Hsame.
        assert (Hget : ServiceCatalog.get st (svc_name svc) (svc_version svc)
                         (node_id node) = Some (ep_service e)).
        { injection Heq as Hn Hv. rewrite <- Hn, <- Hv.
          apply Hfound; [by eapply grows_services | done..]. }
        rewrite Hget in Hcase. destruct Hcase as [-> _].
        apply Hkept. rewrite (Hprev' s Hget Hs').
        split; [done|]. split; [done|]. intros [[? Hd]|Hproto].
        -- by rewrite Hx in Hd.
        -- by eapply Hplain.
  - (* the names the reconciled descriptors declare *)
    intros d name Hd Hdecl.
    assert (Hnew_ep : ∀ x, decl svc !! name = Some x →
      ∃ e svc', routed (cat st') name e ∧ ep_nodeID e = node_id node ∧
        svc' ∈ done_ ++ [svc] ∧ ep_service e ∈ reg_services st' ∧
        ServiceCatalog.matches st' (svc_name svc') (svc_version svc')
          (node_id node) (ep_service e)).
    { intros x Hx.
      destruct (routed_addAll_has nameOf (cat st) node rd (decl svc) name x)
        as (e & Hre & Hid & Hes); [done..|].
      exists e, svc. rewrite Hes. split; [|split; [done|split]].
      - rewrite Hcat. apply routed_dropAbsent. split; [done|].
        intros (_ & _ & Hnone). apply Hnone. left. by eexists.
      - apply elem_of_app. right. left.
      - done. }
    destruct (decl svc !! name) as [x|] eqn:Hx; [by eapply Hnew_ep|].
    apply elem_of_app in Hd as [Hd|Hd%list_elem_of_singleton];
      [|subst d; rewrite Hx in Hdecl; by destruct Hdecl].
    destruct (Hserved d name Hd Hdecl) as (e & d' & Hre & Hid & Hd' & Hes & Hm).
    exists e, d'. split; [|split; [done|split; [apply elem_of_app; by left|]]].
    + rewrite Hcat. apply routed_dropAbsent.
      split; [by apply (routed_addAll_undeclared nameOf)|].
      intros (_ & Hheld & _).
      destruct (Hprev name Hheld) as (s & Hr0 & Hs0 & Hids & Hkey & Hown).
      destruct (Hnames rd s name d Hr0 Hs0 Hids Hown (Hdone d Hd) Hdecl) as [Hn Hv].
      apply Hfresh. apply list_elem_of_fmap. exists d. split; [|done].
      rewrite <- Hkey. unfold svc_key. congruence.
    + split; [by eapply grows_services | by eapply matches_grows].
Qed.

Lemma reconciled_walk rest done_ st st' :
  reconciled cat own decl node st0 done_ st →
  (∀ d, d ∈ done_ ++ rest → d ∈ serviceList) →
  NoDup (svc_key <$> done_ ++ rest) →
  forEachM (reconcile node) rest st = Normal st' →
  reconciled cat own decl node st0 (done_ ++ rest) st'.
Proof.
  revert done_ st. induction rest as [|svc rest IH]; intros done_ st Hinv Hsub Hnd.
  - simpl. intros [= <-]. by rewrite app_nil_r.
  - simpl. destruct (reconcile node st svc) as [st1|] eqn:Hrec; [|done]. simpl.
    intros Hrest.
    replace (done_ ++ svc :: rest) with ((done_ ++ [svc]) ++ rest) in *
      by by rewrite <- app_assoc.
    apply (IH _ st1); try done.
    apply (reconciled_step _ _ st); try done.
    + apply Hsub. apply elem_of_app. left. apply elem_of_app. right. left.
    + intros d Hd. apply Hsub. apply elem_of_app. left. apply elem_of_app. by left.
    + rewrite !fmap_app in Hnd. apply NoDup_app in Hnd as [Hnd _].
      apply NoDup_app in Hnd as (_ & Hnd & _). intros Hin.
      apply (Hnd _ Hin). left.
Qed.
End first_walk.

(** *** The second walk removes the stale services and their endpoints *)

Lemma filter_comm {A} (P Q : A → Prop)
  `{!∀ x, Decision (P x)} `{!∀ x, Decision (Q x)} (l : list A) :
  filter P (filter Q l) = filter Q (filter P l).
Proof. rewrite !list_filter_filter. apply list_filter_iff. tauto. Qed.

Lemma removeService_found_by_key nodeID st r :
  found_by_key nodeID st → found_by_key nodeID (ServiceCatalog.removeService st r).
Proof.
  intros Hfound r0 s Hr0 Hs Hid. simpl in Hr0, Hs.
  apply list_elem_of_filter in Hr0 as [Hne Hr0].
  destruct (get_Some_filter _ _ _ _ _ (Hfound r0 s Hr0 Hs Hid)) as [rest Hrest].
  eapply get_head. simpl.
  change (ServiceCatalog.matches (ServiceCatalog.removeService st r))
    with (ServiceCatalog.matches st).
  change (ServiceCatalog.matches_dec (ServiceCatalog.removeService st r))
    with (ServiceCatalog.matches_dec st).
  rewrite filter_comm, Hrest. by rewrite filter_cons_True.
Qed.

Lemma removeOld_found_by_key nodeID node serviceList st r :
  found_by_key nodeID st → found_by_key nodeID (removeOld node serviceList st r).
Proof.
  intros Hfound.
  destruct (removeOld_cases node serviceList st r)
    as [->|(s & r' & _ & _ & _ & _ & ->)]; [done|].
  by apply removeService_found_by_key.
Qed.

Lemma removeOld_services_subset node serviceList st r r0 :
  r0 ∈ reg_services (removeOld node serviceList st r) → r0 ∈ reg_services st.
Proof.
  destruct (removeOld_cases node serviceList st r)
    as [->|(s & r' & _ & _ & _ & _ & ->)]; [done|].
  simpl. by intros [_ ?]%list_elem_of_filter.
Qed.

Lemma removeOldServices_subset st node serviceList r :
  r ∈ reg_services (removeOldServices st node serviceList) → r ∈ reg_services st.
Proof.
  unfold removeOldServices.
  apply (forEach_preserves (λ s, r ∈ reg_services s → r ∈ reg_services st));
    [|done].
  intros s a _ Hs Hr. by apply removeOld_services_subset, Hs in Hr.
Qed.

(** A stale service of [node] is gone after the walk. *)
Lemma removeOldServices_removes_stale st node serviceList r s :
  node_id node ≠ EmptyString →
  found_by_key (node_id node) st →
  r ∈ reg_services st →
  reg_heap st !! r = Some s →
  same_object (service_node s) node →
  node_id (service_node s) = node_id node →
  ¬ listed serviceList s →
  r ∉ reg_services (removeOldServices st node serviceList).
Proof.
  intros Hid Hfound Hr Hs Hobj Hown Hstale. unfold removeOldServices.
  apply (forEach_establishes
           (λ st', reg_heap st' = reg_heap st ∧ found_by_key (node_id node) st')
           (λ st', r ∉ reg_services st') _ _ _ r); try done.
  - intros st' r0 [Hh Hf]. split.
    + destruct (removeOld_heap node serviceList st' r0) as [-> _]. done.
    + by apply removeOld_found_by_key.
  - intros st' r0 _ Hnot Hin. by apply removeOld_services_subset, Hnot in Hin.
  - intros st' [Hh Hf]. unfold removeOld. rewrite Hh, Hs.
    rewrite decide_True by done.
    destruct (forEach _ serviceList false) eqn:Hexist.
    { apply exist_flag in Hexist as [?|?]; done. }
    unfold unregisterService, ServiceCatalog.remove.
    rewrite js_or_nonempty by done.
    destruct (decide (r ∈ reg_services st')) as [Hin|Hnin].
    + rewrite (Hf r s Hin); [|by rewrite Hh|done]. simpl.
      rewrite list_elem_of_filter. tauto.
    + destruct (ServiceCatalog.get st' _ _ _); [|done]. simpl.
      rewrite list_elem_of_filter. tauto.
Qed.

Section second_walk.
Context {T : Type}.
Context (cat : Registry → gmap string (list (Endpoint T))).
Hypothesis remove_cat : ∀ st r,
  cat (ServiceCatalog.removeService st r) = Catalog.removeByService (cat st) r.

(** After the walk the catalogue routes what it routed before, but for the
    endpoints of the services the walk removed. *)
Lemma removeOldServices_routed st node serviceList name e :
  routed (cat (removeOldServices st node serviceList)) name e ↔
  routed (cat st) name e ∧
  (ep_service e ∈ reg_services st →
   ep_service e ∈ reg_services (removeOldServices st node serviceList)).
Proof.
  unfold removeOldServices.
  apply (forEach_preserves (λ st',
    (∀ r, r ∈ reg_services st' → r ∈ reg_services st) ∧
    (routed (cat st') name e ↔
     routed (cat st) name e ∧
     (ep_service e ∈ reg_services st → ep_service e ∈ reg_services st'))));
    [|split; [done|tauto]].
  intros st' r0 _ [Hsub Hiff].
  destruct (removeOld_cases node serviceList st' r0)
    as [->|(s & r' & _ & _ & _ & Hget & ->)]; [done|].
  apply get_Some_matches in Hget as [Hr' _]. split.
  - simpl. intros r [_ ?]%list_elem_of_filter. by apply Hsub.
  - rewrite remove_cat, routed_Catalog_removeByService, Hiff. simpl.
    rewrite list_elem_of_filter. split.
    + intros [[Hr Hkeep] Hne]. split; [done|]. intros Hin. split; [done|auto].
    + intros [Hr Hkeep]. split; [split; [done|]|].
      * intros Hin. by apply Hkeep.
      * intros Heq. rewrite Heq in Hkeep.
        destruct Hkeep as [Hne _]; [by apply Hsub|done].
Qed.
End second_walk.

(** *** Convergence, service catalogue and one catalogue of endpoints *)

Lemma listed_iff serviceList s :
  listed serviceList s ↔
  (service_name s, service_version s) ∈ svc_key <$> serviceList.
Proof.
  unfold listed, ServiceItem.equals, svc_key.
  rewrite Exists_exists, list_elem_of_fmap. split.
  - intros (svc & Hin & Hn & Hv & _). exists svc. split; [congruence | done].
  - intros (svc & [= Hn Hv] & Hin). exists svc. by repeat split.
Qed.

Lemma reconcile_all_found_by_key node serviceList st st' :
  forEachM (reconcile node) serviceList st = Normal st' →
  catalogue_live st → found_by_key (node_id node) st →
  catalogue_live st' ∧ found_by_key (node_id node) st'.
Proof.
  intros Hall Hlive Hfound.
  eapply (forEachM_preserves
            (λ s, catalogue_live s ∧ found_by_key (node_id node) s));
    [|exact Hall|done].
  intros s a s' _ Hrec [? ?]. split.
  - by eapply reconcile_catalogue_live.
  - by eapply reconcile_found_by_key.
Qed.

(** After [registerServices] the services recorded for the node are those of
    the service list. *)
Lemma services_converge node serviceList st0 st1 name version :
  node_id node ≠ EmptyString →
  catalogue_live st0 →
  found_by_key (node_id node) st0 →
  owned_same_object node st0 →
  forEachM (reconcile node) serviceList st0 = Normal st1 →
  recorded (removeOldServices st1 node serviceList) name version (node_id node) ↔
  (name, version) ∈ svc_key <$> serviceList.
Proof.
  intros Hid Hlive Hfound Hobj Hall. split.
  - rewrite recorded_iff. intros (r & Hr & Hm).
    destruct (removeOldServices_heap st1 node serviceList) as [Hh _].
    unfold ServiceCatalog.matches in Hm. rewrite Hh in Hm.
    destruct (reg_heap st1 !! r) as [s|] eqn:Hs; [|done].
    destruct Hm as (<- & <- & Hown).
    destruct (decide (listed serviceList s)) as [Hl|Hstale];
      [by apply listed_iff|].
    exfalso.
    destruct (reconcile_all_found_by_key _ _ _ _ Hall Hlive Hfound) as [_ Hfound1].
    destruct (reconcile_all_grows _ _ _ _ Hall) as [Hg _].
    pose proof (grows_owned_same_object _ _ _ Hg Hobj) as Hobj1.
    apply removeOldServices_subset in Hr as Hr1.
    apply (removeOldServices_removes_stale st1 node serviceList r s); try done.
    by apply (Hobj1 r).
  - intros (svc & [= -> ->] & Hin)%list_elem_of_fmap.
    apply removeOldServices_recorded; [done|].
    by eapply reconcile_all_recorded.
Qed.

Section kind_converges.
Context {T : Type} (nameOf : T → string).
Context (cat : Registry → gmap string (list (Endpoint T))).
Context (own : ServiceItem → gmap string T).
Context (decl : Svc → gmap string T).

Hypothesis step_found : ∀ node st svc st' r s,
  complete svc →
  reconcile node st svc = Normal st' →
  ServiceCatalog.get st (svc_name svc) (svc_version svc) (node_id node) = Some r →
  reg_heap st !! r = Some s →
  cat st' = dropAbsent (addAll nameOf (cat st) node r (decl svc))
              (node_id node) (decl svc) (own s).
Hypothesis step_new : ∀ node st svc st',
  complete svc →
  reconcile node st svc = Normal st' →
  ServiceCatalog.get st (svc_name svc) (svc_version svc) (node_id node) = None →
  cat st' = addAll nameOf (cat st) node (length (reg_heap st)) (decl svc).
Hypothesis step_own : ∀ node st svc st' r name,
  complete svc →
  map_Forall (λ k x, nameOf x = k) (decl svc) →
  catalogue_live st →
  reconcile node st svc = Normal st' →
  match ServiceCatalog.get st (svc_name svc) (svc_version svc) (node_id node) with
  | Some r' => r = r'
  | None => r = length (reg_heap st)
  end →
  is_Some (decl svc !! name) →
  ∃ s, reg_heap st' !! r = Some s ∧ is_Some (own s !! name).
Hypothesis remove_cat : ∀ st r,
  cat (ServiceCatalog.removeService st r) = Catalog.removeByService (cat st) r.

(** After [registerServices] the names routed to the node are those the
    service list declares. *)
Lemma endpoints_converge node serviceList st0 st1 name :
  node_id node ≠ EmptyString →
  Forall complete serviceList →
  NoDup (svc_key <$> serviceList) →
  (∀ svc, svc ∈ serviceList → map_Forall (λ k x, nameOf x = k) (decl svc)) →
  catalogue_live st0 →
  found_by_key (node_id node) st0 →
  owned_same_object node st0 →
  one_per_node (cat st0) →
  endpoints_backed cat own (node_id node) st0 →
  names_owned own decl (node_id node) serviceList st0 →
  holds_plain own (node_id node) st0 →
  forEachM (reconcile node) serviceList st0 = Normal st1 →
  is_Some (endpointOf (cat (removeOldServices st1 node serviceList)) name
             (node_id node)) ↔
  ∃ svc, svc ∈ serviceList ∧ is_Some (decl svc !! name).
Proof.
  intros Hid Hcomplete Hnd Hkeyed Hlive Hfound Hobj Hone Hbacked Hnames Hplain
    Hall.
  assert (Hinv : reconciled cat own decl node st0 serviceList st1).
  { apply (reconciled_walk nameOf cat own decl step_found step_new step_own node
             serviceList st0 Hcomplete Hkeyed Hlive Hnames Hplain
             serviceList [] st0);
      try done.
    by apply reconciled_start. }
  destruct Hinv as (Hg & Hlive1 & Hfound1 & _ & _ & Hsame & Hend & Hserved).
  pose proof (grows_owned_same_object _ _ _ Hg Hobj) as Hobj1.
  rewrite endpointOf_is_Some. split.
  - intros (e & Hre & He).
    apply (removeOldServices_routed cat remove_cat) in Hre as [Hre Hkeep].
    destruct (Hend name e Hre He)
      as [(svc & s & Hin & Hdecl & _)|(s & Hes & Hs & Hown & _ & Hstale)];
      [by exists svc|].
    exfalso.
    pose proof (grows_services _ _ _ _ Hg Hes) as Hes1.
    pose proof (Hsame _ _ Hes Hs Hown Hstale) as Hs1.
    apply (removeOldServices_removes_stale st1 node serviceList (ep_service e) s);
      try done.
    + by apply (Hobj1 (ep_service e)).
    + by rewrite listed_iff.
    + by apply Hkeep.
  - intros (svc & Hin & Hdecl).
    destruct (Hserved svc name Hin Hdecl) as (e & svc' & Hre & He & Hin' & Hes & Hm).
    exists e. split; [|done].
    apply (removeOldServices_routed cat remove_cat). split; [done|]. intros _.
    destruct (Hlive1 _ Hes) as [s Hs].
    apply (removeOldServices_keeps_listed _ _ _ _ s); [done..|].
    rewrite (matches_item _ _ _ _ _ _ Hs) in Hm. destruct Hm as (Hn & Hv & _).
    by apply (listed_elem _ _ svc').
Qed.

(** After [registerServices] the catalogue of this kind satisfies its
    invariants again. *)
Lemma endpoints_consistent node serviceList st0 st1 :
  node_id node ≠ EmptyString →
  Forall complete serviceList →
  NoDup (svc_key <$> serviceList) →
  (∀ svc, svc ∈ serviceList → map_Forall (λ k x, nameOf x = k) (decl svc)) →
  catalogue_live st0 →
  found_by_key (node_id node) st0 →
  owned_same_object node st0 →
  one_per_node (cat st0) →
  endpoints_backed cat own (node_id node) st0 →
  names_owned own decl (node_id node) serviceList st0 →
  holds_plain own (node_id node) st0 →
  forEachM (reconcile node) serviceList st0 = Normal st1 →
  one_per_node (cat (removeOldServices st1 node serviceList)) ∧
  endpoints_backed cat own (node_id node) (removeOldServices st1 node serviceList).
Proof.
  intros Hid Hcomplete Hnd Hkeyed Hlive Hfound Hobj Hone Hbacked Hnames Hplain
    Hall.
  assert (Hinv : reconciled cat own decl node st0 serviceList st1).
  { apply (reconciled_walk nameOf cat own decl step_found step_new step_own node
             serviceList st0 Hcomplete Hkeyed Hlive Hnames Hplain
             serviceList [] st0);
      try done.
    by apply reconciled_start. }
  destruct Hinv as (Hg & Hlive1 & Hfound1 & Hone1 & _ & Hsame & Hend & _).
  pose proof (grows_owned_same_object _ _ _ Hg Hobj) as Hobj1.
  destruct (removeOldServices_heap st1 node serviceList) as [Hh _].
  split.
  - unfold removeOldServices.
    apply (forEach_preserves (λ s, one_per_node (cat s))); [|done].
    intros s r _ Hs.
    destruct (removeOld_cases node serviceList s r)
      as [->|(s0 & r' & _ & _ & _ & _ & ->)]; [done|].
    rewrite remove_cat. by apply Catalog_removeByService_one_per_node.
  - intros name e Hre He.
    apply (removeOldServices_routed cat remove_cat) in Hre as [Hre Hkeep].
    destruct (Hend name e Hre He)
      as [(svc & s & Hin & Hdecl & Hes & Hm & Hs & Hheld)
         |(s & Hes & Hs & Hown & _ & Hstale)].
    + exists s. split; [by apply Hkeep|]. split; [by rewrite Hh|].
      split; [|done].
      rewrite (matches_item _ _ _ _ _ _ Hs) in Hm. by destruct Hm as (_ & _ & ?).
    + exfalso.
      pose proof (grows_services _ _ _ _ Hg Hes) as Hes1.
      pose proof (Hsame _ _ Hes Hs Hown Hstale) as Hs1.
      apply (removeOldServices_removes_stale st1 node serviceList (ep_service e) s);
        try done.
      * by apply (Hobj1 (ep_service e)).
      * by rewrite listed_iff.
      * by apply Hkeep.
Qed.
End kind_converges.

(** The service catalogue satisfies its invariants after the call. *)
Lemma services_consistent node serviceList st0 st1 :
  catalogue_live st0 →
  found_by_key (node_id node) st0 →
  owned_same_object node st0 →
  forEachM (reconcile node) serviceList st0 = Normal st1 →
  catalogue_live (removeOldServices st1 node serviceList) ∧
  found_by_key (node_id node) (removeOldServices st1 node serviceList) ∧
  owned_same_object node (removeOldServices st1 node serviceList).
Proof.
  intros Hlive Hfound Hobj Hall.
  destruct (reconcile_all_found_by_key _ _ _ _ Hall Hlive Hfound) as [Hlive1 Hfound1].
  destruct (reconcile_all_grows _ _ _ _ Hall) as [Hg _].
  pose proof (grows_owned_same_object _ _ _ Hg Hobj) as Hobj1.
  destruct (removeOldServices_heap st1 node serviceList) as [Hh _].
  split; [|split].
  - intros r Hr%removeOldServices_subset. rewrite Hh. by apply Hlive1.
  - unfold removeOldServices.
    apply (forEach_preserves (found_by_key (node_id node))); [|done].
    intros s r _ Hs. by apply removeOld_found_by_key.
  - intros r s Hr%removeOldServices_subset. rewrite Hh. by apply Hobj1.
Qed.

Lemma removeService_actions st r :
  reg_actions (ServiceCatalog.removeService st r)
    = Catalog.removeByService (reg_actions st) r.
Proof. done. Qed.

Lemma removeService_events st r :
  reg_events (ServiceCatalog.removeService st r)
    = Catalog.removeByService (reg_events st) r.
Proof. done. Qed.

(** The view of the node after a call on a consistent registry. *)
Lemma registerServices_view st node serviceList :
  node_id node ≠ EmptyString →
  consistent node st →
  snapshot serviceList →
  names_apart node serviceList st →
  plain_names node st →
  ∃ st', registerServices st node serviceList = Normal st' ∧
    (∀ name version,
       recorded st' name version (node_id node) ↔
       (name, version) ∈ svc_key <$> serviceList) ∧
    (∀ name,
       is_Some (endpointOf (reg_actions st') name (node_id node)) ↔
       ∃ svc, svc ∈ serviceList ∧ is_Some (actions_of svc !! name)) ∧
    (∀ name,
       is_Some (endpointOf (reg_events st') name (node_id node)) ↔
       ∃ svc, svc ∈ serviceList ∧ is_Some (events_of svc !! name)) ∧
    consistent node st'.
Proof.
  intros Hid (Hlive & Hfound & Hobj & Hone_a & Hone_e & Hback_a & Hback_e)
    (Hcomplete & Hnd & Hnamed) [Hnames_a Hnames_e] [Hplain_a Hplain_e].
  destruct (reconcile_all_complete node serviceList st Hcomplete) as [st1 H1].
  exists (removeOldServices st1 node serviceList).
  split; [unfold registerServices; by rewrite H1|].
  rewrite Forall_forall in Hnamed.
  assert (Hkeyed_a : ∀ svc, svc ∈ serviceList →
            map_Forall (λ k a, action_name a = k) (actions_of svc))
    by (intros svc Hin; by apply Hnamed).
  assert (Hkeyed_e : ∀ svc, svc ∈ serviceList →
            map_Forall (λ k e, event_name e = k) (events_of svc))
    by (intros svc Hin; by apply Hnamed).
  split; [|split; [|split; [|
    destruct (services_consistent node serviceList st st1) as (? & ? & ?);
      try done;
    destruct (endpoints_consistent action_name reg_actions service_actions
                actions_of reconcile_actions_found reconcile_actions_new
                reconcile_actions_own removeService_actions
                node serviceList st st1) as [? ?]; try done;
    destruct (endpoints_consistent event_name reg_events service_events
                events_of reconcile_events_found reconcile_events_new
                reconcile_events_own removeService_events
                node serviceList st st1) as [? ?]; try done;
    by repeat split]]].
  - intros name version. by apply (services_converge node serviceList st st1).
  - intros name.
    apply (endpoints_converge action_name reg_actions service_actions actions_of
             reconcile_actions_found reconcile_actions_new reconcile_actions_own
             removeService_actions
             node serviceList st st1); done.
  - intros name.
    apply (endpoints_converge event_name reg_events service_events events_of
             reconcile_events_found reconcile_events_new reconcile_events_own
             removeService_events
             node serviceList st st1); done.
Qed.

Lemma snapshot_Permutation serviceList serviceList' :
  serviceList' ≡ₚ serviceList → snapshot serviceList → snapshot serviceList'.
Proof.
  intros Hp (Hc & Hnd & Hn). split; [|split].
  - by rewrite Hp.
  - by rewrite Hp.
  - by rewrite Hp.
Qed.

Lemma names_apart_Permutation node serviceList serviceList' st :
  serviceList' ≡ₚ serviceList →
  names_apart node serviceList st → names_apart node serviceList' st.
Proof.
  intros Hp [Ha He]. split.
  - intros r s name svc Hr Hs Hid Hown Hin. apply (Ha r s name svc); try done.
    by rewrite <- Hp.
  - intros r s name svc Hr Hs Hid Hown Hin. apply (He r s name svc); try done.
    by rewrite <- Hp.
Qed.

(** C1, as the code has it.  On a registry that satisfies the data-model
    invariants for [node] (live references, one service per key, the node's
    services stored with the object [node] itself, one endpoint per node in
    each list, every endpoint of the node backed by a recorded service that
    holds the name), for a service list of complete descriptors without
    duplicates whose entries are filed under their names, when every name
    that a recorded service of the node holds on its own map - a service
    keeps there every name it was ever registered with - is declared in the
    list by no descriptor but that of the same service ([names_apart]), and
    when none of those held names is the name of a member of
    [Object.prototype] ([plain_names]), [registerServices] completes and the
    registry then records for the node exactly the services of the list -
    every other service of the node is gone, every listed one is present -
    and routes to the node exactly the action names and the event names the
    list declares; the data-model invariants hold again; any reordering of
    the list gives the same view. *)
Theorem registerServices_converges (st : Registry) (node : Node)
  (serviceList : list Svc) :
  node_id node ≠ EmptyString →
  consistent node st →
  snapshot serviceList →
  names_apart node serviceList st →
  plain_names node st →
  ∃ st', registerServices st node serviceList = Normal st' ∧
    (∀ name version,
       recorded st' name version (node_id node) ↔
       (name, version) ∈ svc_key <$> serviceList) ∧
    (∀ name,
       is_Some (endpointOf (reg_actions st') name (node_id node)) ↔
       ∃ svc, svc ∈ serviceList ∧ is_Some (actions_of svc !! name)) ∧
    (∀ name,
       is_Some (endpointOf (reg_events st') name (node_id node)) ↔
       ∃ svc, svc ∈ serviceList ∧ is_Some (events_of svc !! name)) ∧
    consistent node st' ∧
    (∀ serviceList', serviceList' ≡ₚ serviceList →
       ∃ st'', registerServices st node serviceList' = Normal st'' ∧
               same_view (node_id node) st' st'').
Proof.
  intros Hid Hcons Hsnap Hnames Hplain.
  destruct (registerServices_view st node serviceList
              Hid Hcons Hsnap Hnames Hplain)
    as (st' & Hst' & Hs & Ha & He & Hcons').
  exists st'. repeat (split; [done|]).
  intros serviceList' Hp.
  destruct (registerServices_view st node serviceList' Hid Hcons)
    as (st'' & Hst'' & Hs' & Ha' & He' & _).
  { by eapply snapshot_Permutation. }
  { by eapply names_apart_Permutation. }
  { done. }
  exists st''. split; [done|]. split; [|split].
  - intros name version. by rewrite Hs, Hs', Hp.
  - intros name. rewrite Ha, Ha'. by setoid_rewrite Hp.
  - intros name. rewrite He, He'. by setoid_rewrite Hp.
Qed.

(** Scenario B of the specification once more: on the registry of Scenario A
    the snapshot [math@1 {add}] of node B. *)
Lemma registerServices_converges_witness :
  ∃ st', registerServices Scenario.A Scenario.nodeB
           [Scenario.math [Scenario.add]] = Normal st' ∧
    (∀ name version,
       recorded st' name version "B" ↔
       (name, version) ∈ svc_key <$> [Scenario.math [Scenario.add]]) ∧
    (∀ name,
       is_Some (endpointOf (reg_actions st') name "B") ↔
       ∃ svc, svc ∈ [Scenario.math [Scenario.add]] ∧
              is_Some (actions_of svc !! name)) ∧
    (∀ name,
       is_Some (endpointOf (reg_events st') name "B") ↔
       ∃ svc, svc ∈ [Scenario.math [Scenario.add]] ∧
              is_Some (events_of svc !! name)) ∧
    consistent Scenario.nodeB st' ∧
    (∀ serviceList', serviceList' ≡ₚ [Scenario.math [Scenario.add]] →
       ∃ st'', registerServices Scenario.A Scenario.nodeB serviceList'
                 = Normal st'' ∧
               same_view "B" st' st'').
Proof.
  apply (registerServices_converges Scenario.A Scenario.nodeB
           [Scenario.math [Scenario.add]]).
  - done.
  - assert (Hcases : ∀ r, r ∈ reg_services Scenario.A → r = 0 ∨ r = 1).
    { intros r Hr. vm_compute in Hr. apply list_elem_of_In in Hr.
      destruct Hr as [<-|[<-|[]]]; auto. }
    split; [|split; [|split; [|split; [|split; [|split]]]]].
    + intros r [->| ->]%Hcases; by eexists.
    + intros r s [->| ->]%Hcases Hs; vm_compute in Hs; injection Hs as <-;
        [discriminate | reflexivity].
    + intros r s [->| ->]%Hcases Hs; vm_compute in Hs; injection Hs as <-;
        [discriminate | reflexivity].
    + apply (bool_decide_unpack _). by vm_compute.
    + apply (bool_decide_unpack _). by vm_compute.
    + intros name e (l & Hl & He) Hid.
      apply elem_of_map_to_list in Hl. vm_compute in Hl.
      apply list_elem_of_In in Hl. destruct Hl as [Hl|[Hl|[]]];
        injection Hl as <- <-; apply list_elem_of_In in He.
      * destruct He as [<-|[]].
        eexists. split; [by vm_compute; right; left|].
        split; [reflexivity|]. split; [reflexivity | by eexists].
      * destruct He as [<-|[<-|[]]]; [discriminate|].
        eexists. split; [by vm_compute; right; left|].
        split; [reflexivity|]. split; [reflexivity | by eexists].
    + intros name e (l & Hl & He) Hid.
      apply elem_of_map_to_list in Hl. vm_compute in Hl.
      by apply list_elem_of_In in Hl.
  - split; [|split].
    + repeat constructor; by eexists.
    + apply NoDup_singleton.
    + repeat constructor.
      * apply (bool_decide_unpack _). by vm_compute.
      * apply (bool_decide_unpack _). by vm_compute.
  - assert (Hcases : ∀ r, r ∈ reg_services Scenario.A → r = 0 ∨ r = 1).
    { intros r Hr. vm_compute in Hr. apply list_elem_of_In in Hr.
      destruct Hr as [<-|[<-|[]]]; auto. }
    split; intros r s name svc [->| ->]%Hcases Hs Hid Hown
      ->%list_elem_of_singleton _; vm_compute in Hs; injection Hs as <-;
      done.
  - assert (Hcases : ∀ r, r ∈ reg_services Scenario.A → r = 0 ∨ r = 1).
    { intros r Hr. vm_compute in Hr. apply list_elem_of_In in Hr.
      destruct Hr as [<-|[<-|[]]]; auto. }
    split; intros r s name [->| ->]%Hcases Hs Hid [x Hown];
      vm_compute in Hs; injection Hs as <-; try discriminate Hid;
      apply elem_of_map_to_list in Hown; vm_compute in Hown;
      apply list_elem_of_In in Hown.
    + destruct Hown as [Hown|[Hown|[]]]; injection Hown as <- _;
        apply (bool_decide_unpack _); by vm_compute.
    + destruct Hown.
Defined.

(** C1, as the claim states it, fails: the final state depends on the order
    of the descriptors.  On the empty registry, the list with math@1 {add}
    before math@1 {sub} leaves node B with [sub] and without [add]; the same
    two descriptors in the other order leave B with [add] and without
    [sub]. *)
Lemma descriptor_order_matters :
  ∃ st1 st2,
    registerServices Scenario.empty Scenario.nodeB
      [Scenario.math [Scenario.add]; Scenario.math [Scenario.sub]] = Normal st1 ∧
    registerServices Scenario.empty Scenario.nodeB
      [Scenario.math [Scenario.sub]; Scenario.math [Scenario.add]] = Normal st2 ∧
    endpointOf (reg_actions st1) "add" "B" = None ∧
    is_Some (endpointOf (reg_actions st1) "sub" "B") ∧
    is_Some (endpointOf (reg_actions st2) "add" "B") ∧
    endpointOf (reg_actions st2) "sub" "B" = None.
Proof.
  eexists _, _. split; [reflexivity|]. split; [reflexivity|].
  split; [reflexivity|]. split; [by eexists|]. split; [by eexists | reflexivity].
Qed.

(** Without distinct names the order matters as well, and a declared action
    can be left without endpoint: services alpha and beta of node B both held
    [x]; of the list (beta {x}, alpha {}) the second descriptor unregisters
    the endpoint the first one registered. *)
Lemma shared_name_is_dropped :
  ∃ st1 st2,
    registerServices Scenario.shared Scenario.nodeB
      [Scenario.beta; Scenario.alpha'] = Normal st1 ∧
    registerServices Scenario.shared Scenario.nodeB
      [Scenario.alpha'; Scenario.beta] = Normal st2 ∧
    endpointOf (reg_actions st1) "x" "B" = None ∧
    is_Some (endpointOf (reg_actions st2) "x" "B").
Proof.
  eexists _, _. split; [reflexivity|]. split; [reflexivity|].
  split; [reflexivity | by eexists].
Qed.

(** A node without id keeps its stale services: [node.id || broker.nodeID]
    turns the removal to the broker's own id, under which nothing is
    recorded. *)
Lemma empty_node_id_keeps_services :
  ∃ st', registerServices Scenario.unnamed Scenario.anonymous [] = Normal st' ∧
         recorded st' (Some "math") (Some 1) (node_id Scenario.anonymous).
Proof. eexists. split; [reflexivity | by eexists]. Qed.

(** Without object identity nothing is removed: when node B comes back as a
    new object with the old id, the empty service list leaves its service and
    its endpoints recorded under the id. *)
Lemma new_node_object_keeps_old_services :
  ∃ st', registerServices Scenario.A Scenario.nodeB' [] = Normal st' ∧
         recorded st' (Some "math") (Some 1) "B" ∧
         is_Some (endpointOf (reg_actions st') "sub" "B").
Proof. eexists. split; [reflexivity|]. split; by eexists. Qed.

(** A name a service held earlier counts: after Scenario B the service math
    of node B still holds [sub] on its own map, and of the list
    (calc {sub}, math {add}) the second descriptor unregisters the endpoint
    the first one registered; the other order leaves [sub] routed. *)
Lemma stale_name_is_dropped :
  ∃ st1 st2,
    registerServices Scenario.B Scenario.nodeB
      [Scenario.calc [Scenario.sub]; Scenario.math [Scenario.add]] = Normal st1 ∧
    registerServices Scenario.B Scenario.nodeB
      [Scenario.math [Scenario.add]; Scenario.calc [Scenario.sub]] = Normal st2 ∧
    endpointOf (reg_actions st1) "sub" "B" = None ∧
    is_Some (endpointOf (reg_actions st2) "sub" "B").
Proof.
  eexists _, _. split; [by vm_compute|]. split; [by vm_compute|].
  split; [by vm_compute|]. eexists. by vm_compute.
Qed.

(** An action under the name of a member of [Object.prototype] is not
    unregistered: [svc.actions[name]] finds the inherited member on the
    descriptor that omits it.  After math@1 {add, toString}, the snapshot
    math@1 {add} of node B leaves [toString] routed to B. *)
Lemma inherited_name_stays_routed :
  ∃ st1 st2,
    registerServices Scenario.empty Scenario.nodeB
      [Scenario.math [Scenario.add; Scenario.toString]] = Normal st1 ∧
    registerServices st1 Scenario.nodeB
      [Scenario.math [Scenario.add]] = Normal st2 ∧
    is_Some (endpointOf (reg_actions st2) "toString" "B").
Proof.
  eexists _, _. split; [by vm_compute|]. split; [by vm_compute|].
  eexists. by vm_compute.
Qed.

(** * Further properties of the registry *)

(** ** Auxiliary facts *)

Lemma routed_Forall {T} (cat : gmap string (list (Endpoint T)))
  (P : Endpoint T → Prop) :
  map_Forall (λ _ l, Forall P l) cat → ∀ name e, routed cat name e → P e.
Proof.
  intros Hall name e (l & Hl & He). specialize (Hall name l Hl).
  rewrite Forall_forall in Hall. by apply Hall.
Qed.

Lemma catalogue_live_Forall st :
  Forall (λ r, is_Some (reg_heap st !! r)) (reg_services st) → catalogue_live st.
Proof. intros Hall r Hr. rewrite Forall_forall in Hall. by apply Hall. Qed.

Lemma filter_keeps_all {A} (P : A → Prop) `{!∀ x, Decision (P x)} (l : list A) :
  (∀ x, x ∈ l → P x) → filter P l = l.
Proof.
  induction l as [|x l IH]; intros Hall; [done|].
  rewrite filter_cons_True; [|apply Hall; left].
  f_equal. apply IH. intros y Hy. apply Hall. by right.
Qed.

(** ** Lookups after a registration *)

Lemma getActionEndpointByNodeId_endpointOf st actionName nodeID :
  getActionEndpointByNodeId st actionName nodeID
    = Normal (endpointOf (reg_actions st) actionName nodeID).
Proof.
  unfold getActionEndpointByNodeId, endpointOf, Catalog.get.
  by destruct (reg_actions st !! actionName).
Qed.

Section found_after_upsert.
Context {T : Type} (nameOf : T → string).
Implicit Types (l : list (Endpoint T)) (cat : gmap string (list (Endpoint T))).

Lemma getEndpointByNodeID_add nodeID r (x : T) l :
  ∃ available,
    EndpointList.getEndpointByNodeID (EndpointList.add nodeID r x l) nodeID
      = Some (mkEndpoint nodeID r x available).
Proof.
  unfold EndpointList.getEndpointByNodeID. induction l as [|e l IH]; simpl.
  - exists true. by rewrite filter_cons_True.
  - destruct (decide (ep_nodeID e = nodeID)).
    + exists (ep_available e). by rewrite filter_cons_True.
    + rewrite filter_cons_False by done. apply IH.
Qed.

(** After the upserts of a walk every entry of the walk is served by the
    node, through [service]. *)
Lemma addAll_walk_found cat node service (entries : list (string * T)) :
  ∀ entry, entry ∈ entries →
    ∃ e,
      endpointOf
        (forEach (λ cat entry, Catalog.add nameOf cat node service entry.2)
           entries cat)
        (nameOf entry.2) (node_id node) = Some e ∧
      ep_nodeID e = node_id node ∧ ep_service e = service ∧
      nameOf (ep_item e) = nameOf entry.2.
Proof.
  induction entries as [|b entries IH] using rev_ind; intros entry Hin.
  - by apply elem_of_nil in Hin.
  - unfold forEach in *. rewrite fold_left_app. simpl.
    set (cat1 := fold_left _ entries cat) in *.
    unfold endpointOf. rewrite Catalog_add_lookup.
    destruct (decide (nameOf b.2 = nameOf entry.2)) as [Heq|Hne].
    + simpl.
      destruct (getEndpointByNodeID_add (node_id node) service b.2
                  (default [] (cat1 !! nameOf b.2))) as [av ->].
      eexists. split; [done|]. by repeat split.
    + apply elem_of_app in Hin as [Hin|Hin%list_elem_of_singleton].
      * by apply IH.
      * by subst entry.
Qed.

Lemma addAll_found cat node service (m : gmap string T) key x :
  m !! key = Some x →
  ∃ e, endpointOf (addAll nameOf cat node service m) (nameOf x) (node_id node)
         = Some e ∧
       ep_nodeID e = node_id node ∧ ep_service e = service ∧
       nameOf (ep_item e) = nameOf x ∧
       (map_Forall (λ k y, nameOf y = k) m → ep_item e = x).
Proof.
  intros Hkey.
  destruct (addAll_walk_found cat node service (map_to_list m) (key, x))
    as (e & He & Hid & Hs & Hn); [by apply elem_of_map_to_list|].
  exists e. fold (addAll nameOf cat node service m) in He.
  repeat split; try done.
  intros Hkeyed. pose proof (Hkeyed _ _ Hkey) as Hx. simpl in Hx.
  unfold endpointOf in He. simpl in He.
  rewrite (addAll_lookup nameOf) in He by done. rewrite Hx, Hkey in He.
  simpl in He.
  destruct (getEndpointByNodeID_add (node_id node) service x
              (default [] (cat !! key))) as [av Hav].
  rewrite Hav in He. by injection He as <-.
Qed.
End found_after_upsert.

(** X1. An action registered through [registerActions] is found by both
    lookups, on every registry: [getActionEndpointByNodeId] at the action's
    name and the node's id returns an endpoint of that node, bound to
    [service] and serving an action of that name - the registered action
    itself when the map files its actions under their own names - and the
    list [getActionEndpoints] returns for the name holds that endpoint. *)
Theorem registered_action_is_found (st : Registry) (node : Node)
  (service : nat) (actions : gmap string Action) (key : string)
  (action : Action) :
  actions !! key = Some action →
  ∃ e, getActionEndpointByNodeId (registerActions st node service actions)
         (action_name action) (node_id node) = Normal (Some e) ∧
       ep_nodeID e = node_id node ∧ ep_service e = service ∧
       action_name (ep_item e) = action_name action ∧
       (map_Forall (λ k a, action_name a = k) actions → ep_item e = action) ∧
       ∃ l, getActionEndpoints (registerActions st node service actions)
              (action_name action) = Normal (Some l) ∧ e ∈ l.
Proof.
  intros Hkey. rewrite getActionEndpointByNodeId_endpointOf, registerActions_catalog.
  destruct (addAll_found action_name (reg_actions st) node service actions
              key action Hkey) as (e & He & Hid & Hs & Hn & Hitem).
  exists e. rewrite He. repeat split; try done.
  apply endpointOf_Some in He as [(l & Hl & Hin) _].
  exists l. split; [|done].
  unfold getActionEndpoints, Catalog.get. by rewrite registerActions_catalog, Hl.
Qed.

(** In the registry of Scenario A, node A registers [sub] for its service. *)
Lemma registered_action_is_found_witness :
  ∃ e, getActionEndpointByNodeId
         (registerActions Scenario.A Scenario.nodeA 0 {["sub" := Scenario.sub]})
         "sub" "A" = Normal (Some e) ∧
       ep_nodeID e = "A" ∧ ep_service e = 0 ∧
       action_name (ep_item e) = "sub" ∧
       (map_Forall (λ k a, action_name a = k)
          ({["sub" := Scenario.sub]} : gmap string Action) →
        ep_item e = Scenario.sub) ∧
       ∃ l, getActionEndpoints
              (registerActions Scenario.A Scenario.nodeA 0 {["sub" := Scenario.sub]})
              "sub" = Normal (Some l) ∧ e ∈ l.
Proof.
  apply (registered_action_is_found Scenario.A Scenario.nodeA 0
           {["sub" := Scenario.sub]} "sub" Scenario.sub).
  reflexivity.
Defined.

(** X2. The two lookups agree.  An endpoint [getActionEndpointByNodeId]
    returns belongs to the node asked for and is a member of the list
    [getActionEndpoints] returns for the name; and whenever that list holds
    an endpoint of the node, [getActionEndpointByNodeId] returns one - that
    very endpoint when the list holds one endpoint per node. *)
Theorem lookups_agree (st : Registry) (actionName nodeID : string) :
  (∀ e, getActionEndpointByNodeId st actionName nodeID = Normal (Some e) →
        ep_nodeID e = nodeID ∧
        ∃ l, getActionEndpoints st actionName = Normal (Some l) ∧ e ∈ l) ∧
  (∀ l e, getActionEndpoints st actionName = Normal (Some l) → e ∈ l →
        ep_nodeID e = nodeID →
        ∃ e', getActionEndpointByNodeId st actionName nodeID = Normal (Some e') ∧
              (NoDup (ep_nodeID <$> l) → e' = e)).
Proof.
  rewrite getActionEndpointByNodeId_endpointOf.
  unfold getActionEndpoints, Catalog.get. split.
  - intros e [= He]. apply endpointOf_Some in He as [(l & Hl & Hin) Hid].
    split; [done|]. exists l. by rewrite Hl.
  - intros l e [= Hl] Hin Hid.
    destruct (endpointOf (reg_actions st) actionName nodeID) as [e'|] eqn:He'.
    + exists e'. split; [done|]. intros Hnd.
      apply endpointOf_Some in He' as [(l' & Hl' & Hin') Hid'].
      rewrite Hl in Hl'. injection Hl' as <-.
      apply list_elem_of_lookup in Hin as [i Hi], Hin' as [j Hj].
      assert (i = j); [|congruence].
      eapply (NoDup_lookup _ _ _ nodeID Hnd); rewrite list_lookup_fmap.
      * by rewrite Hi; simpl; rewrite Hid.
      * by rewrite Hj; simpl; rewrite Hid'.
    + exfalso. rewrite endpointOf_None in He'. apply (He' e); [|done].
      by exists l.
Qed.

(** In the registry of Scenario A, the endpoint of node B under [add]. *)
Lemma lookups_agree_witness :
  ∃ l e, getActionEndpoints Scenario.A "add" = Normal (Some l) ∧ e ∈ l ∧
         getActionEndpointByNodeId Scenario.A "add" "B" = Normal (Some e) ∧
         ep_nodeID e = "B".
Proof.
  destruct (lookups_agree Scenario.A "add" "B") as [Hfound _].
  destruct (Hfound (mkEndpoint "B" 1 Scenario.add true)) as (Hid & l & Hl & Hin);
    [reflexivity|].
  exists l, (mkEndpoint "B" 1 Scenario.add true).
  repeat split; [exact Hl | exact Hin].
Defined.

(** ** What a registration and a removal change in a catalogue *)

Section catalogue_changes.
Context {T : Type} (nameOf : T → string).
Implicit Types (l : list (Endpoint T)) (cat : gmap string (list (Endpoint T))).

Lemma Catalog_remove_remove cat name nodeID :
  Catalog.remove (Catalog.remove cat name nodeID) name nodeID
    = Catalog.remove cat name nodeID.
Proof.
  apply Catalog_remove_absent.
  - unfold Catalog.remove. destruct (cat !! name) as [l0|] eqn:Hl0.
    + destruct (EndpointList.removeByNodeID l0 nodeID).
      * by rewrite lookup_delete_eq.
      * by rewrite lookup_insert_eq.
    + by rewrite Hl0.
  - rewrite endpointOf_None. intros e. rewrite routed_Catalog_remove.
    intros [_ Hn] Hid. by apply Hn.
Qed.

Lemma Catalog_remove_add cat node r (x : T) :
  cat !! nameOf x ≠ Some [] →
  endpointOf cat (nameOf x) (node_id node) = None →
  Catalog.remove (Catalog.add nameOf cat node r x) (nameOf x) (node_id node) = cat.
Proof.
  intros Hne Habs. unfold Catalog.remove, Catalog.add.
  rewrite lookup_insert_eq, removeByNodeID_add.
  unfold endpointOf in Habs.
  destruct (cat !! nameOf x) as [l0|] eqn:Hl0; simpl in *.
  - rewrite (removeByNodeID_absent _ _ Habs).
    destruct l0 as [|e l0]; [done|].
    rewrite insert_insert_eq. by apply insert_id.
  - rewrite delete_insert_eq. by apply delete_id.
Qed.

Lemma addAll_others cat node service (m : gmap string T) name :
  EndpointList.removeByNodeID
    (default [] (addAll nameOf cat node service m !! name)) (node_id node)
  = EndpointList.removeByNodeID (default [] (cat !! name)) (node_id node).
Proof.
  unfold addAll.
  apply (forEach_preserves (λ c,
    EndpointList.removeByNodeID (default [] (c !! name)) (node_id node)
    = EndpointList.removeByNodeID (default [] (cat !! name)) (node_id node)));
    [|done].
  intros c [k a] _ Hc. simpl.
  rewrite Catalog_add_lookup. case_decide as Hn; [|done].
  subst name. simpl. by rewrite removeByNodeID_add.
Qed.

Lemma routed_other_node cat cat' name nodeID e :
  EndpointList.removeByNodeID (default [] (cat' !! name)) nodeID
    = EndpointList.removeByNodeID (default [] (cat !! name)) nodeID →
  ep_nodeID e ≠ nodeID →
  routed cat' name e ↔ routed cat name e.
Proof.
  intros Heq Hne.
  assert (Hin : ∀ c : gmap string (list (Endpoint T)),
    routed c name e ↔
    e ∈ EndpointList.removeByNodeID (default [] (c !! name)) nodeID).
  { intros c. unfold routed, EndpointList.removeByNodeID.
    rewrite list_elem_of_filter. destruct (c !! name) as [l0|]; simpl.
    - split; [intros (? & [= <-] & ?); done | intros [_ ?]; by eexists].
    - split; [by intros (? & ? & _) | by intros [_ ?%elem_of_nil]]. }
  by rewrite !Hin, Heq.
Qed.

Lemma addAll_undeclared cat node service (m : gmap string T) name :
  (∀ key x, m !! key = Some x → nameOf x ≠ name) →
  addAll nameOf cat node service m !! name = cat !! name.
Proof.
  intros Hund. unfold addAll.
  apply (forEach_preserves (λ c, c !! name = cat !! name)); [|done].
  intros c [k x] Hin%elem_of_map_to_list Hc. simpl.
  rewrite Catalog_add_lookup, decide_False; [done|]. by apply (Hund k).
Qed.
End catalogue_changes.

(** X3. [unregisterAction(node, name)] removes the endpoints of [node] under
    [name] and nothing else: afterwards the node has no endpoint under the
    name, every other (name, node) pair is routed as before, the event
    catalogue, the service catalogue and the service objects are untouched
    (a service keeps the name on its own map), and a second call changes
    nothing.  [unregisterEvent] does the same in the event catalogue. *)
Theorem unregister_removes_one_endpoint (st : Registry) (node : Node)
  (name : string) :
  (let st' := unregisterAction st node name in
   endpointOf (reg_actions st') name (node_id node) = None ∧
   (∀ name' e, routed (reg_actions st') name' e ↔
      routed (reg_actions st) name' e ∧
      ¬ (name' = name ∧ ep_nodeID e = node_id node)) ∧
   reg_events st' = reg_events st ∧
   reg_services st' = reg_services st ∧
   reg_heap st' = reg_heap st ∧
   unregisterAction st' node name = st') ∧
  (let st' := unregisterEvent st node name in
   endpointOf (reg_events st') name (node_id node) = None ∧
   (∀ name' e, routed (reg_events st') name' e ↔
      routed (reg_events st) name' e ∧
      ¬ (name' = name ∧ ep_nodeID e = node_id node)) ∧
   reg_actions st' = reg_actions st ∧
   reg_services st' = reg_services st ∧
   reg_heap st' = reg_heap st ∧
   unregisterEvent st' node name = st').
Proof.
  split; simpl.
  - split; [apply unregisterAction_endpointOf|].
    split; [intros; apply routed_Catalog_remove|].
    repeat split. unfold unregisterAction. simpl.
    by rewrite Catalog_remove_remove.
  - split.
    { rewrite endpointOf_None. intros e. simpl.
      rewrite routed_Catalog_remove. intros [_ Hn] Hid. by apply Hn. }
    split; [intros; apply routed_Catalog_remove|].
    repeat split. unfold unregisterEvent. simpl.
    by rewrite Catalog_remove_remove.
Qed.

(** X4. Registering one action, for an existing service object and a node
    that has no endpoint under the action's name (no empty EndpointList being
    held under it), gives the node an endpoint, and unregistering the action
    again restores the action catalogue - but not the registry: the service
    object still holds the action on its own map, so the resulting registry
    differs from the first whenever the service did not hold the name before.
    The same holds of [registerEvents] followed by [unregisterEvent]. *)
Theorem unregister_undoes_the_catalogue_only (st : Registry) (node : Node)
  (service : nat) (s : ServiceItem) (key : string) :
  reg_heap st !! service = Some s →
  (∀ action,
     Catalog.get (reg_actions st) (action_name action) ≠ Some [] →
     endpointOf (reg_actions st) (action_name action) (node_id node) = None →
     let st1 := registerActions st node service {[key := action]} in
     let st2 := unregisterAction st1 node (action_name action) in
     is_Some (endpointOf (reg_actions st1) (action_name action) (node_id node)) ∧
     reg_actions st2 = reg_actions st ∧
     reg_heap st2 !! service = Some (ServiceItem.addAction action s) ∧
     (service_actions s !! action_name action = None → st2 ≠ st)) ∧
  (∀ event,
     Catalog.get (reg_events st) (event_name event) ≠ Some [] →
     endpointOf (reg_events st) (event_name event) (node_id node) = None →
     let st1 := registerEvents st node service {[key := event]} in
     let st2 := unregisterEvent st1 node (event_name event) in
     is_Some (endpointOf (reg_events st1) (event_name event) (node_id node)) ∧
     reg_events st2 = reg_events st ∧
     reg_heap st2 !! service = Some (ServiceItem.addEvent event s) ∧
     (service_events s !! event_name event = None → st2 ≠ st)).
Proof.
  intros Hs. split.
  - intros action Hne Habs. unfold registerActions.
    rewrite map_to_list_singleton. simpl. split; [|split; [|split]].
    + unfold endpointOf. rewrite (Catalog_add_lookup action_name), decide_True by done.
      simpl.
      by destruct (getEndpointByNodeID_add (node_id node) service action
                     (default [] (reg_actions st !! action_name action)))
        as [av ->].
    + by apply Catalog_remove_add.
    + by rewrite list_lookup_alter_eq, Hs.
    + intros Hnone Heq. apply (f_equal (λ x, reg_heap x !! service)) in Heq.
      simpl in Heq. rewrite list_lookup_alter_eq, Hs in Heq. simpl in Heq.
      injection Heq as Heq. apply (f_equal (λ x, service_actions x !! action_name action)) in Heq.
      simpl in Heq. by rewrite lookup_insert_eq, Hnone in Heq.
  - intros event Hne Habs. unfold registerEvents.
    rewrite map_to_list_singleton. simpl. split; [|split; [|split]].
    + unfold endpointOf. rewrite (Catalog_add_lookup event_name), decide_True by done.
      simpl.
      by destruct (getEndpointByNodeID_add (node_id node) service event
                     (default [] (reg_events st !! event_name event)))
        as [av ->].
    + by apply Catalog_remove_add.
    + by rewrite list_lookup_alter_eq, Hs.
    + intros Hnone Heq. apply (f_equal (λ x, reg_heap x !! service)) in Heq.
      simpl in Heq. rewrite list_lookup_alter_eq, Hs in Heq. simpl in Heq.
      injection Heq as Heq. apply (f_equal (λ x, service_events x !! event_name event)) in Heq.
      simpl in Heq. by rewrite lookup_insert_eq, Hnone in Heq.
Qed.

(** In the registry of Scenario A, node A registers [sub] for its service
    and unregisters it. *)
Lemma unregister_undoes_the_catalogue_only_witness :
  ∃ s, reg_heap Scenario.A !! 0 = Some s ∧
    let st1 := registerActions Scenario.A Scenario.nodeA 0 {["sub" := Scenario.sub]} in
    let st2 := unregisterAction st1 Scenario.nodeA "sub" in
    is_Some (endpointOf (reg_actions st1) "sub" "A") ∧
    reg_actions st2 = reg_actions Scenario.A ∧
    reg_heap st2 !! 0 = Some (ServiceItem.addAction Scenario.sub s) ∧
    (service_actions s !! "sub" = None → st2 ≠ Scenario.A).
Proof.
  eexists. split; [reflexivity|].
  refine (proj1 (unregister_undoes_the_catalogue_only Scenario.A Scenario.nodeA
                   0 _ "sub" _) Scenario.sub _ _).
  - reflexivity.
  - by vm_compute.
  - reflexivity.
Defined.

(** ** Registering events twice *)

Lemma addEvent_addEvent a b s :
  event_name a = event_name b →
  ServiceItem.addEvent b (ServiceItem.addEvent a s) = ServiceItem.addEvent b s.
Proof.
  intros Heq. unfold ServiceItem.addEvent. simpl.
  by rewrite Heq, insert_insert_eq.
Qed.

Lemma addEvent_commute a b s :
  event_name a ≠ event_name b →
  ServiceItem.addEvent b (ServiceItem.addEvent a s)
    = ServiceItem.addEvent a (ServiceItem.addEvent b s).
Proof.
  intros Hne. unfold ServiceItem.addEvent. simpl.
  by rewrite insert_insert_ne.
Qed.

Lemma registerEvent_absorb node service st a b :
  event_name a.2 = event_name b.2 →
  registerEvent node service (registerEvent node service st a) b
    = registerEvent node service st b.
Proof.
  intros Heq. unfold registerEvent. apply Registry_eq; simpl; try done.
  - rewrite list_alter_alter_eq. apply list_alter_ext; [|done].
    intros s _. by apply addEvent_addEvent.
  - by apply Catalog_add_add.
Qed.

Lemma registerEvent_commute node service st a b :
  event_name a.2 ≠ event_name b.2 →
  registerEvent node service (registerEvent node service st a) b
    = registerEvent node service (registerEvent node service st b) a.
Proof.
  intros Hne. unfold registerEvent. apply Registry_eq; simpl; try done.
  - rewrite !list_alter_alter_eq. apply list_alter_ext; [|done].
    intros s _. by apply addEvent_commute.
  - by apply Catalog_add_commute.
Qed.

Lemma endpointOf_one_per_node {T} (cat : gmap string (list (Endpoint T)))
  name nodeID e :
  one_per_node cat →
  endpointOf cat name nodeID = Some e →
  ∃ l, cat !! name = Some l ∧ endpointsFor l nodeID = [e].
Proof.
  intros Hone He. unfold endpointOf in He.
  destruct (cat !! name) as [l|] eqn:Hl; [|done]. simpl in He.
  exists l. split; [done|].
  unfold EndpointList.getEndpointByNodeID in He. unfold endpointsFor.
  pose proof (NoDup_fmap_filter ep_nodeID (λ e, ep_nodeID e = nodeID) l
                (Hone _ _ Hl)) as Hnd.
  destruct (filter _ l) as [|e0 [|e1 l1]] eqn:Hf; simpl in He; [done|congruence|].
  exfalso. injection He as ->.
  assert (H0 : e ∈ filter (λ e, ep_nodeID e = nodeID) l) by (rewrite Hf; left).
  assert (H1 : e1 ∈ filter (λ e, ep_nodeID e = nodeID) l)
    by (rewrite Hf; right; left).
  apply list_elem_of_filter in H0 as [H0 _], H1 as [H1 _].
  rewrite !fmap_cons, H0, H1 in Hnd. apply NoDup_cons in Hnd as [Hnin _].
  apply Hnin. left.
Qed.

(** X5. Calling [registerEvents] twice with the same node, service and events
    map leaves the registry the first call produced.  When the registry held
    at most one endpoint per node in each EndpointList, the EndpointList of
    every registered event then holds exactly one endpoint for the node,
    bound to that service; and the service object, when there is one, holds
    every registered event on its own map. *)
Theorem registerEvents_twice (st : Registry) (node : Node) (service : nat)
  (events : gmap string Event) :
  let once := registerEvents st node service events in
  let twice := registerEvents once node service events in
  twice = once ∧
  (one_per_node (reg_events st) →
   ∀ key event, events !! key = Some event →
     ∃ lst e, Catalog.get (reg_events twice) (event_name event) = Some lst ∧
              endpointsFor lst (node_id node) = [e] ∧
              ep_service e = service ∧
              event_name (ep_item e) = event_name event) ∧
  (is_Some (reg_heap st !! service) →
   ∀ key event, events !! key = Some event →
     ∃ s, reg_heap twice !! service = Some s ∧
          is_Some (service_events s !! event_name event)).
Proof.
  intros once twice.
  assert (Heq : twice = once).
  { subst once twice. unfold registerEvents.
    apply (forEach_twice _ (λ entry : string * Event, event_name entry.2)).
    - intros. by apply registerEvent_absorb.
    - intros. by apply registerEvent_commute. }
  split; [done|]. rewrite Heq. subst once. split.
  - intros Hone key event Hkey.
    destruct (addAll_found event_name (reg_events st) node service events
                key event Hkey) as (e & He & Hid & Hs & Hn & _).
    rewrite <- registerEvents_catalog in He.
    apply endpointOf_one_per_node in He as (l & Hl & Hfor).
    + by exists l, e.
    + rewrite registerEvents_catalog. by apply addAll_one_per_node.
  - intros Hlive key event Hkey. by eapply registerEvents_own.
Qed.

(** In the registry of Scenario A, node B registers an event twice. *)
Lemma registerEvents_twice_witness :
  ∃ lst e,
    Catalog.get
      (reg_events
         (registerEvents
            (registerEvents Scenario.A Scenario.nodeB 1
               {["user.created" := mkEvent "user.created" None 0]})
            Scenario.nodeB 1
            {["user.created" := mkEvent "user.created" None 0]}))
      "user.created" = Some lst ∧
    endpointsFor lst "B" = [e] ∧ ep_service e = 1 ∧
    event_name (ep_item e) = "user.created".
Proof.
  destruct (registerEvents_twice Scenario.A Scenario.nodeB 1
              {["user.created" := mkEvent "user.created" None 0]}) as (_ & Hone & _).
  assert (Hinv : one_per_node (reg_events Scenario.A))
    by (apply (bool_decide_unpack _); by vm_compute).
  exact (Hone Hinv "user.created" (mkEvent "user.created" None 0)
           ltac:(by vm_compute)).
Defined.

(** X6. [registerActions(node, service, actions)] touches the endpoints of
    [node] and the object [service] only: an endpoint of another node is
    routed afterwards exactly when it was before, the EndpointList of a name
    no action of the map carries is the same, every other service object is
    the same, and the event catalogue, the service catalogue, the services'
    keys and event maps, the local node and the log are unchanged.
    [registerEvents] likewise, with the two catalogues exchanged. *)
Theorem registration_touches_one_node (st : Registry) (node : Node)
  (service : nat) :
  (∀ actions,
     let st' := registerActions st node service actions in
     (∀ name e, ep_nodeID e ≠ node_id node →
        routed (reg_actions st') name e ↔ routed (reg_actions st) name e) ∧
     (∀ name, (∀ key a, actions !! key = Some a → action_name a ≠ name) →
        Catalog.get (reg_actions st') name = Catalog.get (reg_actions st) name) ∧
     (∀ r, r ≠ service → reg_heap st' !! r = reg_heap st !! r) ∧
     actions_frame st st') ∧
  (∀ events,
     let st' := registerEvents st node service events in
     (∀ name e, ep_nodeID e ≠ node_id node →
        routed (reg_events st') name e ↔ routed (reg_events st) name e) ∧
     (∀ name, (∀ key a, events !! key = Some a → event_name a ≠ name) →
        Catalog.get (reg_events st') name = Catalog.get (reg_events st) name) ∧
     (∀ r, r ≠ service → reg_heap st' !! r = reg_heap st !! r) ∧
     events_frame st st').
Proof.
  split.
  - intros actions st'. subst st'. rewrite registerActions_catalog.
    split; [|split; [|split]].
    + intros name e Hne. apply (routed_other_node _ _ _ (node_id node)); [|done].
      apply addAll_others.
    + intros name Hund. unfold Catalog.get. by apply addAll_undeclared.
    + intros r Hr. by apply registerActions_heap_other.
    + apply registerActions_frame.
  - intros events st'. subst st'. rewrite registerEvents_catalog.
    split; [|split; [|split]].
    + intros name e Hne. apply (routed_other_node _ _ _ (node_id node)); [|done].
      apply addAll_others.
    + intros name Hund. unfold Catalog.get. by apply addAll_undeclared.
    + intros r Hr. by apply registerEvents_heap_other.
    + apply registerEvents_frame.
Qed.

(** ** The removal of services *)

Lemma ownedByID_heap st st' nodeID r :
  reg_heap st' = reg_heap st →
  ServiceCatalog.ownedByID st' nodeID r ↔ ServiceCatalog.ownedByID st nodeID r.
Proof. intros Hh. unfold ServiceCatalog.ownedByID. by rewrite Hh. Qed.

Lemma matches_heap st st' name version nodeID r :
  reg_heap st' = reg_heap st →
  ServiceCatalog.matches st' name version nodeID r ↔
  ServiceCatalog.matches st name version nodeID r.
Proof. intros Hh. unfold ServiceCatalog.matches. by rewrite Hh. Qed.

Lemma ownedByID_functional st nodeID nodeID' r :
  ServiceCatalog.ownedByID st nodeID r → ServiceCatalog.ownedByID st nodeID' r →
  nodeID = nodeID'.
Proof.
  unfold ServiceCatalog.ownedByID. destruct (reg_heap st !! r); [congruence|done].
Qed.

Lemma removeService_services st r r' :
  r' ∈ reg_services (ServiceCatalog.removeService st r) ↔
  r' ∈ reg_services st ∧ r' ≠ r.
Proof. simpl. rewrite list_elem_of_filter. tauto. Qed.

(** The walk of [removeAllByNodeID] over the references [l]. *)
Lemma removeAll_walk nodeID (l : list nat) st :
  let st' :=
    forEach (λ st r, if decide (ServiceCatalog.ownedByID st nodeID r)
                     then ServiceCatalog.removeService st r else st) l st in
  reg_heap st' = reg_heap st ∧
  broker_frame st st' ∧
  (∀ r, r ∈ reg_services st' ↔
        r ∈ reg_services st ∧ ¬ (r ∈ l ∧ ServiceCatalog.ownedByID st nodeID r)) ∧
  (∀ n e, routed (reg_actions st') n e ↔
          routed (reg_actions st) n e ∧
          ¬ (ep_service e ∈ l ∧
             ServiceCatalog.ownedByID st nodeID (ep_service e))) ∧
  (∀ n e, routed (reg_events st') n e ↔
          routed (reg_events st) n e ∧
          ¬ (ep_service e ∈ l ∧
             ServiceCatalog.ownedByID st nodeID (ep_service e))).
Proof.
  unfold forEach. revert st. induction l as [|a l IH]; intros st; simpl.
  - split; [done|]. split; [done|].
    repeat split; try (by intros [? _]); try done;
      by intros [?%elem_of_nil _].
  - set (st1 := if decide _ then _ else _).
    destruct (IH st1) as (Hh & Hb & Hs & Ha & He).
    assert (Hh1 : reg_heap st1 = reg_heap st)
      by (subst st1; by case_decide).
    assert (Hb1 : broker_frame st st1)
      by (subst st1; by case_decide).
    assert (Hown : ∀ r, ServiceCatalog.ownedByID st1 nodeID r ↔
                        ServiceCatalog.ownedByID st nodeID r)
      by (intros; by apply ownedByID_heap).
    split; [congruence|]. split; [by eapply broker_frame_trans|].
    split; [|split].
    + intros r. rewrite Hs, Hown, elem_of_cons. subst st1.
      case_decide as Ho.
      * rewrite removeService_services. split.
        -- intros [[? ?] Hn]. split; [done|]. intros [[->|?] ?]; [done|tauto].
        -- intros [? Hn]. split; [split; [done|]|].
           ++ intros ->. apply Hn. split; [by left | done].
           ++ intros [? ?]. apply Hn. split; [by right | done].
      * split; intros [? Hn]; (split; [done|]).
        -- intros [[->|?] ?]; [done|tauto].
        -- intros [? ?]. apply Hn. split; [by right | done].
    + intros n e. rewrite Ha, Hown, elem_of_cons. subst st1.
      case_decide as Ho.
      * simpl. rewrite routed_Catalog_removeByService. split.
        -- intros [[? ?] Hn]. split; [done|]. intros [[Heq|?] ?]; [done|tauto].
        -- intros [? Hn]. split; [split; [done|]|].
           ++ intros Heq. apply Hn. rewrite Heq. split; [by left | done].
           ++ intros [? ?]. apply Hn. split; [by right | done].
      * split; intros [? Hn]; (split; [done|]).
        -- intros [[Heq|?] ?]; [by rewrite Heq in *|tauto].
        -- intros [? ?]. apply Hn. split; [by right | done].
    + intros n e. rewrite He, Hown, elem_of_cons. subst st1.
      case_decide as Ho.
      * simpl. rewrite routed_Catalog_removeByService. split.
        -- intros [[? ?] Hn]. split; [done|]. intros [[Heq|?] ?]; [done|tauto].
        -- intros [? Hn]. split; [split; [done|]|].
           ++ intros Heq. apply Hn. rewrite Heq. split; [by left | done].
           ++ intros [? ?]. apply Hn. split; [by right | done].
      * split; intros [? Hn]; (split; [done|]).
        -- intros [[Heq|?] ?]; [by rewrite Heq in *|tauto].
        -- intros [? ?]. apply Hn. split; [by right | done].
Qed.

(** X7. [unregisterServicesByNode(nodeID)] removes exactly the recorded
    services of nodes with that id, with the endpoints they registered:
    afterwards no service is recorded under the id, the services recorded
    under any other id are the same, an endpoint is routed exactly when it was
    and no removed service registered it, and a second call changes nothing.
    When every endpoint of the node was registered by a recorded service of
    the node, [getActionEndpointByNodeId] returns the absent result for that
    node under every name. *)
Theorem unregisterServicesByNode_removes_the_node (st : Registry)
  (nodeID : string) :
  let st' := unregisterServicesByNode st nodeID in
  (∀ r, r ∈ reg_services st' ↔
        r ∈ reg_services st ∧ ¬ ServiceCatalog.ownedByID st nodeID r) ∧
  (∀ name version, ¬ recorded st' name version nodeID) ∧
  (∀ name version other, other ≠ nodeID →
     recorded st' name version other ↔ recorded st name version other) ∧
  (∀ name e, routed (reg_actions st') name e ↔
     routed (reg_actions st) name e ∧
     ¬ (ep_service e ∈ reg_services st ∧
        ServiceCatalog.ownedByID st nodeID (ep_service e))) ∧
  (∀ name e, routed (reg_events st') name e ↔
     routed (reg_events st) name e ∧
     ¬ (ep_service e ∈ reg_services st ∧
        ServiceCatalog.ownedByID st nodeID (ep_service e))) ∧
  ((∀ name e, routed (reg_actions st) name e → ep_nodeID e = nodeID →
      ep_service e ∈ reg_services st ∧
      ServiceCatalog.ownedByID st nodeID (ep_service e)) →
   ∀ name, getActionEndpointByNodeId st' name nodeID = Normal None) ∧
  unregisterServicesByNode st' nodeID = st'.
Proof.
  intros st'.
  destruct (removeAll_walk nodeID (reg_services st) st) as (Hh & _ & Hs & Ha & He).
  fold (ServiceCatalog.removeAllByNodeID st nodeID) in Hh, Hs, Ha, He.
  fold (unregisterServicesByNode st nodeID) in Hh, Hs, Ha, He. fold st' in Hh, Hs, Ha, He.
  clearbody st'.
  assert (Hs' : ∀ r, r ∈ reg_services st' ↔
                     r ∈ reg_services st ∧ ¬ ServiceCatalog.ownedByID st nodeID r).
  { intros r. rewrite Hs. tauto. }
  split; [done|]. split; [|split; [|split; [|split; [|split]]]].
  - intros name version. rewrite recorded_iff. intros (r & Hr & Hm).
    apply Hs' in Hr as [_ Hn]. apply Hn.
    rewrite (matches_heap _ _ _ _ _ _ Hh) in Hm. by eapply matches_ownedByID.
  - intros name version other Hne. rewrite !recorded_iff.
    split; intros (r & Hr & Hm); exists r.
    + rewrite (matches_heap _ _ _ _ _ _ Hh) in Hm. split; [|done].
      by apply Hs' in Hr as [? _].
    + rewrite (matches_heap _ _ _ _ _ _ Hh). split; [|done].
      apply Hs'. split; [done|]. intros Ho. apply Hne.
      apply matches_ownedByID in Hm. by eapply ownedByID_functional.
  - done.
  - done.
  - intros Hbacked name. rewrite getActionEndpointByNodeId_endpointOf. f_equal.
    apply endpointOf_None. intros e [Hr Hn]%Ha Hid. apply Hn. by apply (Hbacked name).
  - unfold unregisterServicesByNode, ServiceCatalog.removeAllByNodeID.
    apply forEach_id. intros r [_ Hn]%Hs'. rewrite decide_False; [done|].
    by rewrite (ownedByID_heap _ _ _ _ Hh).
Qed.

(** Scenario C of the specification, on the registry of Scenario A: node B
    is unregistered, node A keeps math@1. *)
Lemma unregisterServicesByNode_removes_the_node_witness :
  (∀ name version,
     ¬ recorded (unregisterServicesByNode Scenario.A "B") name version "B") ∧
  (∀ name, getActionEndpointByNodeId (unregisterServicesByNode Scenario.A "B")
             name "B" = Normal None) ∧
  recorded (unregisterServicesByNode Scenario.A "B") (Some "math") (Some 1) "A".
Proof.
  destruct (unregisterServicesByNode_removes_the_node Scenario.A "B")
    as (_ & Hrec & Hother & _ & _ & Hcasc & _).
  assert (H4 : map_Forall (λ _ l,
                 Forall (λ e : Endpoint Action, ep_nodeID e = "B" →
                   ep_service e ∈ reg_services Scenario.A ∧
                   ServiceCatalog.ownedByID Scenario.A "B" (ep_service e)) l)
                 (reg_actions Scenario.A))
    by (apply (bool_decide_unpack _); by vm_compute).
  split; [exact Hrec|]. split; [exact (Hcasc (routed_Forall _ _ H4))|].
  apply (proj2 (Hother (Some "math") (Some 1) "A" ltac:(congruence))).
  exists 0. by vm_compute.
Defined.

(** X8. [unregisterService(name, version, nodeID)], when a service is found
    under the key, removes that one service object from the catalogue and
    the endpoints it registered from both endpoint catalogues, and nothing
    else: what is recorded under any other key is the same.  When the
    services of the node are found by their keys (no two of them share one),
    nothing is recorded under the key afterwards. *)
Theorem unregisterService_removes_one_service (st : Registry)
  (name : option string) (version : option nat) (nodeID : option string)
  (r : nat) :
  let key := js_or nodeID (reg_nodeID st) in
  ServiceCatalog.get st name version key = Some r →
  let st' := unregisterService st name version nodeID in
  (∀ r', r' ∈ reg_services st' ↔ r' ∈ reg_services st ∧ r' ≠ r) ∧
  (∀ n e, routed (reg_actions st') n e ↔
          routed (reg_actions st) n e ∧ ep_service e ≠ r) ∧
  (∀ n e, routed (reg_events st') n e ↔
          routed (reg_events st) n e ∧ ep_service e ≠ r) ∧
  (∀ name' version' nodeID',
     (name', version', nodeID') ≠ (name, version, key) →
     recorded st' name' version' nodeID' ↔ recorded st name' version' nodeID') ∧
  (found_by_key key st → ¬ recorded st' name version key).
Proof.
  intros key Hget st'. subst st'. unfold unregisterService. fold key.
  unfold ServiceCatalog.remove. rewrite Hget.
  pose proof (get_Some_matches _ _ _ _ _ Hget) as [Hr Hm].
  split; [apply removeService_services|].
  split; [intros; apply routed_Catalog_removeByService|].
  split; [intros; apply routed_Catalog_removeByService|].
  split.
  - intros name' version' nodeID' Hne. rewrite !recorded_iff.
    split; intros (r' & Hr' & Hm'); exists r'.
    + rewrite (matches_heap st) in Hm' by done. split; [|done].
      by apply removeService_services in Hr' as [? _].
    + rewrite (matches_heap st) by done. split; [|done].
      apply removeService_services. split; [done|]. intros ->. apply Hne.
      unfold ServiceCatalog.matches, ServiceItem.equals in Hm, Hm'.
      destruct (reg_heap st !! r); [|done].
      destruct Hm as (<- & <- & <-), Hm' as (<- & <- & <-). done.
  - intros Hfound. rewrite recorded_iff. intros (r' & Hr' & Hm').
    rewrite (matches_heap st) in Hm' by done.
    apply removeService_services in Hr' as [Hr' Hne]. apply Hne.
    unfold ServiceCatalog.matches in Hm'.
    destruct (reg_heap st !! r') as [s'|] eqn:Hs'; [|done].
    destruct Hm' as (Hn & Hv & Hid).
    pose proof (Hfound r' s' Hr' Hs' Hid) as Hget'.
    rewrite Hn, Hv in Hget'. congruence.
Qed.

(** In the registry of Scenario A, math@1 of node B is unregistered. *)
Lemma unregisterService_removes_one_service_witness :
  (∀ r', r' ∈ reg_services
                (unregisterService Scenario.A (Some "math") (Some 1) (Some "B")) ↔
         r' ∈ reg_services Scenario.A ∧ r' ≠ 1) ∧
  recorded (unregisterService Scenario.A (Some "math") (Some 1) (Some "B"))
    (Some "math") (Some 1) "A".
Proof.
  destruct (unregisterService_removes_one_service Scenario.A (Some "math")
              (Some 1) (Some "B") 1 ltac:(by vm_compute))
    as (Hs & _ & _ & Hother & _).
  split; [exact Hs|].
  apply (proj2 (Hother (Some "math") (Some 1) "A"
                  ltac:(intros H; vm_compute in H; discriminate H))).
  exists 0. by vm_compute.
Defined.

(** ** Local registration *)

Lemma addAll_empty {T} (nameOf : T → string) cat node service :
  addAll nameOf cat node service ∅ = cat.
Proof. unfold addAll. by rewrite map_to_list_empty. Qed.

Lemma registerLocalService_catalogues st svc :
  let st' := registerLocalService st svc in
  let r := length (reg_heap st) in
  reg_actions st'
    = addAll action_name (reg_actions st) (reg_localNode st) r (actions_of svc) ∧
  reg_events st'
    = addAll event_name (reg_events st) (reg_localNode st) r (events_of svc) ∧
  reg_log st' = reg_log st ++ [ServiceRegistered (svc_name svc)] ∧
  reg_nodeID st' = reg_nodeID st.
Proof.
  unfold registerLocalService, ServiceCatalog.add, actions_of, events_of. simpl.
  set (st0 := set_services _ _).
  set (st1 := match svc_actions svc with Some _ => _ | None => _ end).
  set (st2 := match svc_events svc with Some _ => _ | None => _ end).
  assert (H1 : actions_frame st0 st1 ∧
               reg_actions st1 = addAll action_name (reg_actions st)
                 (reg_localNode st) (length (reg_heap st))
                 (default ∅ (svc_actions svc))).
  { subst st1. destruct (svc_actions svc) as [ma|]; simpl.
    - split; [apply registerActions_frame | by rewrite registerActions_catalog].
    - split; [by repeat split | by rewrite addAll_empty]. }
  destruct H1 as [(Hn1 & Hl1 & _ & _ & _ & _ & He1 & Hlog1) Ha1].
  assert (H2 : events_frame st1 st2 ∧
               reg_events st2 = addAll event_name (reg_events st)
                 (reg_localNode st) (length (reg_heap st))
                 (default ∅ (svc_events svc))).
  { subst st2. destruct (svc_events svc) as [me|]; simpl.
    - split; [apply registerEvents_frame|].
      by rewrite registerEvents_catalog, Hl1, He1.
    - split; [by repeat split | by rewrite addAll_empty, He1]. }
  destruct H2 as [(Hn2 & _ & _ & _ & _ & _ & Ha2 & Hlog2) He2].
  simpl. rewrite Ha2, Ha1, He2, Hlog2, Hlog1, Hn2, Hn1. by subst st0.
Qed.

Lemma registerLocalService_heap st svc :
  let st' := registerLocalService st svc in
  let r := length (reg_heap st) in
  (∀ r' s, reg_heap st !! r' = Some s → reg_heap st' !! r' = Some s) ∧
  ∃ s, reg_heap st' !! r = Some s ∧
       service_key s = (reg_localNode st, svc_name svc, svc_version svc) ∧
       (∀ key a, actions_of svc !! key = Some a →
          is_Some (service_actions s !! action_name a)) ∧
       (∀ key ev, events_of svc !! key = Some ev →
          is_Some (service_events s !! event_name ev)).
Proof.
  unfold registerLocalService, ServiceCatalog.add, actions_of, events_of. simpl.
  set (new := mkServiceItem _ _ _ _ _ _).
  set (st0 := set_services _ _).
  set (st1 := match svc_actions svc with Some _ => _ | None => _ end).
  set (st2 := match svc_events svc with Some _ => _ | None => _ end).
  set (r := length (reg_heap st)).
  assert (H0 : reg_heap st0 !! r = Some new).
  { subst st0 r. simpl. by rewrite lookup_app_r, Nat.sub_diag. }
  assert (H1 : (∀ r', r' ≠ r → reg_heap st1 !! r' = reg_heap st0 !! r') ∧
               actions_frame st0 st1 ∧
               ∃ s, reg_heap st1 !! r = Some s ∧
                 ∀ key a, default ∅ (svc_actions svc) !! key = Some a →
                   is_Some (service_actions s !! action_name a)).
  { subst st1. destruct (svc_actions svc) as [ma|]; simpl.
    - split; [intros; by apply registerActions_heap_other|].
      split; [apply registerActions_frame|].
      destruct (map_to_list ma) as [|[k a] l] eqn:Hl.
      + apply map_to_list_empty_iff in Hl. subst ma.
        exists new. unfold registerActions. rewrite map_to_list_empty.
        split; [done|]. by intros key a ?.
      + assert (Hka : ma !! k = Some a)
          by (apply elem_of_map_to_list; rewrite Hl; left).
        destruct (registerActions_own st0 (reg_localNode st) r ma k a)
          as (s & Hs & _); [by eexists | done|].
        exists s. split; [done|]. intros key a' Hkey.
        destruct (registerActions_own st0 (reg_localNode st) r ma key a')
          as (s' & Hs' & Hheld); [by eexists | done|]. congruence.
    - split; [done|]. split; [by repeat split|].
      exists new. split; [done|]. by intros key a ?. }
  destruct H1 as (Hoth1 & Hf1 & s1 & Hs1 & Hheld1).
  assert (H2 : (∀ r', r' ≠ r → reg_heap st2 !! r' = reg_heap st1 !! r') ∧
               events_frame st1 st2 ∧
               ∃ s, reg_heap st2 !! r = Some s ∧
                 ∀ key ev, default ∅ (svc_events svc) !! key = Some ev →
                   is_Some (service_events s !! event_name ev)).
  { subst st2. destruct (svc_events svc) as [me|]; simpl.
    - split; [intros; by apply registerEvents_heap_other|].
      split; [apply registerEvents_frame|].
      destruct (map_to_list me) as [|[k a] l] eqn:Hl.
      + apply map_to_list_empty_iff in Hl. subst me.
        exists s1. unfold registerEvents. rewrite map_to_list_empty.
        split; [done|]. by intros key a ?.
      + assert (Hka : me !! k = Some a)
          by (apply elem_of_map_to_list; rewrite Hl; left).
        destruct (registerEvents_own st1 (reg_localNode st1) r me k a)
          as (s & Hs & _); [by eexists | done|].
        exists s. split; [done|]. intros key a' Hkey.
        destruct (registerEvents_own st1 (reg_localNode st1) r me key a')
          as (s' & Hs' & Hheld); [by eexists | done|]. congruence.
    - split; [done|]. split; [by repeat split|].
      exists s1. split; [done|]. by intros key a ?. }
  destruct H2 as (Hoth2 & Hf2 & s2 & Hs2 & Hheld2).
  split.
  - intros r' s Hr'.
    assert (Hlt : r' < r) by (by apply lookup_lt_Some in Hr').
    rewrite Hoth2, Hoth1 by lia. subst st0. simpl. by apply lookup_app_l_Some.
  - exists s2. split; [done|]. split; [|split; [|done]].
    + destruct Hf1 as (_ & _ & _ & Hk1 & _), Hf2 as (_ & _ & _ & Hk2 & _).
      assert (Hk : (service_key <$> reg_heap st2) !! r = Some (service_key new)).
      { rewrite Hk2, Hk1. by rewrite list_lookup_fmap, H0. }
      rewrite list_lookup_fmap, Hs2 in Hk. unfold service_key in *.
      simpl in Hk. congruence.
    + intros key a Hkey. destruct (Hheld1 key a Hkey) as [a' Ha'].
      destruct Hf2 as (_ & _ & _ & _ & Hact & _).
      destruct (fmap_lookup_held service_actions (reg_heap st1) (reg_heap st2)
                  r s1 (action_name a)) as (s' & Hs' & Hh'); [done..|by eexists|].
      congruence.
Qed.

(** X9. After [registerLocalService(svc)], on every registry: a service is
    recorded under the descriptor's name and version and the local node's
    id; the new service object is owned by the local node and holds every
    action and event of the descriptor on its own maps; for every action of
    the descriptor [getActionEndpointByNodeId] returns, at the local node's
    id, an endpoint bound to the new service, and so does the event catalogue
    for every event; the new service is appended to the local node's owned
    list and one entry is appended to the log.  A missing actions or events
    map is read as empty (the guards of lines 64 and 67). *)
Theorem registerLocalService_serves (st : Registry) (svc : Svc) :
  let st' := registerLocalService st svc in
  let r := length (reg_heap st) in
  let localNode := reg_localNode st in
  recorded st' (svc_name svc) (svc_version svc) (node_id localNode) ∧
  (∃ s, reg_heap st' !! r = Some s ∧
        service_key s = (localNode, svc_name svc, svc_version svc) ∧
        (∀ key a, actions_of svc !! key = Some a →
           is_Some (service_actions s !! action_name a)) ∧
        (∀ key ev, events_of svc !! key = Some ev →
           is_Some (service_events s !! event_name ev))) ∧
  (∀ key a, actions_of svc !! key = Some a →
     ∃ e, getActionEndpointByNodeId st' (action_name a) (node_id localNode)
            = Normal (Some e) ∧
          ep_service e = r ∧ action_name (ep_item e) = action_name a) ∧
  (∀ key ev, events_of svc !! key = Some ev →
     ∃ e, endpointOf (reg_events st') (event_name ev) (node_id localNode)
            = Some e ∧
          ep_service e = r ∧ event_name (ep_item e) = event_name ev) ∧
  reg_localServices st' = reg_localServices st ++ [r] ∧
  reg_log st' = reg_log st ++ [ServiceRegistered (svc_name svc)].
Proof.
  intros st' r localNode.
  destruct (registerLocalService_effect st svc) as (_ & Hs & Hl & Hk).
  destruct (registerLocalService_catalogues st svc) as (Ha & He & Hlog & _).
  destruct (registerLocalService_heap st svc) as [_ Hheap].
  fold st' in Hs, Hl, Hk, Ha, He, Hlog, Hheap. fold r in Hs, Hl, Ha, He, Hheap.
  fold localNode in Hk, Ha, He, Hheap. clearbody st'.
  split; [|split; [done|split; [|split; [|done]]]].
  - apply recorded_iff. exists r. split.
    + rewrite Hs. apply elem_of_app. right. left.
    + apply matches_key. exists localNode. split; [|done].
      rewrite Hk, lookup_app_r by by rewrite length_fmap.
      by rewrite length_fmap, Nat.sub_diag.
  - intros key a Hkey. rewrite getActionEndpointByNodeId_endpointOf, Ha.
    destruct (addAll_found action_name (reg_actions st) localNode r _ key a Hkey)
      as (e & -> & _ & ? & ? & _). by exists e.
  - intros key ev Hkey. rewrite He.
    destruct (addAll_found event_name (reg_events st) localNode r _ key ev Hkey)
      as (e & -> & _ & ? & ? & _). by exists e.
Qed.

(** X10. [registerLocalService] removes nothing: whatever was recorded stays
    recorded, every existing service object is unchanged, an endpoint of a
    node other than the local one is routed exactly when it was, and the
    EndpointList of a name the descriptor does not declare is the same. *)
Theorem registerLocalService_only_adds (st : Registry) (svc : Svc) :
  let st' := registerLocalService st svc in
  let localNode := reg_localNode st in
  (∀ name version nodeID,
     recorded st name version nodeID → recorded st' name version nodeID) ∧
  (∀ r s, reg_heap st !! r = Some s → reg_heap st' !! r = Some s) ∧
  (∀ name e, ep_nodeID e ≠ node_id localNode →
     routed (reg_actions st') name e ↔ routed (reg_actions st) name e) ∧
  (∀ name e, ep_nodeID e ≠ node_id localNode →
     routed (reg_events st') name e ↔ routed (reg_events st) name e) ∧
  (∀ name, (∀ key a, actions_of svc !! key = Some a → action_name a ≠ name) →
     Catalog.get (reg_actions st') name = Catalog.get (reg_actions st) name) ∧
  (∀ name, (∀ key ev, events_of svc !! key = Some ev → event_name ev ≠ name) →
     Catalog.get (reg_events st') name = Catalog.get (reg_events st) name).
Proof.
  intros st' localNode.
  destruct (registerLocalService_effect st svc) as (_ & Hs & _ & Hk).
  destruct (registerLocalService_catalogues st svc) as (Ha & He & _ & _).
  destruct (registerLocalService_heap st svc) as [Hheap _].
  fold st' in Hs, Hk, Ha, He, Hheap. fold localNode in Hk, Ha, He.
  clearbody st'. rewrite Ha, He.
  split; [|split; [done|split; [|split; [|split]]]].
  - intros name version nodeID. rewrite !recorded_iff. intros (r & Hr & Hm).
    exists r. split; [rewrite Hs; apply elem_of_app; by left|].
    unfold ServiceCatalog.matches in *.
    destruct (reg_heap st !! r) as [s|] eqn:Hsr; [|done].
    by rewrite (Hheap r s Hsr).
  - intros name e Hne. apply (routed_other_node _ _ _ (node_id localNode)); [|done].
    apply addAll_others.
  - intros name e Hne. apply (routed_other_node _ _ _ (node_id localNode)); [|done].
    apply addAll_others.
  - intros name Hund. unfold Catalog.get. by apply addAll_undeclared.
  - intros name Hund. unfold Catalog.get. by apply addAll_undeclared.
Qed.

(** ** A local registration followed by its removal *)

Section removal_after_upsert.
Context {T : Type} (nameOf : T → string).
Implicit Types (l : list (Endpoint T)) (cat : gmap string (list (Endpoint T))).

Lemma elem_of_EndpointList_add nodeID r (x : T) l e :
  e ∈ EndpointList.add nodeID r x l →
  (ep_nodeID e = nodeID ∧ ep_service e = r ∧ ep_item e = x) ∨ e ∈ l.
Proof.
  induction l as [|e0 l IH]; simpl.
  - intros ->%list_elem_of_singleton. by left.
  - case_decide.
    + intros [->|?]%elem_of_cons; [by left | right; by right].
    + intros [->|?]%elem_of_cons; [right; left|].
      destruct IH as [?|?]; [done|by left|right; by right].
Qed.

Lemma removeByService_add nodeID r (x : T) l :
  (∀ e, e ∈ l → ep_nodeID e = nodeID → ep_service e = r) →
  EndpointList.removeByService (EndpointList.add nodeID r x l) r
    = EndpointList.removeByService l r.
Proof.
  unfold EndpointList.removeByService.
  induction l as [|e0 l IH]; intros Hown; simpl.
  - by rewrite filter_cons_False by (simpl; tauto).
  - case_decide as Hid.
    + rewrite !filter_cons_False; [done| |simpl; tauto].
      intros Hne. apply Hne. apply Hown; [left|done].
    + rewrite !filter_cons, IH; [done|].
      intros e He. apply Hown. by right.
Qed.

Lemma Catalog_removeByService_add cat node r (x : T) :
  (∀ e, routed cat (nameOf x) e → ep_nodeID e = node_id node → ep_service e = r) →
  Catalog.removeByService (Catalog.add nameOf cat node r x) r
    = Catalog.removeByService cat r.
Proof.
  intros Hown. apply map_eq. intros name.
  rewrite !Catalog_removeByService_lookup, Catalog_add_lookup.
  case_decide as Hn; [|done]. subst name. simpl.
  rewrite removeByService_add.
  - by destruct (cat !! nameOf x).
  - intros e He. apply Hown. unfold routed.
    destruct (cat !! nameOf x) as [l|]; [by exists l | by apply elem_of_nil in He].
Qed.

Lemma Catalog_removeByService_addAll cat node r (m : gmap string T) :
  (∀ key x e, m !! key = Some x → routed cat (nameOf x) e →
              ep_nodeID e = node_id node → ep_service e = r) →
  Catalog.removeByService (addAll nameOf cat node r m) r
    = Catalog.removeByService cat r.
Proof.
  intros Hown. unfold addAll.
  assert (Hinv :
    Catalog.removeByService
      (forEach (λ cat entry, Catalog.add nameOf cat node r entry.2)
         (map_to_list m) cat) r = Catalog.removeByService cat r ∧
    (∀ key x e, m !! key = Some x →
       routed (forEach (λ cat entry, Catalog.add nameOf cat node r entry.2)
                 (map_to_list m) cat) (nameOf x) e →
       ep_nodeID e = node_id node → ep_service e = r)); [|by destruct Hinv].
  apply (forEach_preserves (λ c,
    Catalog.removeByService c r = Catalog.removeByService cat r ∧
    (∀ key x e, m !! key = Some x → routed c (nameOf x) e →
                ep_nodeID e = node_id node → ep_service e = r))); [|done].
  intros c [k y] Hin%elem_of_map_to_list [Hc Hcown]. simpl. split.
  - rewrite Catalog_removeByService_add; [done|].
    intros e. by apply (Hcown k y e Hin).
  - intros key x e Hkey (l & Hl & He) Hid.
    rewrite Catalog_add_lookup in Hl. case_decide as Hn.
    + injection Hl as <-.
      apply elem_of_EndpointList_add in He as [(_ & ? & _)|He]; [done|].
      apply (Hcown k y e Hin); [|done]. unfold routed.
      destruct (c !! nameOf y) as [l|]; [by exists l | by apply elem_of_nil in He].
    + apply (Hcown key x e Hkey); [|done]. by exists l.
Qed.

Lemma Catalog_removeByService_fresh cat r :
  no_empty_lists cat →
  (∀ name e, routed cat name e → ep_service e ≠ r) →
  Catalog.removeByService cat r = cat.
Proof.
  intros Hne Hfresh. apply map_eq. intros name.
  rewrite Catalog_removeByService_lookup.
  destruct (cat !! name) as [l|] eqn:Hl; simpl; [|done].
  unfold EndpointList.removeByService. rewrite filter_all.
  - pose proof (Hne _ _ Hl). by destruct l.
  - intros e He. apply (Hfresh name). by exists l.
Qed.

Lemma head_filter_filter (P Q : Endpoint T → Prop)
  `{!∀ e, Decision (P e)} `{!∀ e, Decision (Q e)} l e :
  head (filter P l) = Some e → Q e → head (filter P (filter Q l)) = Some e.
Proof.
  induction l as [|e0 l IH]; [done|]. rewrite (filter_cons P).
  case_decide as HP; simpl.
  - intros [= ->] HQ. by rewrite (filter_cons_True Q), (filter_cons_True P).
  - intros He HQ. rewrite (filter_cons Q). case_decide; [|by apply IH].
    rewrite (filter_cons_False P) by done. by apply IH.
Qed.

Lemma endpointOf_removeByService cat r name nodeID e :
  endpointOf cat name nodeID = Some e → ep_service e ≠ r →
  endpointOf (Catalog.removeByService cat r) name nodeID = Some e.
Proof.
  unfold endpointOf. rewrite Catalog_removeByService_lookup.
  destruct (cat !! name) as [l|]; simpl; [|done]. intros He Hne.
  pose proof (head_filter_filter (λ e, ep_nodeID e = nodeID)
                (λ e, ep_service e ≠ r) l e He Hne) as Hhead.
  unfold EndpointList.removeByService, EndpointList.getEndpointByNodeID in *.
  destruct (filter (λ e, ep_service e ≠ r) l); [done|]. done.
Qed.
End removal_after_upsert.

Lemma get_app_new st name version nodeID (old : list nat) r :
  (∀ r', r' ∈ old → ¬ ServiceCatalog.matches st name version nodeID r') →
  ServiceCatalog.matches st name version nodeID r →
  head (filter (ServiceCatalog.matches st name version nodeID) (old ++ [r]))
    = Some r.
Proof.
  intros Hold Hr. induction old as [|r0 old IH]; simpl.
  - by rewrite filter_cons_True.
  - rewrite filter_cons_False by (apply Hold; left).
    apply IH. intros r' Hr'. apply Hold. by right.
Qed.

(** X11. A local registration followed by [unregisterService(name, version)]
    with the node id omitted is a round trip on the three catalogues.  On a
    registry whose references are live and which holds no empty
    EndpointList, whose broker id is the local node's id, where no service is
    recorded yet under (name, version, broker id) and the local node serves
    none of the names the descriptor declares: the service is recorded after
    the registration, and after the removal the service catalogue, the action
    catalogue and the event catalogue are what they were before the
    registration. *)
Theorem local_service_round_trip (st : Registry) (svc : Svc) :
  node_id (reg_localNode st) = reg_nodeID st →
  references_live st →
  no_empty_lists (reg_actions st) →
  no_empty_lists (reg_events st) →
  ¬ recorded st (svc_name svc) (svc_version svc) (reg_nodeID st) →
  (∀ key a, actions_of svc !! key = Some a →
     endpointOf (reg_actions st) (action_name a) (reg_nodeID st) = None) →
  (∀ key ev, events_of svc !! key = Some ev →
     endpointOf (reg_events st) (event_name ev) (reg_nodeID st) = None) →
  let st1 := registerLocalService st svc in
  let st2 := unregisterService st1 (svc_name svc) (svc_version svc) None in
  recorded st1 (svc_name svc) (svc_version svc) (reg_nodeID st) ∧
  reg_services st2 = reg_services st ∧
  reg_actions st2 = reg_actions st ∧
  reg_events st2 = reg_events st ∧
  ¬ recorded st2 (svc_name svc) (svc_version svc) (reg_nodeID st).
Proof.
  intros Hid (Hlive & Halive & Helive) Hna Hne Hnew Hacts Hevs st1 st2.
  destruct (registerLocalService_effect st svc) as (_ & Hs & _ & Hk).
  destruct (registerLocalService_catalogues st svc) as (Ha & He & _ & Hn).
  destruct (registerLocalService_heap st svc) as [Hheap _].
  fold st1 in Hs, Hk, Ha, He, Hn, Hheap. subst st2. clearbody st1.
  set (r := length (reg_heap st)) in *.
  assert (Hmr : ServiceCatalog.matches st1 (svc_name svc) (svc_version svc)
                  (reg_nodeID st) r).
  { apply matches_key. exists (reg_localNode st). split; [|done].
    rewrite Hk, lookup_app_r by by rewrite length_fmap.
    by rewrite length_fmap, Nat.sub_diag. }
  assert (Hold : ∀ r', r' ∈ reg_services st →
            ¬ ServiceCatalog.matches st1 (svc_name svc) (svc_version svc)
                (reg_nodeID st) r').
  { intros r' Hr' Hm. apply Hnew. apply recorded_iff. exists r'. split; [done|].
    destruct (Hlive r' Hr') as [s Hsr']. unfold ServiceCatalog.matches in *.
    by rewrite Hsr'; rewrite (Hheap r' s Hsr') in Hm. }
  assert (Hget : ServiceCatalog.get st1 (svc_name svc) (svc_version svc)
                   (reg_nodeID st) = Some r).
  { unfold ServiceCatalog.get. rewrite Hs. by apply get_app_new. }
  assert (Hr_fresh : r ∉ reg_services st).
  { intros Hr. apply Hlive in Hr as [s Hsr%lookup_lt_Some]. subst r. lia. }
  split; [unfold recorded; by rewrite Hget|].
  unfold unregisterService. simpl. rewrite Hn.
  unfold ServiceCatalog.remove. rewrite Hget. simpl.
  split; [|split; [|split]].
  - rewrite Hs, filter_app, filter_cons_False, filter_nil, app_nil_r by tauto.
    apply filter_keeps_all. intros r' Hr' ->. done.
  - rewrite Ha, Catalog_removeByService_addAll.
    + apply Catalog_removeByService_fresh; [done|].
      intros name e [s Hse%lookup_lt_Some]%Halive. subst r. lia.
    + intros key a e Hkey Hr He0. exfalso.
      specialize (Hacts key a Hkey). rewrite endpointOf_None in Hacts.
      apply (Hacts e Hr). congruence.
  - rewrite He, Catalog_removeByService_addAll.
    + apply Catalog_removeByService_fresh; [done|].
      intros name e [s Hse%lookup_lt_Some]%Helive. subst r. lia.
    + intros key a e Hkey Hr He0. exfalso.
      specialize (Hevs key a Hkey). rewrite endpointOf_None in Hevs.
      apply (Hevs e Hr). congruence.
  - rewrite recorded_iff. intros (r' & Hr' & Hm).
    apply removeService_services in Hr' as [Hr' Hne'].
    rewrite (matches_heap st1) in Hm by done.
    rewrite Hs in Hr'. apply elem_of_app in Hr' as [Hr'|Hr'%list_elem_of_singleton];
      [by apply (Hold r') | done].
Qed.

(** On the registry of Scenario A the broker registers math@1 with [add] and
    unregisters it. *)
Lemma local_service_round_trip_witness :
  recorded (registerLocalService Scenario.A (Scenario.math [Scenario.add]))
    (Some "math") (Some 1) "local" ∧
  reg_services
    (unregisterService
       (registerLocalService Scenario.A (Scenario.math [Scenario.add]))
       (Some "math") (Some 1) None) = reg_services Scenario.A ∧
  reg_actions
    (unregisterService
       (registerLocalService Scenario.A (Scenario.math [Scenario.add]))
       (Some "math") (Some 1) None) = reg_actions Scenario.A ∧
  reg_events
    (unregisterService
       (registerLocalService Scenario.A (Scenario.math [Scenario.add]))
       (Some "math") (Some 1) None) = reg_events Scenario.A ∧
  ¬ recorded
      (unregisterService
         (registerLocalService Scenario.A (Scenario.math [Scenario.add]))
         (Some "math") (Some 1) None) (Some "math") (Some 1) "local".
Proof.
  assert (Hlive : references_live Scenario.A).
  { split; [|split].
    - apply catalogue_live_Forall. apply (bool_decide_unpack _). by vm_compute.
    - assert (H : map_Forall (λ _ l,
                    Forall (λ e : Endpoint Action,
                      is_Some (reg_heap Scenario.A !! ep_service e)) l)
                    (reg_actions Scenario.A))
        by (apply (bool_decide_unpack _); by vm_compute).
      exact (routed_Forall _ _ H).
    - assert (H : map_Forall (λ _ l,
                    Forall (λ e : Endpoint Event,
                      is_Some (reg_heap Scenario.A !! ep_service e)) l)
                    (reg_events Scenario.A))
        by (apply (bool_decide_unpack _); by vm_compute).
      exact (routed_Forall _ _ H). }
  assert (Hna : no_empty_lists (reg_actions Scenario.A))
    by (apply (bool_decide_unpack _); by vm_compute).
  assert (Hne : no_empty_lists (reg_events Scenario.A))
    by (apply (bool_decide_unpack _); by vm_compute).
  assert (Hnew : ¬ recorded Scenario.A (Some "math") (Some 1) "local").
  { intros [r Hr]. vm_compute in Hr. discriminate Hr. }
  assert (Hacts : map_Forall (λ _ a,
                    endpointOf (reg_actions Scenario.A) (action_name a) "local" = None)
                    (actions_of (Scenario.math [Scenario.add])))
    by (apply (bool_decide_unpack _); by vm_compute).
  assert (Hevs : map_Forall (λ _ ev,
                    endpointOf (reg_events Scenario.A) (event_name ev) "local" = None)
                    (events_of (Scenario.math [Scenario.add])))
    by (apply (bool_decide_unpack _); by vm_compute).
  exact (local_service_round_trip Scenario.A (Scenario.math [Scenario.add])
           eq_refl Hlive Hna Hne Hnew Hacts Hevs).
Defined.

(** X12. After two calls of [registerLocalService] with the same descriptor,
    one call of [unregisterService(name, version)] does not unregister the
    service: a service is still recorded under (name, version, broker id),
    and every action and event of the descriptor is still routed to the local
    node, through the service object of the second registration. *)
Theorem double_registration_needs_two_removals (st : Registry) (svc : Svc) :
  node_id (reg_localNode st) = reg_nodeID st →
  catalogue_live st →
  let st2 := registerLocalService (registerLocalService st svc) svc in
  let st3 := unregisterService st2 (svc_name svc) (svc_version svc) None in
  recorded st3 (svc_name svc) (svc_version svc) (reg_nodeID st) ∧
  (∀ key a, actions_of svc !! key = Some a →
     ∃ e, getActionEndpointByNodeId st3 (action_name a) (reg_nodeID st)
            = Normal (Some e) ∧
          ep_service e = S (length (reg_heap st))) ∧
  (∀ key ev, events_of svc !! key = Some ev →
     ∃ e, endpointOf (reg_events st3) (event_name ev) (reg_nodeID st) = Some e ∧
          ep_service e = S (length (reg_heap st))).
Proof.
  intros Hid Hlive st2 st3.
  set (st1 := registerLocalService st svc) in *.
  destruct (registerLocalService_effect st svc) as (Hl1 & Hs1 & _ & Hk1).
  destruct (registerLocalService_effect st1 svc) as (Hl2 & Hs2 & _ & Hk2).
  destruct (registerLocalService_catalogues st svc) as (_ & _ & _ & Hn1).
  destruct (registerLocalService_catalogues st1 svc) as (Ha2 & He2 & _ & Hn2).
  fold st1 in Hl1, Hs1, Hk1, Hn1. fold st2 in Hl2, Hs2, Hk2, Ha2, He2, Hn2.
  subst st3. clearbody st2 st1.
  set (n := length (reg_heap st)) in *.
  assert (Hlen1 : length (reg_heap st1) = S n).
  { rewrite <- (length_fmap service_key (reg_heap st1)), Hk1.
    rewrite length_app, length_fmap. simpl. subst n. lia. }
  rewrite Hlen1 in *. rewrite Hl1 in *. rewrite Hs1, Hk1 in *.
  set (key := (reg_localNode st, svc_name svc, svc_version svc)) in *.
  assert (Hm : ∀ r, r = n ∨ r = S n →
            ServiceCatalog.matches st2 (svc_name svc) (svc_version svc)
              (reg_nodeID st) r).
  { intros r Hr. apply matches_key. exists (reg_localNode st). split; [|done].
    rewrite Hk2. destruct Hr as [-> | ->].
    - rewrite lookup_app_l by (rewrite length_app, length_fmap; simpl; lia).
      by rewrite lookup_app_r, length_fmap, Nat.sub_diag
        by (rewrite length_fmap; lia).
    - rewrite lookup_app_r by (rewrite length_app, length_fmap; simpl; lia).
      rewrite length_app, length_fmap. simpl.
      by replace (S n - _) with 0 by (subst n; lia). }
  assert (Hget : ∃ r0, ServiceCatalog.get st2 (svc_name svc) (svc_version svc)
                         (reg_nodeID st) = Some r0 ∧ r0 ≠ S n).
  { unfold ServiceCatalog.get. rewrite Hs2, <- app_assoc, filter_app.
    simpl. rewrite (filter_cons_True _ n) by (apply Hm; by left).
    destruct (filter _ (reg_services st)) as [|r0 l0] eqn:Hf; simpl.
    - exists n. split; [done|lia].
    - exists r0. split; [done|].
      assert (Hin : r0 ∈ reg_services st).
      { assert (H0 : r0 ∈ r0 :: l0) by left. rewrite <- Hf in H0.
        by apply list_elem_of_filter in H0 as [_ ?]. }
      apply Hlive in Hin as [s Hsr%lookup_lt_Some]. subst n. lia. }
  destruct Hget as (r0 & Hget & Hne).
  unfold unregisterService. simpl. rewrite Hn2, Hn1.
  unfold ServiceCatalog.remove. rewrite Hget.
  split; [|split].
  - apply recorded_iff. exists (S n). split.
    + apply removeService_services. split; [|done].
      rewrite Hs2. apply elem_of_app. right. left.
    + rewrite (matches_heap st2) by done. apply Hm. by right.
  - intros k a Hka. rewrite getActionEndpointByNodeId_endpointOf. simpl.
    destruct (addAll_found action_name (reg_actions st1) (reg_localNode st)
                (S n) _ k a Hka) as (e & He & _ & Hsv & _).
    rewrite <- Ha2, Hid in He. exists e. split; [|done]. f_equal.
    apply endpointOf_removeByService; [done|congruence].
  - intros k ev Hkev. simpl.
    destruct (addAll_found event_name (reg_events st1) (reg_localNode st)
                (S n) _ k ev Hkev) as (e & He & _ & Hsv & _).
    rewrite <- He2, Hid in He. exists e. split; [|done].
    apply endpointOf_removeByService; [done|congruence].
Qed.

(** On the empty registry the broker registers math@1 with [add] twice and
    unregisters it once. *)
Lemma double_registration_needs_two_removals_witness :
  recorded
    (unregisterService
       (registerLocalService
          (registerLocalService Scenario.empty (Scenario.math [Scenario.add]))
          (Scenario.math [Scenario.add]))
       (Some "math") (Some 1) None) (Some "math") (Some 1) "local" ∧
  ∃ e, getActionEndpointByNodeId
         (unregisterService
            (registerLocalService
               (registerLocalService Scenario.empty (Scenario.math [Scenario.add]))
               (Scenario.math [Scenario.add]))
            (Some "math") (Some 1) None) "add" "local" = Normal (Some e) ∧
       ep_service e = 1.
Proof.
  destruct (double_registration_needs_two_removals Scenario.empty
              (Scenario.math [Scenario.add]) eq_refl) as (Hrec & Hact & _).
  { by intros r ?%elem_of_nil. }
  split; [exact Hrec|].
  exact (Hact "add" Scenario.add ltac:(by vm_compute)).
Defined.

(** ** When a reconciliation throws *)

Lemma forEachM_Throw {A S} (cb : S → A → Completion S) l s e :
  forEachM cb l s = Throw e ↔
  ∃ before a after_ s1,
    l = before ++ a :: after_ ∧
    forEachM cb before s = Normal s1 ∧ cb s1 a = Throw e.
Proof.
  revert s. induction l as [|a l IH]; intros s; simpl.
  - split; [done|]. intros (before & a & after_ & s1 & Hl & _). by destruct before.
  - destruct (cb s a) as [s1|e'] eqn:Hcb; simpl.
    + rewrite IH. split.
      * intros (b & x & af & s2 & -> & Hb & Hx). exists (a :: b), x, af, s2.
        simpl. by rewrite Hcb.
      * intros (b & x & af & s2 & Hl & Hb & Hx). destruct b as [|a0 b]; simpl in *.
        -- injection Hl as <- <-. injection Hb as <-. congruence.
        -- injection Hl as <- ->. rewrite Hcb in Hb. by exists b, x, af, s2.
    + split.
      * intros Heq. exists [], a, l, s. by rewrite Hcb, <- Heq.
      * intros (b & x & af & s2 & Hl & Hb & Hx). destruct b as [|a0 b]; simpl in *.
        -- injection Hl as <- <-. injection Hb as <-. congruence.
        -- injection Hl as <- ->. by rewrite Hcb in Hb.
Qed.

Lemma dropOldEvents_stage node svc (prev : gmap string Event) st :
  (∃ st', forEachM (dropOldEvent node svc) (map_to_list prev) st = Normal st' ∧
          ¬ (svc_events svc = None ∧ prev ≠ ∅)) ∨
  (forEachM (dropOldEvent node svc) (map_to_list prev) st = Throw TypeError ∧
   svc_events svc = None ∧ prev ≠ ∅).
Proof.
  destruct (svc_events svc) as [me|] eqn:Hme.
  - left. destruct (forEachM_total (dropOldEvent node svc) (map_to_list prev) st)
      as [st' Hst'].
    { intros s a _. rewrite dropOldEvent_eq, Hme. by eexists. }
    exists st'. split; [done|]. by intros [? _].
  - destruct (map_to_list prev) as [|a l] eqn:Hl.
    + left. exists st. split; [done|]. intros [_ Hne]. apply Hne.
      by apply map_to_list_empty_iff.
    + right. split; [|split; [done|]].
      * simpl. unfold dropOldEvent. by rewrite Hme.
      * intros ->. by rewrite map_to_list_empty in Hl.
Qed.

Lemma dropOldActions_stage node svc (prev : gmap string Action) st :
  (∃ st', forEachM (dropOldAction node svc) (map_to_list prev) st = Normal st' ∧
          ¬ (svc_actions svc = None ∧ prev ≠ ∅)) ∨
  (forEachM (dropOldAction node svc) (map_to_list prev) st = Throw TypeError ∧
   svc_actions svc = None ∧ prev ≠ ∅).
Proof.
  destruct (svc_actions svc) as [ma|] eqn:Hma.
  - left. destruct (forEachM_total (dropOldAction node svc) (map_to_list prev) st)
      as [st' Hst'].
    { intros s a _. rewrite dropOldAction_eq, Hma. by eexists. }
    exists st'. split; [done|]. by intros [? _].
  - destruct (map_to_list prev) as [|a l] eqn:Hl.
    + left. exists st. split; [done|]. intros [_ Hne]. apply Hne.
      by apply map_to_list_empty_iff.
    + right. split; [|split; [done|]].
      * simpl. unfold dropOldAction. by rewrite Hma.
      * intros ->. by rewrite map_to_list_empty in Hl.
Qed.

Lemma reconcile_throws_iff node st svc :
  reconcile node st svc = Throw TypeError ↔ indexes_missing_map node st svc.
Proof.
  unfold indexes_missing_map.
  destruct (ServiceCatalog.get st (svc_name svc) (svc_version svc) (node_id node))
    as [r|] eqn:Hget.
  - pose proof (get_Some_matches _ _ _ _ _ Hget) as [_ Hm].
    unfold ServiceCatalog.matches in Hm.
    destruct (reg_heap st !! r) as [s|] eqn:Hs; [|done].
    unfold reconcile. rewrite (findOrCreate_found _ _ _ _ _ Hget Hs).
    set (st1 := set_heap _ st).
    set (st2 := match svc_actions svc with Some _ => _ | None => _ end).
    destruct (dropOldActions_stage node svc (service_actions s) st2)
      as [(st3 & -> & Hna)|(-> & Hnone & Hne)]; simpl.
    + set (st4 := match svc_events svc with Some _ => _ | None => _ end).
      destruct (dropOldEvents_stage node svc (service_events s) st4)
        as [(st5 & -> & Hnev)|(-> & Hnone & Hne)].
      * split; [done|].
        intros (r' & s' & [= <-] & Hs' & Hcase).
        rewrite Hs in Hs'. injection Hs' as <-. tauto.
      * split; [|done]. intros _. exists r, s. by repeat split; try right.
    + split; [|done]. intros _. exists r, s. by repeat split; try left.
  - unfold reconcile, findOrCreate. rewrite Hget. simpl.
    split; [done|]. by intros (r & s & ? & _).
Qed.

(** X13. [registerServices] throws exactly when it reaches a descriptor that
    lacks its actions map (or its events map) while the service recorded for
    the node under the descriptor's name and version holds at least one action
    (one event): the descriptors before it were reconciled, and lines 102 /
    114 index the missing map.  In every other case the call completes. *)
Theorem registerServices_throws_iff (st : Registry) (node : Node)
  (serviceList : list Svc) :
  registerServices st node serviceList = Throw TypeError ↔
  ∃ before svc after_ st1,
    serviceList = before ++ svc :: after_ ∧
    forEachM (reconcile node) before st = Normal st1 ∧
    indexes_missing_map node st1 svc.
Proof.
  unfold registerServices.
  setoid_rewrite <- reconcile_throws_iff. rewrite <- forEachM_Throw.
  by destruct (forEachM (reconcile node) serviceList st).
Qed.

(** On the empty registry a snapshot of node B describes math@1 twice, the
    second time without its maps: the second descriptor finds the service the
    first created. *)
Lemma registerServices_throws_iff_witness :
  registerServices Scenario.empty Scenario.nodeB
    [Scenario.math [Scenario.add]; Scenario.bare] = Throw TypeError.
Proof.
  apply (proj2 (registerServices_throws_iff Scenario.empty Scenario.nodeB
                  [Scenario.math [Scenario.add]; Scenario.bare])).
  exists [Scenario.math [Scenario.add]], Scenario.bare, [].
  eexists. split; [reflexivity|]. split; [reflexivity|].
  eexists 0, _. split; [reflexivity|]. split; [reflexivity|].
  left. split; [reflexivity|].
  intros Hempty. apply (f_equal (λ m, m !! "add")) in Hempty.
  vm_compute in Hempty. discriminate.
Defined.

(** ** What a snapshot of one node leaves alone *)

Lemma others_kept_refl nodeID st : others_kept nodeID st st.
Proof. done. Qed.

Lemma others_kept_trans nodeID st1 st2 st3 :
  others_kept nodeID st1 st2 → others_kept nodeID st2 st3 →
  others_kept nodeID st1 st3.
Proof.
  intros [Ha He] [Ha' He']. split; intros name.
  - by rewrite Ha', Ha.
  - by rewrite He', He.
Qed.

Lemma Catalog_remove_others {T} (cat : gmap string (list (Endpoint T)))
  name nodeID name' :
  EndpointList.removeByNodeID
    (default [] (Catalog.remove cat name nodeID !! name')) nodeID
  = EndpointList.removeByNodeID (default [] (cat !! name')) nodeID.
Proof.
  destruct (decide (name = name')) as [<-|Hne];
    [|by rewrite Catalog_remove_lookup_ne].
  unfold Catalog.remove. destruct (cat !! name) as [l|] eqn:Hl; [|by rewrite Hl].
  simpl.
  assert (Hidem : EndpointList.removeByNodeID
                    (EndpointList.removeByNodeID l nodeID) nodeID
                  = EndpointList.removeByNodeID l nodeID).
  { unfold EndpointList.removeByNodeID. apply filter_keeps_all.
    by intros e [? _]%list_elem_of_filter. }
  destruct (EndpointList.removeByNodeID l nodeID) as [|e0 l0] eqn:Hf.
  - by rewrite lookup_delete_eq.
  - by rewrite lookup_insert_eq.
Qed.

Lemma registerActions_others_kept st node service actions :
  others_kept (node_id node) st (registerActions st node service actions).
Proof.
  split; intros name.
  - rewrite registerActions_catalog. apply addAll_others.
  - by pose proof (registerActions_frame st node service actions)
      as (_&_&_&_&_&_& -> &_).
Qed.

Lemma registerEvents_others_kept st node service events :
  others_kept (node_id node) st (registerEvents st node service events).
Proof.
  split; intros name.
  - by pose proof (registerEvents_frame st node service events)
      as (_&_&_&_&_&_& -> &_).
  - rewrite registerEvents_catalog. apply addAll_others.
Qed.

Lemma dropOldAction_others_kept node svc st entry st' :
  dropOldAction node svc st entry = Normal st' →
  others_kept (node_id node) st st'.
Proof.
  rewrite dropOldAction_eq.
  destruct (svc_actions svc) as [m|]; [|done].
  case_decide; intros [= <-]; [done|].
  split; intros name; [|done]. simpl. apply Catalog_remove_others.
Qed.

Lemma dropOldEvent_others_kept node svc st entry st' :
  dropOldEvent node svc st entry = Normal st' →
  others_kept (node_id node) st st'.
Proof.
  rewrite dropOldEvent_eq.
  destruct (svc_events svc) as [m|]; [|done].
  case_decide; intros [= <-]; [done|].
  split; intros name; [done|]. simpl. apply Catalog_remove_others.
Qed.

Lemma reconcile_others_kept node st svc st' :
  reconcile node st svc = Normal st' → others_kept (node_id node) st st'.
Proof.
  intros Hrec.
  apply reconcile_stages in Hrec
    as (st1 & service & prevActions & prevEvents & st3 & Hfind & H3 & H5).
  assert (H1 : others_kept (node_id node) st st1).
  { pose proof (findOrCreate_services node st svc) as Hf. rewrite Hfind in Hf.
    destruct Hf as (_ & Ha & He & _). unfold others_kept. by rewrite Ha, He. }
  assert (H3' : others_kept (node_id node) st st3).
  { assert (H2 : others_kept (node_id node) st
                   match svc_actions svc with
                   | Some actions => registerActions st1 node service actions
                   | None => st1
                   end).
    { destruct (svc_actions svc); [|done].
      eapply others_kept_trans; [exact H1|]. apply registerActions_others_kept. }
    destruct prevActions; [|by injection H3 as <-].
    eapply (forEachM_preserves (others_kept (node_id node) st));
      [|exact H3|exact H2].
    intros s a s' _ Hcb Hs. eapply others_kept_trans; [exact Hs|].
    by eapply dropOldAction_others_kept. }
  assert (H4 : others_kept (node_id node) st
                 match svc_events svc with
                 | Some events => registerEvents st3 node service events
                 | None => st3
                 end).
  { destruct (svc_events svc); [|done].
    eapply others_kept_trans; [exact H3'|]. apply registerEvents_others_kept. }
  destruct prevEvents; [|by injection H5 as <-].
  eapply (forEachM_preserves (others_kept (node_id node) st));
    [|exact H5|exact H4].
  intros s a s' _ Hcb Hs. eapply others_kept_trans; [exact Hs|].
  by eapply dropOldEvent_others_kept.
Qed.

Lemma reconcile_all_others_kept node serviceList st st' :
  forEachM (reconcile node) serviceList st = Normal st' →
  others_kept (node_id node) st st'.
Proof.
  intros Hall.
  eapply (forEachM_preserves (others_kept (node_id node) st));
    [|exact Hall|apply others_kept_refl].
  intros s a s' _ Hrec Hs. eapply others_kept_trans; [exact Hs|].
  by eapply reconcile_others_kept.
Qed.

(** The services of another node through the first walk. *)
Lemma grows_owned_other node st st' other r :
  grows node st st' → other ≠ node_id node →
  r ∈ reg_services st' ∧ ServiceCatalog.ownedByID st' other r ↔
  r ∈ reg_services st ∧ ServiceCatalog.ownedByID st other r.
Proof.
  intros Hg Hne. rewrite !ownedByID_key. split.
  - intros [Hr (k & Hk & Hid)].
    destruct Hg as (ks & rs & Hks & Hrs & Hnew & Hfresh).
    rewrite Hks in Hk. rewrite Hrs in Hr.
    destruct (decide (r < length (reg_heap st))) as [Hlt|Hge].
    + rewrite lookup_app_l in Hk by by rewrite length_fmap.
      split; [|by exists k].
      apply elem_of_app in Hr as [Hr|Hr]; [done|].
      rewrite Forall_forall in Hfresh. apply Hfresh in Hr. lia.
    + rewrite lookup_app_r in Hk by (rewrite length_fmap; lia).
      apply list_elem_of_lookup_2 in Hk. rewrite Forall_forall in Hnew.
      apply Hnew in Hk. congruence.
  - intros [Hr (k & Hk & Hid)]. split; [by eapply grows_services|].
    exists k. split; [|done]. by eapply grows_lookup.
Qed.

Lemma js_or_Some_cases nodeID b :
  js_or (Some nodeID) b = if decide (nodeID = EmptyString) then b else nodeID.
Proof. done. Qed.

(** The second walk removes under the id of [node] (or the broker's, for an
    empty id): a service owned under another id stays. *)
Lemma removeOldServices_keeps_other st node serviceList other r :
  other ≠ js_or (Some (node_id node)) (reg_nodeID st) →
  r ∈ reg_services st →
  ServiceCatalog.ownedByID st other r →
  r ∈ reg_services (removeOldServices st node serviceList).
Proof.
  intros Hne Hr Hown. unfold removeOldServices.
  assert (Hinv :
    reg_heap (forEach (removeOld node serviceList) (reg_services st) st)
      = reg_heap st ∧
    reg_nodeID (forEach (removeOld node serviceList) (reg_services st) st)
      = reg_nodeID st ∧
    r ∈ reg_services (forEach (removeOld node serviceList) (reg_services st) st));
    [|by destruct Hinv as (_ & _ & ?)].
  apply (forEach_preserves (λ s,
    reg_heap s = reg_heap st ∧ reg_nodeID s = reg_nodeID st ∧
    r ∈ reg_services s)); [|done].
  intros s r0 _ (Hh & Hn & Hin).
  destruct (removeOld_cases node serviceList s r0)
    as [->|(s0 & r' & _ & _ & _ & Hget & ->)]; [done|].
  split; [done|]. split; [done|]. apply removeService_services.
  split; [done|]. intros ->. apply Hne.
  apply get_Some_matches in Hget as [_ Hm]. apply matches_ownedByID in Hm.
  rewrite (ownedByID_heap st s) in Hm by done. rewrite Hn in Hm.
  by eapply ownedByID_functional.
Qed.

(** X14. A snapshot of one node leaves the other nodes alone.  When
    [registerServices(node, serviceList)] completes, the services recorded
    under any other node id are exactly those recorded before (for a node
    with an empty id, any id other than the broker's, which the removal then
    falls back to); and the endpoints of such a node, when services of that
    node registered them, are routed exactly as before, in both endpoint
    catalogues. *)
Theorem registerServices_leaves_other_nodes (st : Registry) (node : Node)
  (serviceList : list Svc) (st' : Registry) (other : string) :
  registerServices st node serviceList = Normal st' →
  other ≠ node_id node →
  (node_id node = EmptyString → other ≠ reg_nodeID st) →
  (∀ name version,
     recorded st' name version other ↔ recorded st name version other) ∧
  (served_by_own_services (reg_actions st) other st →
   ∀ name e, ep_nodeID e = other →
     routed (reg_actions st') name e ↔ routed (reg_actions st) name e) ∧
  (served_by_own_services (reg_events st) other st →
   ∀ name e, ep_nodeID e = other →
     routed (reg_events st') name e ↔ routed (reg_events st) name e).
Proof.
  unfold registerServices. intros Hreg Hne Hbroker.
  destruct (forEachM (reconcile node) serviceList st) as [st1|] eqn:H1; [|done].
  simpl in Hreg. injection Hreg as <-.
  pose proof (reconcile_all_grows _ _ _ _ H1) as [Hg (Hn & _)].
  pose proof (reconcile_all_others_kept _ _ _ _ H1) as [Hka Hke].
  destruct (removeOldServices_heap st1 node serviceList) as [Hh _].
  assert (HJ : other ≠ js_or (Some (node_id node)) (reg_nodeID st1)).
  { rewrite js_or_Some_cases, Hn. case_decide; [by apply Hbroker | done]. }
  assert (Hkeep : ∀ r, r ∈ reg_services st ∧ ServiceCatalog.ownedByID st other r →
            r ∈ reg_services (removeOldServices st1 node serviceList) ∧
            ServiceCatalog.ownedByID st1 other r).
  { intros r Hr. apply (grows_owned_other node st st1 other r Hg Hne) in Hr
      as [Hr Ho]. split; [|done].
    by apply (removeOldServices_keeps_other _ _ _ other). }
  assert (Hown1 : ∀ r, ServiceCatalog.ownedByID st other r →
            ServiceCatalog.ownedByID st1 other r).
  { intros r. rewrite !ownedByID_key. intros (k & Hk & Hid). exists k.
    split; [|done]. by eapply grows_lookup. }
  split; [|split].
  - intros name version. rewrite !recorded_iff. split.
    + intros (r & Hr & Hm). rewrite (matches_heap st1) in Hm by done.
      apply removeOldServices_subset in Hr.
      pose proof (matches_ownedByID _ _ _ _ _ Hm) as Ho.
      destruct (proj1 (grows_owned_other node st st1 other r Hg Hne))
        as [Hr0 Ho0]; [done|].
      exists r. split; [done|].
      apply (matches_grows_inv node st st1); [done| |done].
      unfold ServiceCatalog.ownedByID in Ho0.
      destruct (reg_heap st !! r); [by eexists | done].
    + intros (r & Hr & Hm). exists r.
      destruct (Hkeep r) as [Hr' _]; [split; [done|by eapply matches_ownedByID]|].
      split; [done|]. rewrite (matches_heap st1) by done.
      by eapply matches_grows.
  - intros Hown name e Hid.
    rewrite (removeOldServices_routed reg_actions removeService_actions).
    rewrite (routed_other_node (reg_actions st) (reg_actions st1) name
                  (node_id node) e (Hka name)) by congruence.
    split; [tauto|]. intros Hr. split; [done|]. intros Hin.
    apply (removeOldServices_keeps_other _ _ _ other); [done..|].
    apply Hown1. by apply (Hown name).
  - intros Hown name e Hid.
    rewrite (removeOldServices_routed reg_events removeService_events).
    rewrite (routed_other_node (reg_events st) (reg_events st1) name
                  (node_id node) e (Hke name)) by congruence.
    split; [tauto|]. intros Hr. split; [done|]. intros Hin.
    apply (removeOldServices_keeps_other _ _ _ other); [done..|].
    apply Hown1. by apply (Hown name).
Qed.

(** Scenario B of the specification, seen from node A. *)
Lemma registerServices_leaves_other_nodes_witness :
  (∀ name version,
     recorded (after (registerServices Scenario.A Scenario.nodeB
                        [Scenario.math [Scenario.add]]) Scenario.A)
       name version "A" ↔
     recorded Scenario.A name version "A") ∧
  (∀ name e, ep_nodeID e = "A" →
     routed (reg_actions
               (after (registerServices Scenario.A Scenario.nodeB
                         [Scenario.math [Scenario.add]]) Scenario.A)) name e ↔
     routed (reg_actions Scenario.A) name e).
Proof.
  assert (H1 : registerServices Scenario.A Scenario.nodeB
                 [Scenario.math [Scenario.add]]
               = Normal (after (registerServices Scenario.A Scenario.nodeB
                                  [Scenario.math [Scenario.add]]) Scenario.A))
    by (by vm_compute).
  assert (H2 : "A" ≠ node_id Scenario.nodeB) by (simpl; congruence).
  assert (H3 : node_id Scenario.nodeB = EmptyString → "A" ≠ reg_nodeID Scenario.A)
    by (intros H; discriminate H).
  assert (H4 : map_Forall (λ _ l,
                 Forall (λ e : Endpoint Action, ep_nodeID e = "A" →
                   ServiceCatalog.ownedByID Scenario.A "A" (ep_service e)) l)
                 (reg_actions Scenario.A))
    by (apply (bool_decide_unpack _); by vm_compute).
  destruct (registerServices_leaves_other_nodes Scenario.A Scenario.nodeB
              [Scenario.math [Scenario.add]] _ "A" H1 H2 H3) as (Hs & Ha & _).
  split; [exact Hs|]. apply Ha. exact (routed_Forall _ _ H4).
Defined.

(** ** The catalogue invariants *)

(** X15. The invariants of the endpoint catalogues - no EndpointList without
    endpoints is held, no EndpointList holds two endpoints of one node - hold
    on the registry the constructor leaves and are kept by every operation:
    [registerActions], [registerEvents], [unregisterAction],
    [unregisterEvent], [unregisterService], [unregisterServicesByNode],
    [registerLocalService] and every call of [registerServices] that
    completes. *)
Theorem operations_keep_well_formed :
  (∀ nodeID, well_formed (new_Registry nodeID)) ∧
  ∀ st, well_formed st →
    (∀ node service actions,
       well_formed (registerActions st node service actions)) ∧
    (∀ node service events,
       well_formed (registerEvents st node service events)) ∧
    (∀ node name, well_formed (unregisterAction st node name)) ∧
    (∀ node name, well_formed (unregisterEvent st node name)) ∧
    (∀ name version nodeID,
       well_formed (unregisterService st name version nodeID)) ∧
    (∀ nodeID, well_formed (unregisterServicesByNode st nodeID)) ∧
    (∀ svc, well_formed (registerLocalService st svc)) ∧
    (∀ node serviceList st',
       registerServices st node serviceList = Normal st' → well_formed st').
Proof.
  split; [apply well_formed_new|]. intros st Hwf.
  split; [intros; by apply well_formed_registerActions|].
  split; [intros; by apply well_formed_registerEvents|].
  split; [intros; by apply well_formed_unregisterAction|].
  split; [intros; by apply well_formed_unregisterEvent|].
  split; [intros; by apply well_formed_unregisterService|].
  split; [intros; by apply well_formed_unregisterServicesByNode|].
  split; [intros; by apply well_formed_registerLocalService|].
  intros node serviceList st' Hreg. by eapply well_formed_registerServices.
Qed.

(** The registry of Scenario A is built by the operations from an empty
    registry. *)
Lemma operations_keep_well_formed_witness :
  well_formed Scenario.A ∧
  well_formed (unregisterServicesByNode Scenario.A "B") ∧
  well_formed (after (registerServices Scenario.A Scenario.nodeB
                        [Scenario.math [Scenario.add]]) Scenario.A).
Proof.
  destruct operations_keep_well_formed as [Hnew Hkeep].
  assert (HA : well_formed Scenario.A).
  { destruct (Hkeep _ (Hnew "local")) as (_&_&_&_&_&_&_& Hreg).
    destruct (Hkeep _ (Hreg Scenario.nodeA [Scenario.math [Scenario.add]] _
                         ltac:(by vm_compute))) as (_&_&_&_&_&_&_& Hreg').
    exact (Hreg' Scenario.nodeB [Scenario.math [Scenario.add; Scenario.sub]]
             Scenario.A ltac:(by vm_compute)). }
  split; [exact HA|]. destruct (Hkeep _ HA) as (_&_&_&_&_& Hnode &_& Hreg).
  split; [apply Hnode|]. apply (Hreg Scenario.nodeB [Scenario.math [Scenario.add]]).
  by vm_compute.
Defined.

(** ** A sequence of snapshots *)

Lemma registerActions_own_inv st node r (m : gmap string Action) s' name :
  reg_heap (registerActions st node r m) !! r = Some s' →
  is_Some (service_actions s' !! name) →
  (∃ s, reg_heap st !! r = Some s ∧ is_Some (service_actions s !! name)) ∨
  (∃ k a, m !! k = Some a ∧ action_name a = name).
Proof.
  unfold registerActions. revert s'.
  apply (forEach_preserves (λ t, ∀ s',
    reg_heap t !! r = Some s' →
    is_Some (service_actions s' !! name) →
    (∃ s, reg_heap st !! r = Some s ∧ is_Some (service_actions s !! name)) ∨
    (∃ k a, m !! k = Some a ∧ action_name a = name))).
  - intros t [k a] Hin%elem_of_map_to_list IH s'. unfold registerAction. simpl.
    rewrite list_lookup_alter_eq.
    destruct (reg_heap t !! r) as [s_t|] eqn:Ht; [|done]. simpl.
    intros [= <-]. simpl. rewrite lookup_insert. case_decide as Hn.
    + intros _. right. by exists k, a.
    + intros Hheld. by apply (IH s_t).
  - intros s' Hs' Hheld. left. by exists s'.
Qed.

Lemma registerEvents_own_inv st node r (m : gmap string Event) s' name :
  reg_heap (registerEvents st node r m) !! r = Some s' →
  is_Some (service_events s' !! name) →
  (∃ s, reg_heap st !! r = Some s ∧ is_Some (service_events s !! name)) ∨
  (∃ k a, m !! k = Some a ∧ event_name a = name).
Proof.
  unfold registerEvents. revert s'.
  apply (forEach_preserves (λ t, ∀ s',
    reg_heap t !! r = Some s' →
    is_Some (service_events s' !! name) →
    (∃ s, reg_heap st !! r = Some s ∧ is_Some (service_events s !! name)) ∨
    (∃ k a, m !! k = Some a ∧ event_name a = name))).
  - intros t [k a] Hin%elem_of_map_to_list IH s'. unfold registerEvent. simpl.
    rewrite list_lookup_alter_eq.
    destruct (reg_heap t !! r) as [s_t|] eqn:Ht; [|done]. simpl.
    intros [= <-]. simpl. rewrite lookup_insert. case_decide as Hn.
    + intros _. right. by exists k, a.
    + intros Hheld. by apply (IH s_t).
  - intros s' Hs' Hheld. left. by exists s'.
Qed.

Lemma fmap_lookup_same {V} (f : ServiceItem → V) (h h' : list ServiceItem)
  r s' :
  f <$> h' = f <$> h → h' !! r = Some s' →
  ∃ s, h !! r = Some s ∧ f s = f s'.
Proof.
  intros Heq Hs'.
  assert (Hr : (f <$> h) !! r = Some (f s'))
    by by rewrite <- Heq, list_lookup_fmap, Hs'.
  rewrite list_lookup_fmap in Hr. destruct (h !! r) as [s|]; [|done].
  injection Hr as Hr. by exists s.
Qed.

(** The names the service of a reconciled descriptor holds afterwards: those
    it held, and those the descriptor declares. *)
Lemma reconcile_own_inv node st svc st' r s' :
  reconcile node st svc = Normal st' →
  reg_heap st' !! r = Some s' →
  match ServiceCatalog.get st (svc_name svc) (svc_version svc) (node_id node) with
  | Some r' => r = r'
  | None => r = length (reg_heap st)
  end →
  (∀ name, is_Some (service_actions s' !! name) →
     (∃ s, reg_heap st !! r = Some s ∧ is_Some (service_actions s !! name)) ∨
     (∃ k a, actions_of svc !! k = Some a ∧ action_name a = name)) ∧
  (∀ name, is_Some (service_events s' !! name) →
     (∃ s, reg_heap st !! r = Some s ∧ is_Some (service_events s !! name)) ∨
     (∃ k a, events_of svc !! k = Some a ∧ event_name a = name)).
Proof.
  intros Hrec Hs' Hr.
  apply reconcile_stages in Hrec
    as (st1 & service & prevActions & prevEvents & st3 & Hfind & H3 & H5).
  (* the service object as the lookup or the creation leaves it *)
  assert (H1 : service = r ∧
    ∀ s1, reg_heap st1 !! r = Some s1 →
      (∀ name, is_Some (service_actions s1 !! name) →
         ∃ s, reg_heap st !! r = Some s ∧ is_Some (service_actions s !! name)) ∧
      (∀ name, is_Some (service_events s1 !! name) →
         ∃ s, reg_heap st !! r = Some s ∧ is_Some (service_events s !! name))).
  { unfold findOrCreate in Hfind.
    destruct (ServiceCatalog.get st _ _ _) as [r'|].
    - injection Hfind as <- <- _ _. subst r'. split; [done|]. simpl.
      intros s1. rewrite list_lookup_alter_eq.
      destruct (reg_heap st !! r) as [s|]; [|done]. simpl. intros [= <-].
      simpl. split; intros name Hheld; by exists s.
    - injection Hfind as <- <- _ _. subst r. split; [done|]. simpl.
      intros s1. rewrite lookup_app_r, Nat.sub_diag by done. simpl.
      intros [= <-]. simpl.
      split; intros name [x Hx]; by rewrite lookup_empty in Hx. }
  destruct H1 as [-> H1].
  set (st2 := match svc_actions svc with
              | Some actions => registerActions st1 node r actions
              | None => st1
              end) in *.
  assert (Hh3 : reg_heap st3 = reg_heap st2).
  { destruct prevActions; [by apply dropOldActions_frame in H3 as [? _]|].
    by injection H3 as <-. }
  set (st4 := match svc_events svc with
              | Some events => registerEvents st3 node r events
              | None => st3
              end) in *.
  assert (Hh5 : reg_heap st' = reg_heap st4).
  { destruct prevEvents; [by apply dropOldEvents_frame in H5 as [? _]|].
    by injection H5 as <-. }
  rewrite Hh5 in Hs'.
  (* the events stage leaves the action maps alone, and conversely *)
  assert (H4a : service_actions <$> reg_heap st4 = service_actions <$> reg_heap st3).
  { subst st4. destruct (svc_events svc) as [me|]; [|done].
    by pose proof (registerEvents_frame st3 node r me) as (_&_&_&_& ? &_). }
  assert (H2e : service_events <$> reg_heap st2 = service_events <$> reg_heap st1).
  { subst st2. destruct (svc_actions svc) as [ma|]; [|done].
    by pose proof (registerActions_frame st1 node r ma) as (_&_&_&_& ? &_). }
  split.
  - intros name Hheld.
    destruct (fmap_lookup_same service_actions _ _ r s' H4a Hs')
      as (s3 & Hs3 & Heq3). rewrite <- Heq3 in Hheld. rewrite Hh3 in Hs3.
    subst st2. unfold actions_of.
    destruct (svc_actions svc) as [ma|]; simpl.
    + destruct (registerActions_own_inv _ _ _ _ _ name Hs3 Hheld)
        as [(s1 & Hs1 & Hh1)|?]; [|by right].
      left. by apply (H1 s1).
    + left. by apply (H1 s3).
  - intros name Hheld. subst st4. unfold events_of.
    assert (Hfrom3 : ∀ s3, reg_heap st3 !! r = Some s3 →
              is_Some (service_events s3 !! name) →
              ∃ s, reg_heap st !! r = Some s ∧ is_Some (service_events s !! name)).
    { intros s3 Hs3 Hh. rewrite Hh3 in Hs3.
      destruct (fmap_lookup_same service_events _ _ r s3 H2e Hs3)
        as (s1 & Hs1 & Heq1). rewrite <- Heq1 in Hh. by apply (H1 s1). }
    destruct (svc_events svc) as [me|]; simpl.
    + destruct (registerEvents_own_inv _ _ _ _ _ name Hs' Hheld)
        as [(s3 & Hs3 & Hh3')|?]; [|by right].
      left. by apply (Hfrom3 s3).
    + left. by apply (Hfrom3 s').
Qed.

Lemma reconcile_holds_assigned ownerA ownerE node st svc st' :
  reconcile node st svc = Normal st' →
  named_by_key svc →
  declares_assigned ownerA ownerE svc →
  catalogue_live st →
  holds_assigned ownerA ownerE (node_id node) st →
  holds_assigned ownerA ownerE (node_id node) st'.
Proof.
  intros Hrec [Hna Hne] [Hda Hde] Hlive Hold r s' Hr Hs' Hid.
  destruct (reconcile_service _ _ _ _ Hrec) as (r0 & Hr0 & Hm0 & Hcase).
  destruct (decide (r = r0)) as [->|Hne0].
  - destruct (reconcile_own_inv node st svc st' r0 s' Hrec Hs') as [Hacts Hevs].
    { destruct (ServiceCatalog.get st _ _ _); by destruct Hcase. }
    rewrite (matches_item _ _ _ _ _ _ Hs') in Hm0. destruct Hm0 as (Hn' & Hv' & _).
    assert (Hbefore : ∀ s, reg_heap st !! r0 = Some s →
              r0 ∈ reg_services st ∧ node_id (service_node s) = node_id node ∧
              service_name s = service_name s' ∧
              service_version s = service_version s').
    { intros s Hs.
      destruct (ServiceCatalog.get st _ _ _) as [r'|] eqn:Hget.
      - destruct Hcase as [-> _]. apply get_Some_matches in Hget as [Hin Hm].
        rewrite (matches_item _ _ _ _ _ _ Hs) in Hm. destruct Hm as (? & ? & ?).
        repeat split; congruence.
      - destruct Hcase as [-> _]. apply lookup_lt_Some in Hs. lia. }
    split; intros name x Hx.
    + destruct (Hacts name) as [(s & Hs & [y Hy])|(k & a & Hk & Hname)];
        [by eexists|..].
      * destruct (Hbefore s Hs) as (Hin & Hids & <- & <-).
        by apply (proj1 (Hold r0 s Hin Hs Hids) name y).
      * pose proof (Hna k a Hk) as Hkey. simpl in Hkey.
        pose proof (Hda k a Hk) as Hown. simpl in Hown.
        unfold svc_key in Hown. congruence.
    + destruct (Hevs name) as [(s & Hs & [y Hy])|(k & a & Hk & Hname)];
        [by eexists|..].
      * destruct (Hbefore s Hs) as (Hin & Hids & <- & <-).
        by apply (proj2 (Hold r0 s Hin Hs Hids) name y).
      * pose proof (Hne k a Hk) as Hkey. simpl in Hkey.
        pose proof (Hde k a Hk) as Hown. simpl in Hown.
        unfold svc_key in Hown. congruence.
  - assert (Hin : r ∈ reg_services st).
    { destruct (ServiceCatalog.get st _ _ _).
      - destruct Hcase as [_ Hs]. by rewrite <- Hs.
      - destruct Hcase as [_ Hs]. rewrite Hs in Hr.
        by apply elem_of_app in Hr as [?|?%list_elem_of_singleton]. }
    rewrite (reconcile_heap_other _ _ _ _ r Hrec) in Hs'.
    + by apply (Hold r s').
    + by apply Hlive.
    + destruct (ServiceCatalog.get st _ _ _); [|done].
      destruct Hcase as [-> _]. congruence.
Qed.

Lemma registerServices_holds_assigned ownerA ownerE st node serviceList st' :
  registerServices st node serviceList = Normal st' →
  Forall named_by_key serviceList →
  Forall (declares_assigned ownerA ownerE) serviceList →
  catalogue_live st →
  holds_assigned ownerA ownerE (node_id node) st →
  holds_assigned ownerA ownerE (node_id node) st'.
Proof.
  unfold registerServices. intros Hreg Hnamed Hdecl Hlive Hold.
  destruct (forEachM (reconcile node) serviceList st) as [st1|] eqn:H1; [|done].
  simpl in Hreg. injection Hreg as <-.
  rewrite Forall_forall in Hnamed, Hdecl.
  assert (H1' : catalogue_live st1 ∧ holds_assigned ownerA ownerE (node_id node) st1).
  { eapply (forEachM_preserves
              (λ s, catalogue_live s ∧
                    holds_assigned ownerA ownerE (node_id node) s));
      [|exact H1|done].
    intros s svc s' Hin Hrec [Hl Hh]. split.
    - by eapply reconcile_catalogue_live.
    - eapply reconcile_holds_assigned; [exact Hrec|auto..]. }
  destruct H1' as [_ Hold1].
  destruct (removeOldServices_heap st1 node serviceList) as [Hh _].
  intros r s Hr Hs Hid. rewrite Hh in Hs.
  apply removeOldServices_subset in Hr. by apply (Hold1 r s).
Qed.

Lemma holds_assigned_names_apart ownerA ownerE node serviceList st :
  Forall (declares_assigned ownerA ownerE) serviceList →
  holds_assigned ownerA ownerE (node_id node) st →
  names_apart node serviceList st.
Proof.
  intros Hdecl Hold. rewrite Forall_forall in Hdecl.
  split; intros r s name svc Hr Hs Hid [x Hx] Hin [y Hy].
  - pose proof (proj1 (Hold r s Hr Hs Hid) name x Hx) as H1.
    pose proof (proj1 (Hdecl svc Hin) name y Hy) as H2. simpl in H1, H2.
    unfold svc_key in H2. split; congruence.
  - pose proof (proj2 (Hold r s Hr Hs Hid) name x Hx) as H1.
    pose proof (proj2 (Hdecl svc Hin) name y Hy) as H2. simpl in H1, H2.
    unfold svc_key in H2. split; congruence.
Qed.

Lemma reconcile_plain_names node st svc st' :
  reconcile node st svc = Normal st' →
  named_by_key svc →
  declares_plain svc →
  catalogue_live st →
  plain_names node st →
  plain_names node st'.
Proof.
  intros Hrec [Hna Hne] [Hda Hde] Hlive [Hpa Hpe].
  destruct (reconcile_service _ _ _ _ Hrec) as (r0 & Hr0 & Hm0 & Hcase).
  assert (Hstep : ∀ r s', r ∈ reg_services st' → reg_heap st' !! r = Some s' →
    node_id (service_node s') = node_id node →
    (∀ name, is_Some (service_actions s' !! name) →
       (∃ s, r ∈ reg_services st ∧ reg_heap st !! r = Some s ∧
             node_id (service_node s) = node_id node ∧
             is_Some (service_actions s !! name)) ∨
       (∃ a, actions_of svc !! name = Some a)) ∧
    (∀ name, is_Some (service_events s' !! name) →
       (∃ s, r ∈ reg_services st ∧ reg_heap st !! r = Some s ∧
             node_id (service_node s) = node_id node ∧
             is_Some (service_events s !! name)) ∨
       (∃ a, events_of svc !! name = Some a))).
  { intros r s' Hr Hs' Hid.
    destruct (decide (r = r0)) as [->|Hne0].
    - destruct (reconcile_own_inv node st svc st' r0 s' Hrec Hs') as [Hacts Hevs].
      { destruct (ServiceCatalog.get st _ _ _); by destruct Hcase. }
      assert (Hbefore : ∀ s, reg_heap st !! r0 = Some s →
                r0 ∈ reg_services st ∧ node_id (service_node s) = node_id node).
      { intros s Hs.
        destruct (ServiceCatalog.get st _ _ _) as [r'|] eqn:Hget.
        - destruct Hcase as [-> _]. apply get_Some_matches in Hget as [Hin Hm].
          rewrite (matches_item _ _ _ _ _ _ Hs) in Hm. by destruct Hm as (? & ? & ?).
        - destruct Hcase as [-> _]. apply lookup_lt_Some in Hs. lia. }
      split; intros name Hheld.
      + destruct (Hacts name Hheld) as [(s & Hs & Hy)|(k & a & Hk & Hname)].
        * left. exists s. destruct (Hbefore s Hs). by repeat split.
        * right. exists a. pose proof (Hna k a Hk) as Hkey. simpl in Hkey.
          congruence.
      + destruct (Hevs name Hheld) as [(s & Hs & Hy)|(k & a & Hk & Hname)].
        * left. exists s. destruct (Hbefore s Hs). by repeat split.
        * right. exists a. pose proof (Hne k a Hk) as Hkey. simpl in Hkey.
          congruence.
    - assert (Hin : r ∈ reg_services st).
      { destruct (ServiceCatalog.get st _ _ _).
        - destruct Hcase as [_ Hs]. by rewrite <- Hs.
        - destruct Hcase as [_ Hs]. rewrite Hs in Hr.
          by apply elem_of_app in Hr as [?|?%list_elem_of_singleton]. }
      rewrite (reconcile_heap_other _ _ _ _ r Hrec) in Hs'.
      + split; intros name Hheld; left; by exists s'.
      + by apply Hlive.
      + destruct (ServiceCatalog.get st _ _ _); [|done].
        destruct Hcase as [-> _]. congruence. }
  split; intros r s' name Hr Hs' Hid Hheld.
  - destruct (proj1 (Hstep r s' Hr Hs' Hid) name Hheld)
      as [(s & Hin & Hs & Hids & Hold)|[a Ha]].
    + by apply (Hpa r s name).
    + by apply (Hda name a).
  - destruct (proj2 (Hstep r s' Hr Hs' Hid) name Hheld)
      as [(s & Hin & Hs & Hids & Hold)|[a Ha]].
    + by apply (Hpe r s name).
    + by apply (Hde name a).
Qed.

Lemma registerServices_plain_names st node serviceList st' :
  registerServices st node serviceList = Normal st' →
  Forall named_by_key serviceList →
  Forall declares_plain serviceList →
  catalogue_live st →
  plain_names node st →
  plain_names node st'.
Proof.
  unfold registerServices. intros Hreg Hnamed Hdecl Hlive Hold.
  destruct (forEachM (reconcile node) serviceList st) as [st1|] eqn:H1; [|done].
  simpl in Hreg. injection Hreg as <-.
  rewrite Forall_forall in Hnamed, Hdecl.
  assert (H1' : catalogue_live st1 ∧ plain_names node st1).
  { eapply (forEachM_preserves (λ s, catalogue_live s ∧ plain_names node s));
      [|exact H1|done].
    intros s svc s' Hin Hrec [Hl Hh]. split.
    - by eapply reconcile_catalogue_live.
    - eapply reconcile_plain_names; [exact Hrec|auto..]. }
  destruct H1' as [_ [Hpa Hpe]].
  destruct (removeOldServices_heap st1 node serviceList) as [Hh _].
  split; intros r s name Hr Hs Hid; rewrite Hh in Hs;
    apply removeOldServices_subset in Hr.
  - by apply (Hpa r s).
  - by apply (Hpe r s).
Qed.

(** X16. Snapshot convergence over a sequence of calls.  When every action
    and event name belongs to one service (as with names prefixed by the
    service's name) and none is the name of a member of [Object.prototype],
    on a registry that satisfies the data-model invariants for a node with a
    non-empty id and in which the node's services hold such names of their
    own only: every sequence of calls [registerServices(node, S1)], ...,
    [registerServices(node, Sn)] completes when the lists are snapshots
    (complete descriptors, no service described twice, entries filed under
    their names) that declare such names of their own services only, and
    afterwards the services recorded for the node and the action and event
    names routed to it are exactly those of the last snapshot; the
    invariants hold again. *)
Theorem snapshots_converge
  (ownerA ownerE : string → option string * option nat)
  (st : Registry) (node : Node) (earlier : list (list Svc))
  (last : list Svc) :
  node_id node ≠ EmptyString →
  consistent node st →
  holds_assigned ownerA ownerE (node_id node) st →
  plain_names node st →
  Forall (λ serviceList,
            snapshot serviceList ∧
            Forall (declares_assigned ownerA ownerE) serviceList ∧
            Forall declares_plain serviceList)
    (earlier ++ [last]) →
  ∃ st', registerSnapshots st node (earlier ++ [last]) = Normal st' ∧
    (∀ name version,
       recorded st' name version (node_id node) ↔
       (name, version) ∈ svc_key <$> last) ∧
    (∀ name,
       is_Some (endpointOf (reg_actions st') name (node_id node)) ↔
       ∃ svc, svc ∈ last ∧ is_Some (actions_of svc !! name)) ∧
    (∀ name,
       is_Some (endpointOf (reg_events st') name (node_id node)) ↔
       ∃ svc, svc ∈ last ∧ is_Some (events_of svc !! name)) ∧
    consistent node st' ∧
    holds_assigned ownerA ownerE (node_id node) st' ∧
    plain_names node st'.
Proof.
  intros Hid. revert st.
  assert (Hstep : ∀ st serviceList,
    consistent node st →
    holds_assigned ownerA ownerE (node_id node) st →
    plain_names node st →
    snapshot serviceList →
    Forall (declares_assigned ownerA ownerE) serviceList →
    Forall declares_plain serviceList →
    ∃ st', registerServices st node serviceList = Normal st' ∧
      (∀ name version,
         recorded st' name version (node_id node) ↔
         (name, version) ∈ svc_key <$> serviceList) ∧
      (∀ name,
         is_Some (endpointOf (reg_actions st') name (node_id node)) ↔
         ∃ svc, svc ∈ serviceList ∧ is_Some (actions_of svc !! name)) ∧
      (∀ name,
         is_Some (endpointOf (reg_events st') name (node_id node)) ↔
         ∃ svc, svc ∈ serviceList ∧ is_Some (events_of svc !! name)) ∧
      consistent node st' ∧
      holds_assigned ownerA ownerE (node_id node) st' ∧
      plain_names node st').
  { intros st serviceList Hcons Hold Hplain Hsnap Hdecl Hdplain.
    destruct (registerServices_view st node serviceList Hid Hcons Hsnap)
      as (st' & Hreg & Hs & Ha & He & Hcons');
      [by eapply holds_assigned_names_apart|done|].
    exists st'. repeat (split; [done|]). split.
    - eapply registerServices_holds_assigned; [exact Hreg|..|done].
      + by destruct Hsnap as (_ & _ & ?).
      + done.
      + by destruct Hcons as [? _].
    - eapply registerServices_plain_names; [exact Hreg|..|done].
      + by destruct Hsnap as (_ & _ & ?).
      + done.
      + by destruct Hcons as [? _]. }
  unfold registerSnapshots.
  induction earlier as [|S0 earlier IH]; intros st Hcons Hold Hplain Hall; simpl.
  - apply Forall_singleton in Hall as (Hsnap & Hdecl & Hdplain).
    destruct (Hstep st last Hcons Hold Hplain Hsnap Hdecl Hdplain)
      as (st' & -> & Hrest).
    simpl. by exists st'.
  - apply Forall_cons in Hall as [(Hsnap & Hdecl & Hdplain) Hall].
    destruct (Hstep st S0 Hcons Hold Hplain Hsnap Hdecl Hdplain)
      as (st0 & -> & _ & _ & _ & Hcons0 & Hold0 & Hplain0).
    simpl. by apply IH.
Qed.

(** Scenarios A and B of the specification as one sequence: node B announces
    math@1 with [add] and [sub], then math@1 with [add]. *)
Lemma snapshots_converge_witness :
  ∃ st', registerSnapshots Scenario.empty Scenario.nodeB
           ([[Scenario.math [Scenario.add; Scenario.sub]]]
            ++ [[Scenario.math [Scenario.add]]]) = Normal st' ∧
    (∀ name version,
       recorded st' name version "B" ↔
       (name, version) ∈ svc_key <$> [Scenario.math [Scenario.add]]) ∧
    (∀ name,
       is_Some (endpointOf (reg_actions st') name "B") ↔
       ∃ svc, svc ∈ [Scenario.math [Scenario.add]] ∧
              is_Some (actions_of svc !! name)).
Proof.
  assert (Hid : node_id Scenario.nodeB ≠ EmptyString) by (simpl; congruence).
  assert (Hcons : consistent Scenario.nodeB Scenario.empty).
  { split; [by intros r ?%elem_of_nil|].
    split; [by intros r s ?%elem_of_nil|].
    split; [by intros r s ?%elem_of_nil|].
    split; [apply map_Forall_empty|]. split; [apply map_Forall_empty|].
    split; intros name e (l & Hl & _); simpl in Hl;
      by rewrite lookup_empty in Hl. }
  assert (Hold : holds_assigned (λ _, (Some "math", Some 1))
                   (λ _, (Some "math", Some 1)) (node_id Scenario.nodeB)
                   Scenario.empty)
    by (by intros r s ?%elem_of_nil).
  assert (Hplain : plain_names Scenario.nodeB Scenario.empty)
    by (split; by intros r s name ?%elem_of_nil).
  assert (Hsnap : ∀ actions,
            Forall (λ a, action_name a ∉ Object_prototype) actions →
            snapshot [Scenario.math actions] ∧
            Forall (declares_assigned (λ _, (Some "math", Some 1))
                      (λ _, (Some "math", Some 1))) [Scenario.math actions] ∧
            Forall declares_plain [Scenario.math actions]).
  { intros actions Hactions. split; [split; [|split]|split].
    - repeat constructor; by eexists.
    - apply NoDup_singleton.
    - repeat constructor.
      + intros k a Hk. unfold actions_of, Scenario.math in Hk. simpl in Hk.
        apply elem_of_list_to_map_2, list_elem_of_fmap in Hk as (a' & [= -> ->] & _).
        done.
      + intros k e Hk. unfold events_of, Scenario.math in Hk. simpl in Hk.
        by rewrite lookup_empty in Hk.
    - repeat constructor; by intros k a _.
    - repeat constructor.
      + intros k a Hk. unfold actions_of, Scenario.math in Hk. simpl in Hk.
        apply elem_of_list_to_map_2, list_elem_of_fmap in Hk
          as (a' & [= -> ->] & Hin).
        rewrite Forall_forall in Hactions. by apply Hactions.
      + intros k e Hk. unfold events_of, Scenario.math in Hk. simpl in Hk.
        by rewrite lookup_empty in Hk. }
  destruct (snapshots_converge (λ _, (Some "math", Some 1))
              (λ _, (Some "math", Some 1)) Scenario.empty Scenario.nodeB
              [[Scenario.math [Scenario.add; Scenario.sub]]]
              [Scenario.math [Scenario.add]] Hid Hcons Hold Hplain)
    as (st' & Hreg & Hs & Ha & _).
  { apply Forall_app. split; apply Forall_singleton; apply Hsnap;
      repeat constructor; apply (bool_decide_unpack _); by vm_compute. }
  exists st'. split; [exact Hreg|]. split; [exact Hs | exact Ha].
Defined.

(** ** An empty snapshot *)

Lemma forEach_agree {A S} (Inv : S → Prop) (f g : S → A → S) l s :
  (∀ s a, a ∈ l → Inv s → f s a = g s a) →
  (∀ s a, a ∈ l → Inv s → Inv (g s a)) →
  Inv s → forEach f l s = forEach g l s.
Proof.
  unfold forEach. revert s. induction l as [|a l IH]; intros s Hfg Hinv Hs; [done|].
  simpl. rewrite (Hfg s a) by (done || left). apply IH.
  - intros s' a' Ha'. apply Hfg. by right.
  - intros s' a' Ha'. apply Hinv. by right.
  - apply Hinv; [left | done].
Qed.

Lemma removeService_absent st r :
  r ∉ reg_services st →
  no_empty_lists (reg_actions st) → no_empty_lists (reg_events st) →
  (∀ name e, routed (reg_actions st) name e → ep_service e ≠ r) →
  (∀ name e, routed (reg_events st) name e → ep_service e ≠ r) →
  ServiceCatalog.removeService st r = st.
Proof.
  intros Hr Hna Hne Ha He. apply Registry_eq; simpl; try done.
  - apply filter_keeps_all. by intros r' Hr' ->.
  - by apply Catalog_removeByService_fresh.
  - by apply Catalog_removeByService_fresh.
Qed.

(** X17. An empty snapshot unregisters the node.  For a node with a
    non-empty id, on a registry without empty EndpointLists in which the
    services of the node are found by their keys and a recorded service stores
    the node object exactly when it carries the node's id,
    [registerServices(node, [])] completes with the registry that
    [unregisterServicesByNode(node.id)] produces. *)
Theorem empty_snapshot_unregisters_the_node (st : Registry) (node : Node) :
  node_id node ≠ EmptyString →
  found_by_key (node_id node) st →
  no_empty_lists (reg_actions st) →
  no_empty_lists (reg_events st) →
  (∀ r s, r ∈ reg_services st → reg_heap st !! r = Some s →
     same_object (service_node s) node ↔
     node_id (service_node s) = node_id node) →
  registerServices st node []
    = Normal (unregisterServicesByNode st (node_id node)).
Proof.
  intros Hid Hfound Hna Hne Hobj. unfold registerServices. simpl. f_equal.
  unfold removeOldServices, unregisterServicesByNode,
    ServiceCatalog.removeAllByNodeID.
  apply (forEach_agree (λ s,
    reg_heap s = reg_heap st ∧
    found_by_key (node_id node) s ∧
    (∀ r, r ∈ reg_services s → r ∈ reg_services st) ∧
    no_empty_lists (reg_actions s) ∧ no_empty_lists (reg_events s) ∧
    (∀ r, r ∈ reg_services st → r ∉ reg_services s →
       (∀ name e, routed (reg_actions s) name e → ep_service e ≠ r) ∧
       (∀ name e, routed (reg_events s) name e → ep_service e ≠ r)))).
  - intros s a Ha (Hh & Hf & Hsub & Hnas & Hnes & Hgone).
    unfold removeOld.
    destruct (reg_heap s !! a) as [s0|] eqn:Hs0s.
    2: { rewrite decide_False; [done|].
         unfold ServiceCatalog.ownedByID. rewrite Hs0s. tauto. }
    assert (Hs0 : reg_heap st !! a = Some s0) by by rewrite <- Hh.
    assert (Hown : ServiceCatalog.ownedByID s (node_id node) a ↔
                   node_id (service_node s0) = node_id node).
    { unfold ServiceCatalog.ownedByID. by rewrite Hs0s. }
    destruct (decide (same_object (service_node s0) node)) as [Hso|Hnso].
    + pose proof (proj1 (Hobj a s0 Ha Hs0) Hso) as Hids.
      rewrite decide_True by by apply Hown.
      simpl. unfold unregisterService, ServiceCatalog.remove.
      rewrite js_or_nonempty by done.
      destruct (decide (a ∈ reg_services s)) as [Hin|Hnin].
      * by rewrite (Hf a s0 Hin).
      * destruct (ServiceCatalog.get s _ _ _) as [r'|] eqn:Hget.
        -- exfalso. apply get_Some_matches in Hget as [Hr' Hm].
           unfold ServiceCatalog.matches in Hm. rewrite Hh in Hm.
           destruct (reg_heap st !! r') as [s'|] eqn:Hs'; [|done].
           destruct Hm as (Hn & Hv & Hid').
           pose proof (Hfound r' s' (Hsub r' Hr') Hs' Hid') as Hg1.
           pose proof (Hfound a s0 Ha Hs0 Hids) as Hg2.
           rewrite Hn, Hv in Hg1. rewrite Hg2 in Hg1. injection Hg1 as ->. done.
        -- symmetry. destruct (Hgone a Ha Hnin). by apply removeService_absent.
    + rewrite decide_False; [done|]. intros Hids%Hown. by apply Hnso, (Hobj a s0).
  - intros s a Ha (Hh & Hf & Hsub & Hnas & Hnes & Hgone).
    case_decide as Hown; [|done].
    split; [done|]. split; [by apply removeService_found_by_key|].
    split; [intros r [? _]%removeService_services; by apply Hsub|].
    split; [apply Catalog_removeByService_no_empty_lists|].
    split; [apply Catalog_removeByService_no_empty_lists|].
    intros r Hr Hnin. simpl.
    destruct (decide (r = a)) as [->|Hne'].
    + split; intros name e [_ ?]%routed_Catalog_removeByService; done.
    + assert (Hnin' : r ∉ reg_services s).
      { intros Hin. apply Hnin. by apply removeService_services. }
      destruct (Hgone r Hr Hnin') as [Hga Hge].
      split; intros name e [? _]%routed_Catalog_removeByService;
        [by apply (Hga name) | by apply (Hge name)].
  - repeat split; try done.
Qed.

(** In the registry of Scenario A, node B announces an empty snapshot. *)
Lemma empty_snapshot_unregisters_the_node_witness :
  registerServices Scenario.A Scenario.nodeB []
    = Normal (unregisterServicesByNode Scenario.A "B").
Proof.
  assert (Hcases : ∀ r, r ∈ reg_services Scenario.A → r = 0 ∨ r = 1).
  { intros r Hr. vm_compute in Hr. apply list_elem_of_In in Hr.
    destruct Hr as [<-|[<-|[]]]; auto. }
  apply (empty_snapshot_unregisters_the_node Scenario.A Scenario.nodeB).
  - simpl. congruence.
  - intros r s [->| ->]%Hcases Hs; vm_compute in Hs; injection Hs as <-;
      [discriminate | reflexivity].
  - apply (bool_decide_unpack _). by vm_compute.
  - apply (bool_decide_unpack _). by vm_compute.
  - intros r s [->| ->]%Hcases Hs; vm_compute in Hs; injection Hs as <-;
      split; intros H; (discriminate H || reflexivity).
Defined.

(** * A batch with and without one of its descriptors *)

(** ** Lists *)




(** ** Shifted references *)


Lemma shift_inj n k i j : shift n k i = shift n k j → i = j.
Proof. unfold shift. repeat case_decide; lia. Qed.






Lemma shift_endpoint_inj {T} n k (e e' : Endpoint T) :
  shift_endpoint n k e = shift_endpoint n k e' → e = e'.
Proof.
  destruct e, e'. unfold shift_endpoint. simpl. intros [= -> Hs -> ->].
  apply shift_inj in Hs. by subst.
Qed.

(** ** EndpointLists under a shift *)

Section shifted_lists.
Context {T : Type} (n k : nat).
Implicit Types (l : list (Endpoint T)).



End shifted_lists.

(** ** Catalogues that agree outside a set of names *)

Section catalogs_apart.
Context {T : Type} (nameOf : T → string) (n k : nat) (N : string → Prop).
Implicit Types (ca cb cat : gmap string (list (Endpoint T))).




Lemma addAll_no_empty_lists cat node r (m : gmap string T) :
  no_empty_lists cat → no_empty_lists (addAll nameOf cat node r m).
Proof.
  intros H. unfold addAll. apply (forEach_preserves no_empty_lists); [|done].
  intros c entry _ Hc. by apply Catalog_add_no_empty_lists.
Qed.

Lemma dropAbsent_no_empty_lists cat nodeID (m prev : gmap string T) :
  no_empty_lists cat → no_empty_lists (dropAbsent cat nodeID m prev).
Proof.
  intros H. unfold dropAbsent. apply (forEach_preserves no_empty_lists); [|done].
  intros c entry _ Hc. case_decide; [done|].
  by apply Catalog_remove_no_empty_lists.
Qed.









End catalogs_apart.

(** ** One reconciliation, component by component *)

Lemma registerActions_heap st node r actions :
  reg_heap (registerActions st node r actions)
  = alter (λ s, forEach (λ s entry, ServiceItem.addAction entry.2 s)
                  (map_to_list actions) s) r (reg_heap st).
Proof.
  unfold registerActions, forEach. revert st.
  induction (map_to_list actions) as [|entry l IH]; intros st; simpl.
  - symmetry. by apply list_alter_id.
  - rewrite IH. simpl. by rewrite list_alter_alter_eq.
Qed.

Lemma registerEvents_heap st node r events :
  reg_heap (registerEvents st node r events)
  = alter (λ s, forEach (λ s entry, ServiceItem.addEvent entry.2 s)
                  (map_to_list events) s) r (reg_heap st).
Proof.
  unfold registerEvents, forEach. revert st.
  induction (map_to_list events) as [|entry l IH]; intros st; simpl.
  - symmetry. by apply list_alter_id.
  - rewrite IH. simpl. by rewrite list_alter_alter_eq.
Qed.

(** The reconciliation of a descriptor that carries both maps, as a
    function of the registry. *)
Lemma reconcile_exact node st svc st' :
  complete svc →
  reconcile node st svc = Normal st' →
  match ServiceCatalog.get st (svc_name svc) (svc_version svc) (node_id node) with
  | Some r =>
      ∃ s, reg_heap st !! r = Some s ∧
        reg_heap st'
          = alter (λ s, absorb svc (ServiceItem.update svc s)) r (reg_heap st) ∧
        reg_services st' = reg_services st ∧
        reg_actions st'
          = dropAbsent (addAll action_name (reg_actions st) node r (actions_of svc))
              (node_id node) (actions_of svc) (service_actions s) ∧
        reg_events st'
          = dropAbsent (addAll event_name (reg_events st) node r (events_of svc))
              (node_id node) (events_of svc) (service_events s)
  | None =>
      reg_heap st'
        = reg_heap st ++
          [absorb svc (mkServiceItem node (svc_name svc) (svc_version svc)
                         (svc_settings svc) ∅ ∅)] ∧
      reg_services st' = reg_services st ++ [length (reg_heap st)] ∧
      reg_actions st'
        = addAll action_name (reg_actions st) node (length (reg_heap st))
            (actions_of svc) ∧
      reg_events st'
        = addAll event_name (reg_events st) node (length (reg_heap st))
            (events_of svc)
  end.
Proof.
  intros Hc Hrec.
  pose proof (reconcile_service _ _ _ _ Hrec) as (r0 & _ & _ & Hcase).
  pose proof Hc as [[ma Hma] [me Hme]].
  destruct (ServiceCatalog.get st (svc_name svc) (svc_version svc) (node_id node))
    as [r|] eqn:Hget.
  - destruct Hcase as [-> Hsvcs].
    pose proof (get_Some_matches _ _ _ _ _ Hget) as [_ Hm].
    unfold ServiceCatalog.matches in Hm.
    destruct (reg_heap st !! r) as [s|] eqn:Hs; [|done].
    exists s. split; [done|].
    split; [|split; [done|split;
      [by apply reconcile_actions_found | by apply reconcile_events_found]]].
    apply reconcile_stages in Hrec
      as (st1 & service & prevActions & prevEvents & st3 & Hfind & H3 & H5).
    rewrite (findOrCreate_found _ _ _ _ _ Hget Hs) in Hfind.
    injection Hfind as <- <- <- <-. rewrite Hma in H3. rewrite Hme in H5.
    apply dropOldEvents_frame in H5 as [-> _]. rewrite registerEvents_heap.
    apply dropOldActions_frame in H3 as [-> _]. rewrite registerActions_heap.
    simpl. rewrite !list_alter_alter_eq. unfold absorb, actions_of, events_of.
    by rewrite Hma, Hme.
  - destruct Hcase as [-> Hsvcs].
    split; [|split; [done|split;
      [by apply reconcile_actions_new | by apply reconcile_events_new]]].
    apply reconcile_stages in Hrec
      as (st1 & service & prevActions & prevEvents & st3 & Hfind & H3 & H5).
    unfold findOrCreate in Hfind. rewrite Hget in Hfind. simpl in Hfind.
    injection Hfind as <- <- <- <-. rewrite Hma in H3. rewrite Hme in H5.
    injection H3 as <-. injection H5 as <-.
    rewrite registerEvents_heap, registerActions_heap. simpl.
    rewrite list_alter_alter_eq.
    rewrite alter_app_r_alt by done. rewrite Nat.sub_diag. simpl.
    unfold absorb, actions_of, events_of. by rewrite Hma, Hme.
Qed.

Lemma absorb_key svc s : service_key (absorb svc s) = service_key s.
Proof.
  unfold absorb.
  apply (forEach_preserves (λ s', service_key s' = service_key s)).
  - by intros s' entry _ <-.
  - by apply (forEach_preserves (λ s', service_key s' = service_key s));
      [intros s' entry _ <-|].
Qed.

Lemma absorb_update_key svc s :
  service_key (absorb svc (ServiceItem.update svc s)) = service_key s.
Proof. by rewrite absorb_key. Qed.



(** ** Stores and service catalogues that agree apart from one service *)

Section heaps_apart.
Context (nodeID : string) (key : option string * option nat).
Implicit Types (ha hb h : list ServiceItem) (la lb : list nat).















End heaps_apart.

(** ** Registries that agree apart from one service *)

Section registries_apart.
Context (nid : string) (key : option string * option nat).
Context (NA NE : string → Prop).





(** *** One side only: the removal of the service set aside *)



(** *** Both sides: the removal of the same service *)

End registries_apart.


(** ** The first walk on two registries that agree apart from one service *)

Section first_walk_apart.
Context (node : Node) (key : option string * option nat).
Context (NA NE : string → Prop).






End first_walk_apart.

(** ** The second walk on two registries that agree apart from one service *)


Section second_walk_apart.
Context (node : Node) (key : option string * option nat).
Context (NA NE : string → Prop).
Context (La Lb : list Svc) (bad : Svc).
Hypothesis Hid : node_id node ≠ EmptyString.
Hypothesis Hbad : svc_key bad = key.
Hypothesis HLa : ∀ s,
  listed La s ↔
  listed Lb s ∨ ServiceItem.equals s (svc_name bad) (svc_version bad) None.






End second_walk_apart.

(** ** What two registries that agree apart from one service have in common *)

Section observations_apart.
Context (nid : string) (key : option string * option nat).
Context (NA NE : string → Prop).


End observations_apart.

(** ** The names of one descriptor through the rest of the batch *)


Section served_to_the_end.
Context {T : Type} (nameOf : T → string).
Context (cat : Registry → gmap string (list (Endpoint T))).
Context (own : ServiceItem → gmap string T).
Context (decl : Svc → gmap string T).

Hypothesis step_found : ∀ node st svc st' r s,
  complete svc →
  reconcile node st svc = Normal st' →
  ServiceCatalog.get st (svc_name svc) (svc_version svc) (node_id node) = Some r →
  reg_heap st !! r = Some s →
  cat st' = dropAbsent (addAll nameOf (cat st) node r (decl svc))
              (node_id node) (decl svc) (own s).
Hypothesis step_new : ∀ node st svc st',
  complete svc →
  reconcile node st svc = Normal st' →
  ServiceCatalog.get st (svc_name svc) (svc_version svc) (node_id node) = None →
  cat st' = addAll nameOf (cat st) node (length (reg_heap st)) (decl svc).
Hypothesis remove_cat : ∀ st r,
  cat (ServiceCatalog.removeService st r) = Catalog.removeByService (cat st) r.
Hypothesis absorb_own : ∀ svc s name,
  is_Some (own (absorb svc s) !! name) →
  is_Some (own s !! name) ∨ ∃ k a, decl svc !! k = Some a ∧ nameOf a = name.
Hypothesis update_own : ∀ svc s, own (ServiceItem.update svc s) = own s.
Hypothesis new_own : ∀ node name version settings,
  own (mkServiceItem node name version settings ∅ ∅) = ∅.

Context (node : Node) (bad : Svc) (others : list Svc) (x : string) (a : T).
Hypothesis Hkeys : ∀ g, g ∈ others → svc_key g ≠ svc_key bad.
Hypothesis Hdecl : ∀ g k y, g ∈ others → decl g !! k = Some y → nameOf y ≠ x.







End served_to_the_end.








(** ** The invariants a call starts from hold when it ends *)

Lemma routed_addAll_new {T} (nameOf : T → string)
  (cat : gmap string (list (Endpoint T))) node r (m : gmap string T) name e :
  routed (addAll nameOf cat node r m) name e →
  routed cat name e ∨
  (ep_service e = r ∧ ep_nodeID e = node_id node ∧
   ∃ k x, m !! k = Some x ∧ nameOf x = name).
Proof.
  revert name e. unfold addAll.
  apply (forEach_preserves (λ c, ∀ name e,
           routed c name e → routed cat name e ∨
           (ep_service e = r ∧ ep_nodeID e = node_id node ∧
            ∃ k x, m !! k = Some x ∧ nameOf x = name))); [|auto].
  intros c [key x] Hin%elem_of_map_to_list Hc name e (l & Hl & He).
  simpl in Hl. rewrite (Catalog_add_lookup nameOf) in Hl. case_decide as Heq.
  - injection Hl as <-.
    apply (elem_of_EndpointList_add (node_id node) r x) in He
      as [(Hn & Hs & _)|He].
    + right. split; [done|]. split; [done|]. by exists key, x.
    + destruct (c !! nameOf x) as [l|] eqn:Hl; simpl in He;
        [|by apply elem_of_nil in He].
      apply Hc. exists l. by rewrite <- Heq.
  - apply Hc. by exists l.
Qed.

Lemma absorb_actions_keeps svc s name :
  is_Some (service_actions s !! name) →
  is_Some (service_actions (absorb svc s) !! name).
Proof.
  intros Hs. unfold absorb.
  apply (forEach_preserves (λ s', is_Some (service_actions s' !! name)));
    [by intros s' entry _ Hs'|].
  apply (forEach_preserves (λ s', is_Some (service_actions s' !! name)));
    [|done].
  intros s' entry _ Hs'. simpl.
  destruct (decide (action_name entry.2 = name)) as [->|Hne].
  - rewrite lookup_insert_eq. by eexists.
  - by rewrite lookup_insert_ne.
Qed.

Lemma absorb_events_keeps svc s name :
  is_Some (service_events s !! name) →
  is_Some (service_events (absorb svc s) !! name).
Proof.
  intros Hs. unfold absorb.
  apply (forEach_preserves (λ s', is_Some (service_events s' !! name))).
  - intros s' entry _ Hs'. simpl.
    destruct (decide (event_name entry.2 = name)) as [->|Hne].
    + rewrite lookup_insert_eq. by eexists.
    + by rewrite lookup_insert_ne.
  - by apply (forEach_preserves (λ s', is_Some (service_events s' !! name)));
      [intros s' entry _ Hs'|].
Qed.

Lemma absorb_actions_holds svc s k a :
  actions_of svc !! k = Some a →
  is_Some (service_actions (absorb svc s) !! action_name a).
Proof.
  intros Hk. unfold absorb.
  apply (forEach_preserves
           (λ s', is_Some (service_actions s' !! action_name a)));
    [by intros s' entry _ Hs'|].
  apply (forEach_establishes (λ _, True)
           (λ s', is_Some (service_actions s' !! action_name a))
           _ _ _ (k, a)); try done.
  - by apply elem_of_map_to_list.
  - intros s' entry _ Hs'. simpl.
    destruct (decide (action_name entry.2 = action_name a)) as [->|Hne].
    + rewrite lookup_insert_eq. by eexists.
    + by rewrite lookup_insert_ne.
  - intros s' _. simpl. rewrite lookup_insert_eq. by eexists.
Qed.

Lemma absorb_events_holds svc s k a :
  events_of svc !! k = Some a →
  is_Some (service_events (absorb svc s) !! event_name a).
Proof.
  intros Hk. unfold absorb.
  apply (forEach_establishes (λ _, True)
           (λ s', is_Some (service_events s' !! event_name a))
           _ _ _ (k, a)); try done.
  - by apply elem_of_map_to_list.
  - intros s' entry _ Hs'. simpl.
    destruct (decide (event_name entry.2 = event_name a)) as [->|Hne].
    + rewrite lookup_insert_eq. by eexists.
    + by rewrite lookup_insert_ne.
  - intros s' _. simpl. rewrite lookup_insert_eq. by eexists.
Qed.

Section backed_again.
Context {T : Type} (nameOf : T → string).
Context (cat : Registry → gmap string (list (Endpoint T))).
Context (own : ServiceItem → gmap string T).
Context (decl : Svc → gmap string T).

Hypothesis step_found : ∀ node st svc st' r s,
  complete svc →
  reconcile node st svc = Normal st' →
  ServiceCatalog.get st (svc_name svc) (svc_version svc) (node_id node) = Some r →
  reg_heap st !! r = Some s →
  cat st' = dropAbsent (addAll nameOf (cat st) node r (decl svc))
              (node_id node) (decl svc) (own s).
Hypothesis step_new : ∀ node st svc st',
  complete svc →
  reconcile node st svc = Normal st' →
  ServiceCatalog.get st (svc_name svc) (svc_version svc) (node_id node) = None →
  cat st' = addAll nameOf (cat st) node (length (reg_heap st)) (decl svc).
Hypothesis remove_cat : ∀ st r,
  cat (ServiceCatalog.removeService st r) = Catalog.removeByService (cat st) r.
Hypothesis absorb_keeps : ∀ svc s name,
  is_Some (own s !! name) → is_Some (own (absorb svc s) !! name).
Hypothesis absorb_holds : ∀ svc s k y,
  decl svc !! k = Some y → is_Some (own (absorb svc s) !! nameOf y).
Hypothesis update_own : ∀ svc s, own (ServiceItem.update svc s) = own s.

Lemma reconcile_backed node st svc st' :
  complete svc →
  reconcile node st svc = Normal st' →
  (∀ nodeID, endpoints_backed cat own nodeID st) →
  ∀ nodeID, endpoints_backed cat own nodeID st'.
Proof.
  intros Hc Hrec Hback nodeID name e Hre Hid.
  pose proof (reconcile_exact _ _ _ _ Hc Hrec) as Hx.
  destruct (ServiceCatalog.get st (svc_name svc) (svc_version svc) (node_id node))
    as [r|] eqn:Hget.
  - destruct Hx as (s & Hs & Hh & Hsv & _).
    pose proof (get_Some_matches _ _ _ _ _ Hget) as [Hr Hm].
    rewrite (matches_item _ _ _ _ _ _ Hs) in Hm. destruct Hm as (_ & _ & Hnode).
    pose proof (absorb_update_key svc s) as Hkey.
    unfold service_key in Hkey. injection Hkey as Hnd _ _.
    rewrite (step_found _ _ _ _ _ _ Hc Hrec Hget Hs) in Hre.
    apply routed_dropAbsent in Hre as [Hre _].
    apply routed_addAll_new in Hre as [Hre|(Hes & Hen & k & y & Hk & <-)].
    + destruct (Hback nodeID name e Hre Hid) as (s0 & Hin & Hs0 & Hn0 & Hheld).
      destruct (decide (ep_service e = r)) as [Heq|Hne].
      * rewrite Heq in *. assert (s0 = s) by congruence. subst s0.
        exists (absorb svc (ServiceItem.update svc s)).
        split; [by rewrite Hsv|]. split; [by rewrite Hh, list_lookup_alter_eq, Hs|].
        split; [by rewrite Hnd|]. apply absorb_keeps. by rewrite update_own.
      * exists s0. split; [by rewrite Hsv|].
        split; [by rewrite Hh, list_lookup_alter_ne|]. done.
    + exists (absorb svc (ServiceItem.update svc s)). rewrite Hes.
      split; [by rewrite Hsv|]. split; [by rewrite Hh, list_lookup_alter_eq, Hs|].
      split; [rewrite Hnd; congruence|]. by eapply absorb_holds.
  - destruct Hx as (Hh & Hsv & _).
    set (x := absorb svc (mkServiceItem node (svc_name svc) (svc_version svc)
                            (svc_settings svc) ∅ ∅)) in *.
    assert (Hlast : reg_heap st' !! length (reg_heap st) = Some x).
    { rewrite Hh, lookup_app_r by done. by rewrite Nat.sub_diag. }
    rewrite (step_new _ _ _ _ Hc Hrec Hget) in Hre.
    apply routed_addAll_new in Hre as [Hre|(Hes & Hen & k & y & Hk & <-)].
    + destruct (Hback nodeID name e Hre Hid) as (s0 & Hin & Hs0 & Hn0 & Hheld).
      exists s0. split; [rewrite Hsv; apply elem_of_app; by left|].
      split; [|done]. rewrite Hh. by apply lookup_app_l_Some.
    + exists x. rewrite Hes.
      split; [rewrite Hsv; apply elem_of_app; right; left|].
      split; [done|]. split; [|by eapply absorb_holds].
      pose proof (absorb_key svc (mkServiceItem node (svc_name svc)
                    (svc_version svc) (svc_settings svc) ∅ ∅)) as Hkey.
      fold x in Hkey. unfold service_key in Hkey. simpl in Hkey.
      injection Hkey as -> _ _. congruence.
Qed.

Lemma removeOldServices_backed st node serviceList :
  (∀ nodeID, endpoints_backed cat own nodeID st) →
  ∀ nodeID, endpoints_backed cat own nodeID
              (removeOldServices st node serviceList).
Proof.
  intros Hback. unfold removeOldServices.
  apply (forEach_preserves (λ t, ∀ nodeID, endpoints_backed cat own nodeID t));
    [|done].
  intros t r _ Ht nodeID name e Hre Hid.
  destruct (removeOld_cases node serviceList t r)
    as [Heq|(s0 & r' & _ & _ & _ & _ & Heq)]; rewrite Heq in *;
    [by apply (Ht nodeID)|].
  rewrite remove_cat in Hre.
  apply routed_Catalog_removeByService in Hre as [Hre Hne].
  destruct (Ht nodeID name e Hre Hid) as (s & Hin & Hs & Hn & Hheld).
  exists s. split; [by apply removeService_services|]. done.
Qed.
End backed_again.

Lemma reconcile_no_empty_lists node st svc st' :
  complete svc →
  reconcile node st svc = Normal st' →
  no_empty_lists (reg_actions st) → no_empty_lists (reg_events st) →
  no_empty_lists (reg_actions st') ∧ no_empty_lists (reg_events st').
Proof.
  intros Hc Hrec Ha He. pose proof (reconcile_exact _ _ _ _ Hc Hrec) as Hx.
  destruct (ServiceCatalog.get st (svc_name svc) (svc_version svc) (node_id node)).
  - destruct Hx as (s & _ & _ & _ & -> & ->).
    split; by apply dropAbsent_no_empty_lists, addAll_no_empty_lists.
  - destruct Hx as (_ & _ & -> & ->). split; by apply addAll_no_empty_lists.
Qed.

(** X18. The invariants that the calls rely on hold again.  When the
    descriptors of the list carry their maps, [registerServices] takes a
    registry with live references, without empty EndpointList and in which
    every endpoint was registered by a recorded service of its node that
    holds the name to a registry of the same kind. *)
Theorem registerServices_keeps_references (st : Registry) (node : Node)
  (serviceList : list Svc) :
  Forall complete serviceList →
  catalogue_live st →
  no_empty_lists (reg_actions st) → no_empty_lists (reg_events st) →
  all_backed st →
  ∃ st', registerServices st node serviceList = Normal st' ∧
    catalogue_live st' ∧
    no_empty_lists (reg_actions st') ∧ no_empty_lists (reg_events st') ∧
    all_backed st'.
Proof.
  intros Hc Hlive Hna Hne Hback.
  destruct (reconcile_all_complete node serviceList st Hc) as [st1 H1].
  exists (removeOldServices st1 node serviceList).
  split; [unfold registerServices; by rewrite H1|].
  assert (Hinv : catalogue_live st1 ∧
    no_empty_lists (reg_actions st1) ∧ no_empty_lists (reg_events st1) ∧
    (∀ nodeID, endpoints_backed reg_actions service_actions nodeID st1) ∧
    (∀ nodeID, endpoints_backed reg_events service_events nodeID st1)).
  { eapply (forEachM_preserves (λ t, catalogue_live t ∧
      no_empty_lists (reg_actions t) ∧ no_empty_lists (reg_events t) ∧
      (∀ nodeID, endpoints_backed reg_actions service_actions nodeID t) ∧
      (∀ nodeID, endpoints_backed reg_events service_events nodeID t)));
      [|exact H1|].
    - intros t svc t' Hin Hrec (Hl & Ha & He & Hba & Hbe).
      assert (Hsvc : complete svc) by (rewrite Forall_forall in Hc; auto).
      split; [by eapply reconcile_catalogue_live|].
      destruct (reconcile_no_empty_lists _ _ _ _ Hsvc Hrec Ha He) as [? ?].
      split; [done|]. split; [done|]. split.
      + by apply (reconcile_backed action_name reg_actions service_actions
                    actions_of reconcile_actions_found reconcile_actions_new
                    (λ svc s name, absorb_actions_keeps svc s name)
                    absorb_actions_holds (λ _ _, eq_refl) node t svc t').
      + by apply (reconcile_backed event_name reg_events service_events
                    events_of reconcile_events_found reconcile_events_new
                    (λ svc s name, absorb_events_keeps svc s name)
                    absorb_events_holds (λ _ _, eq_refl) node t svc t').
    - split; [done|]. split; [done|]. split; [done|].
      split; intros nodeID; by destruct (Hback nodeID). }
  destruct Hinv as (Hl1 & Ha1 & He1 & Hba1 & Hbe1).
  destruct (removeOldServices_heap st1 node serviceList) as [Hh _].
  split; [|split; [|split]].
  - intros r Hr%removeOldServices_subset. rewrite Hh. by apply Hl1.
  - unfold removeOldServices.
    apply (forEach_preserves (λ t, no_empty_lists (reg_actions t))); [|done].
    intros t r _ Ht.
    destruct (removeOld_cases node serviceList t r)
      as [->|(s0 & r' & _ & _ & _ & _ & ->)]; [done|].
    apply Catalog_removeByService_no_empty_lists.
  - unfold removeOldServices.
    apply (forEach_preserves (λ t, no_empty_lists (reg_events t))); [|done].
    intros t r _ Ht.
    destruct (removeOld_cases node serviceList t r)
      as [->|(s0 & r' & _ & _ & _ & _ & ->)]; [done|].
    apply Catalog_removeByService_no_empty_lists.
  - intros nodeID. split.
    + by apply (removeOldServices_backed reg_actions service_actions
                  removeService_actions).
    + by apply (removeOldServices_backed reg_events service_events
                  removeService_events).
Qed.

(** On the registry of Scenario A, the snapshot math@1 {add} of node B. *)
Lemma registerServices_keeps_references_witness :
  ∃ st', registerServices Scenario.A Scenario.nodeB
           [Scenario.math [Scenario.add]] = Normal st' ∧
    catalogue_live st' ∧
    no_empty_lists (reg_actions st') ∧ no_empty_lists (reg_events st') ∧
    all_backed st'.
Proof.
  apply (registerServices_keeps_references Scenario.A Scenario.nodeB
           [Scenario.math [Scenario.add]]).
  - repeat constructor; by eexists.
  - intros r Hr. vm_compute in Hr. apply list_elem_of_In in Hr.
    destruct Hr as [<-|[<-|[]]]; by eexists.
  - apply (bool_decide_unpack _). by vm_compute.
  - apply (bool_decide_unpack _). by vm_compute.
  - intros nodeID. split; intros name e (l & Hl & He) Hnode.
    + apply elem_of_map_to_list in Hl. vm_compute in Hl.
      apply list_elem_of_In in Hl. destruct Hl as [Hl|[Hl|[]]];
        injection Hl as <- <-; apply list_elem_of_In in He.
      * destruct He as [<-|[]]. subst nodeID.
        eexists. split; [by vm_compute; right; left|].
        split; [reflexivity|]. split; [reflexivity | by eexists].
      * destruct He as [<-|[<-|[]]]; subst nodeID.
        -- eexists. split; [by vm_compute; left|].
           split; [reflexivity|]. split; [reflexivity | by eexists].
        -- eexists. split; [by vm_compute; right; left|].
           split; [reflexivity|]. split; [reflexivity | by eexists].
    + apply elem_of_map_to_list in Hl. vm_compute in Hl.
      by apply list_elem_of_In in Hl.
Defined.
